(** * Synthetic handwriting generators: a shallow embedding

    Embeds the glyph compositing engine of
    [gen_casia_company.py] (flowing mode, company names) and
    [gen_handwriting_chinese_price.py] (slotted mode, capital numbers).

    - Python [int] is [Z]; Python [float] is IEEE binary64, taken as the
      primitive floats of the standard library ([PrimFloat]).
    - Python [str] is a list of code points; a file path is a [string].
    - Exceptions are explicit: a computation yields [Ret v] or [Raise e].
    - The [random] module draws from an explicit stream of raw values.
    - Pillow images are pixel functions with explicit sizes; the operations
      whose pixels the code never inspects (rotation, resampling, filters,
      file decoding) are fields of an environment record. *)

From Stdlib Require Import ZArith List Bool Lia String Floats Sorted.
From Stdlib Require Import Reals Lra Psatz.
From Equations Require Import Equations.
Import ListNotations.
Local Open Scope Z_scope.

(* Decimal float literals stand for the nearest binary64 value, as in Python. *)
Set Warnings "-inexact-float".

(** ** Python values, exceptions and the random module *)

Module Py.

Inductive exn : Type :=
| IndexError | KeyError | ValueError | ZeroDivisionError
| OverflowError | UnboundLocalError | OSError.

Inductive outcome (A : Type) : Type :=
| Ret (a : A)
| Raise (e : exn).
Arguments Ret {A} a.
Arguments Raise {A} e.

(** The raw stream behind [random]: every call consumes one draw. *)
Definition rng : Type := nat -> Z.

Definition rng_head (g : rng) : Z := g O.
Definition rng_tail (g : rng) : rng := fun n => g (S n).

(** A computation that may draw random values and may raise; the draws
    consumed before an exception stay consumed. *)
Definition M (A : Type) : Type := rng -> outcome A * rng.

Definition ret {A} (a : A) : M A := fun g => (Ret a, g).
Definition raise {A} (e : exn) : M A := fun g => (Raise e, g).
Definition bind {A B} (m : M A) (k : A -> M B) : M B :=
  fun g => match m g with
           | (Ret a, g') => k a g'
           | (Raise e, g') => (Raise e, g')
           end.

(** [try: m  except Exception: h] *)
Definition try_except {A} (m : M A) (h : M A) : M A :=
  fun g => match m g with
           | (Ret a, g') => (Ret a, g')
           | (Raise _, g') => h g'
           end.

Definition lift {A} (o : outcome A) : M A := fun g => (o, g).

(** Sequencing of computations that only raise. *)
Definition obind {A B} (o : outcome A) (k : A -> outcome B) : outcome B :=
  match o with Ret a => k a | Raise e => Raise e end.

(** [random.random()]: a multiple of 2^-53 in [0, 1). *)
Definition two53 : Z := 9007199254740992.

Definition random : M float :=
  fun g => (Ret (Z.ldexp (of_uint63 (Uint63.of_Z (rng_head g mod two53))) (-53)),
            rng_tail g).

(** [random.randint(a, b)]: [ValueError] on an empty range. *)
Definition randint_value (a b : Z) (g : rng) : Z :=
  a + rng_head g mod (b - a + 1).
Arguments randint_value : simpl never.

Definition randint (a b : Z) : M Z :=
  fun g => if b <? a then (Raise ValueError, g)
           else (Ret (randint_value a b g), rng_tail g).

(** [random.choice(seq)]: [IndexError] on an empty sequence. *)
Definition choice {A} (l : list A) : M A :=
  fun g => match nth_error l (Z.to_nat (rng_head g mod Z.of_nat (List.length l))) with
           | Some a => (Ret a, rng_tail g)
           | None => (Raise IndexError, g)
           end.

(** Python strings: lists of code points. *)
Definition char : Type := Z.
Definition str : Type := list char.

Fixpoint str_eqb (a b : str) : bool :=
  match a, b with
  | [], [] => true
  | x :: a', y :: b' => (x =? y) && str_eqb a' b'
  | _, _ => false
  end.

(** The character index [Dict[str, List[str]]]: from a character to the
    paths of its samples.  The drivers build it as a [defaultdict(list)],
    whose subscript yields an empty list for a missing key. *)
Record char_map : Type :=
  mkCharMap { items : list (str * list string); is_defaultdict : bool }.

Definition lookup (c : str) (cm : char_map) : option (list string) :=
  option_map snd (find (fun kv => str_eqb (fst kv) c) (items cm)).

(** [c in char_map] *)
Definition contains (c : str) (cm : char_map) : bool :=
  match lookup c cm with Some _ => true | None => false end.

(** [char_map[c]] *)
Definition getitem (c : str) (cm : char_map) : outcome (list string) :=
  match lookup c cm with
  | Some paths => Ret paths
  | None => if is_defaultdict cm then Ret [] else Raise KeyError
  end.

(** [sum(...)] and [max(...)], [min(...)] over a non-empty sequence of ints *)
Definition sum (l : list Z) : Z := fold_right Z.add 0 l.
Definition max_of (x : Z) (l : list Z) : Z := fold_left Z.max l x.
Definition min_of (x : Z) (l : list Z) : Z := fold_left Z.min l x.

End Py.

Import Py.

Declare Scope py_scope.
Delimit Scope py_scope with py.
Notation "x <- m ;; k" := (bind m (fun x => k))
(at level 61, m at next level, right associativity) : py_scope.
Notation "' p <- m ;; k" := (bind m (fun x => match x with p => k end))
(at level 61, p pattern, m at next level, right associativity) : py_scope.
Notation "m >>= k" := (bind m k) (at level 58, left associativity) : py_scope.
Notation "x <~ o ;; k" := (obind o (fun x => k))
(at level 61, o at next level, right associativity) : py_scope.
Local Open Scope py_scope.

(** ** Binary64 arithmetic as Python performs it *)

Module F64.

Local Open Scope float_scope.

(** [float(n)] for an [int]: correctly rounded, [OverflowError] when the
    integer is too large for a float. *)
Definition of_int (n : Z) : outcome float :=
  let f := SF2Prim (binary_normalize prec emax n 0%Z false) in
  if is_infinity f then Raise OverflowError else Ret f.

(** [int(x)]: truncation toward zero of the exact value [m * 2^e];
    [OverflowError] on an infinity, [ValueError] on a NaN. *)
Definition int (f : float) : outcome Z :=
  match Prim2SF f with
  | S754_zero _ => Ret 0%Z
  | S754_finite s m e =>
      let a := if (0 <=? e)%Z then Z.shiftl (Zpos m) e
               else Z.shiftr (Zpos m) (- e) in
      Ret (if s then (- a)%Z else a)
  | S754_infinity _ => Raise OverflowError
  | S754_nan => Raise ValueError
  end.

(** [x > n] for a float [x] and an int [n]: Python compares the exact
    values. *)
Definition gt_int (f : float) (n : Z) : bool :=
  match Prim2SF f with
  | S754_zero _ => (n <? 0)%Z
  | S754_finite s m e =>
      let a := if s then Zneg m else Zpos m in
      if (0 <=? e)%Z then (n <? Z.shiftl a e)%Z
      else (Z.shiftl n (- e) <? a)%Z
  | S754_infinity s => negb s
  | S754_nan => false
  end.

(** [n > x] for an int [n] and a float [x]. *)
Definition int_gt (n : Z) (f : float) : bool :=
  match Prim2SF f with
  | S754_zero _ => (0 <? n)%Z
  | S754_finite s m e =>
      let a := if s then Zneg m else Zpos m in
      if (0 <=? e)%Z then (Z.shiftl a e <? n)%Z
      else (a <? Z.shiftl n (- e))%Z
  | S754_infinity s => s
  | S754_nan => false
  end.

(** [x / y] on floats: [ZeroDivisionError] on a zero divisor. *)
Definition truediv (x y : float) : outcome float :=
  if y =? 0 then Raise ZeroDivisionError else Ret (x / y).

(** [a / b] on ints: the correctly rounded quotient. *)
Definition int_truediv (a b : Z) : outcome float :=
  if (b =? 0)%Z then Raise ZeroDivisionError
  else
    let sf (n : Z) := match n with
                      | Z0 => S754_zero false
                      | Zpos p => S754_finite false p 0
                      | Zneg p => S754_finite true p 0
                      end in
    let q := SF2Prim (SF64div (sf a) (sf b)) in
    if is_infinity q then Raise OverflowError else Ret q.

(** [n * x] and [x / n] with an int operand: the int is converted first. *)
Definition int_mul (n : Z) (x : float) : outcome float :=
  (f <~ of_int n ;; Ret (f * x))%py.

Definition div_int (x : float) (n : Z) : outcome float :=
  (f <~ of_int n ;; truediv x f)%py.

Definition int_div (n : Z) (x : float) : outcome float :=
  (f <~ of_int n ;; truediv f x)%py.

(** [min(a, b)] on floats: the first argument unless the second is
    smaller. *)
Definition min (a b : float) : float := if b <? a then b else a.

(** [random.uniform(a, b)] is [a + (b - a) * random()]. *)
Definition uniform (a b : float) : M float :=
  (r <- Py.random ;; ret (a + (b - a) * r))%py.

End F64.

(** ** Pillow images *)

Module PIL.

(** A single-channel image: its size and its pixel at column [x], row [y]
    (meaningful for [0 <= x < width], [0 <= y < height]). *)
Record image : Type := mkImage { width : Z; height : Z; px : Z -> Z -> Z }.

Definition box : Type := (Z * Z * Z * Z)%type.

Definition range (n : Z) : list Z := map Z.of_nat (seq 0 (Z.to_nat n)).

(** [im.getpixel((x, y))] *)
Definition getpixel (im : image) (x y : Z) : outcome Z :=
  if (0 <=? x) && (x <? width im) && (0 <=? y) && (y <? height im)
  then Ret (px im x y) else Raise IndexError.

(** [im.point(f, 'L')] *)
Definition point (f : Z -> Z) (im : image) : image :=
  mkImage (width im) (height im) (fun x y => f (px im x y)).

Definition col_nonzero (im : image) (x : Z) : bool :=
  existsb (fun y => negb (px im x y =? 0)) (range (height im)).

Definition row_nonzero (im : image) (y : Z) : bool :=
  existsb (fun x => negb (px im x y =? 0)) (range (width im)).

(** [im.getbbox()]: the bounding box of the non-zero pixels, right and
    lower edges exclusive; [None] when every pixel is zero. *)
Definition getbbox (im : image) : option box :=
  match filter (col_nonzero im) (range (width im)),
        filter (row_nonzero im) (range (height im)) with
  | x0 :: xs, y0 :: ys => Some (x0, y0, last xs x0 + 1, last ys y0 + 1)
  | _, _ => None
  end.

(** [im.crop(box)] *)
Definition crop (im : image) (b : box) : image :=
  let '(l, u, r, d) := b in
  mkImage (r - l) (d - u) (fun x y => px im (x + l) (y + u)).

(** A mask has foreground when some pixel inside it is non-zero. *)
Definition has_foreground (im : image) : Prop :=
  exists x y, 0 <= x < width im /\ 0 <= y < height im /\ px im x y <> 0.

Definition color : Type := (Z * Z * Z)%type.

(** What was drawn on an RGB canvas, oldest first. *)
Inductive op : Type :=
| Blend (tint : color) (alpha : float)
| Paste (glyph : image) (x y : Z) (fill : color)
| Line (points : list (Z * Z)) (fill : color) (line_width : Z)
| Crop (b : box)
| GaussianBlur (radius : float)
| Brightness (factor : float)
| Contrast (factor : float).

(** An RGB image: the file it was decoded from, its current size and the
    operations applied since. *)
Record canvas : Type :=
  mkCanvas { source : string; cwidth : Z; cheight : Z; ops : list op }.

Definition apply (o : op) (c : canvas) : canvas :=
  mkCanvas (source c) (cwidth c) (cheight c) (ops c ++ [o]).

(** The integers a C [int] holds. *)
Definition c_int (n : Z) : bool := (- 2 ^ 31 <=? n) && (n <? 2 ^ 31).

(** Pillow hands the box [(x, y, x + w, y + h)] of a paste to C as four
    [int]s. *)
Definition paste_fits (glyph : image) (x y : Z) : bool :=
  c_int x && c_int y && c_int (x + width glyph) && c_int (y + height glyph).

Definition fits (o : op) : bool :=
  match o with Paste glyph x y _ => paste_fits glyph x y | _ => true end.

(** [canvas.paste(Image.new('RGB', mask.size, fill), (x, y), mask)]:
    [OverflowError] when a side of the box is no C [int]. *)
Definition paste (glyph : image) (x y : Z) (fill : color) (c : canvas)
  : outcome canvas :=
  if paste_fits glyph x y then Ret (apply (Paste glyph x y fill) c)
  else Raise OverflowError.

(** [canvas.crop(box)]: [ValueError] when the right edge lies left of the
    left one, or the lower edge above the upper one. *)
Definition ccrop (b : box) (c : canvas) : outcome canvas :=
  let '(l, u, r, d) := b in
  if (r <? l) || (d <? u) then Raise ValueError
  else Ret (mkCanvas (source c) (r - l) (d - u) (ops c ++ [Crop b])).

(** The glyphs pasted on a canvas. *)
Definition pasted (c : canvas) : list image :=
  flat_map (fun o => match o with Paste g _ _ _ => [g] | _ => [] end) (ops c).

(** The parts of Pillow and of the file system the generators rely on
    without looking inside. *)
Record env : Type := mkEnv {
  (** [Image.open(path).convert('L')]; [None] when it raises *)
  open_gray : string -> option image;
  (** [Image.open(path).convert('RGB')]: the size; [None] when it raises *)
  open_rgb : string -> option (Z * Z);
  (** [im.rotate(angle, resample=BICUBIC, expand=True)] *)
  rotate : Z -> image -> image;
  (** the pixels of [im.resize((w, h), LANCZOS)] *)
  resample : image -> Z -> Z -> Z -> Z -> Z;
  (** [im.filter(ImageFilter.MaxFilter(3))] *)
  max_filter : image -> image
}.

(** [im.resize((w, h), LANCZOS)]: a copy when the size is unchanged,
    [ValueError] when a side is below one pixel. *)
Definition resize (E : env) (im : image) (w h : Z) : outcome image :=
  if (w =? width im) && (h =? height im) then Ret im
  else if (w <? 1) || (h <? 1) then Raise ValueError
  else Ret (mkImage w h (resample E im w h)).

End PIL.

Import PIL.

(** ** gen_casia_company.py: flowing mode *)

Module Company.

Local Open Scope float_scope.
Local Open Scope Z_scope.

(** The adaptive threshold of [_get_char_mask]: the corner pixel decides
    the polarity ([getpixel] raising [IndexError] counts as 255). *)
Definition binarize (img_gray : image) : image :=
  let bg_pixel_value :=
    match getpixel img_gray 0 0 with Ret v => v | Raise _ => 255 end in
  if 128 <? bg_pixel_value
  then point (fun p => if p <? 230 then 255 else 0) img_gray
  else point (fun p => if 50 <? p then 255 else 0) img_gray.

(** Crop to the foreground, rotate, crop again; the rotated mask without
    foreground gives way to the mask before rotation. *)
Definition crop_and_rotate (E : env) (mask : image) : M (option image) :=
  match getbbox mask with
  | None => ret None
  | Some bbox =>
      let mask_cropped := crop mask bbox in
      angle <- randint (-3) 3 ;;
      let mask_cropped_rotated := rotate E angle mask_cropped in
      match getbbox mask_cropped_rotated with
      | None => ret (Some mask_cropped)
      | Some bbox_rotated => ret (Some (crop mask_cropped_rotated bbox_rotated))
      end
  end.

(** [_get_char_mask(char, char_map)]; the sample is chosen before the
    [try] block, whose handler returns [None]. *)
Definition _get_char_mask (E : env) (c : str) (cm : char_map) : M (option image) :=
  if negb (contains c cm) then ret None
  else
    paths <- lift (getitem c cm) ;;
    img_path <- choice paths ;;
    try_except
      (match open_gray E img_path with
       | None => raise OSError
       | Some img_gray => crop_and_rotate E (binarize img_gray)
       end)
      (ret None).

(** The loop collecting one mask per character: the first character without
    a mask ends the generation. *)
Fixpoint get_masks (E : env) (cm : char_map) (cs : list str) : M (option (list image)) :=
  match cs with
  | [] => ret (Some [])
  | c :: cs' =>
      mask <- _get_char_mask E c cm ;;
      match mask with
      | None => ret None
      | Some m =>
          rest <- get_masks E cm cs' ;;
          ret (option_map (cons m) rest)
      end
  end.

(** One pass of the normalisation loop: the size a mask is resized to, or
    [None] where the loop says [continue]. *)
Definition normalized_size (max_h : Z) (w h : Z) : outcome (option (Z * Z)) :=
  if h =? 0 then Ret None
  else
    aspect_ratio <~ F64.int_truediv w h ;;
    if (2.0 <? aspect_ratio)%float then
      f <~ F64.int_mul max_h 0.9 ;;
      target_width <~ F64.int f ;;
      q <~ F64.int_div target_width aspect_ratio ;;
      new_height <~ F64.int q ;;
      lo <~ F64.int_mul max_h 0.15 ;;
      floor_h <~ F64.int lo ;;
      let new_height := Z.max new_height floor_h in
      if target_width =? 0 then Ret None
      else Ret (Some (target_width, new_height))
    else
      let new_height := max_h in
      p <~ F64.int_mul new_height aspect_ratio ;;
      new_width <~ F64.int p ;;
      if new_width =? 0 then Ret None
      else Ret (Some (new_width, new_height)).

Fixpoint normalize (E : env) (max_h : Z) (masks : list image) : outcome (list image) :=
  match masks with
  | [] => Ret []
  | mask :: rest =>
      size <~ normalized_size max_h (width mask) (height mask) ;;
      match size with
      | None => normalize E max_h rest
      | Some (w, h) =>
          m <~ resize E mask w h ;;
          ms <~ normalize E max_h rest ;;
          Ret (m :: ms)
      end
  end.

(** [[random.randint(2, 10) for _ in range(n)]] *)
Fixpoint draw_spacings (n : nat) : M (list Z) :=
  match n with
  | O => ret []
  | S n' => s <- randint 2 10 ;; ss <- draw_spacings n' ;; ret (s :: ss)
  end.

(** The scale factor: the height-driven candidate, shrunk to fit the field
    width, then clamped. *)
Definition scale_factor (field_width field_height max_h original_total_width : Z)
    (u : float) : outcome float :=
  target_height_px <~ F64.int_mul (field_height - 6) u ;;
  scale <~ F64.div_int target_height_px max_h ;;
  expected_width <~ F64.int_mul original_total_width scale ;;
  scale <~ (if F64.gt_int expected_width (field_width - 10)
            then F64.int_truediv (field_width - 10) original_total_width
            else Ret scale) ;;
  Ret (F64.min 2.5 scale).

(** The scaling loop: masks whose scaled width or height is 0 are skipped. *)
Fixpoint scale_masks (E : env) (scale : float) (masks : list image)
  : outcome (list (image * Z * Z)) :=
  match masks with
  | [] => Ret []
  | mask :: rest =>
      fw <~ F64.int_mul (width mask) scale ;;
      nw <~ F64.int fw ;;
      fh <~ F64.int_mul (height mask) scale ;;
      nh <~ F64.int fh ;;
      if (nw =? 0) || (nh =? 0) then scale_masks E scale rest
      else
        m <~ resize E mask nw nh ;;
        ms <~ scale_masks E scale rest ;;
        Ret ((m, nw, nh) :: ms)
  end.

Fixpoint scale_spacings (scale : float) (spacings : list Z) : outcome (list Z) :=
  match spacings with
  | [] => Ret []
  | s :: rest =>
      f <~ F64.int_mul s scale ;;
      n <~ F64.int f ;;
      ns <~ scale_spacings scale rest ;;
      Ret (n :: ns)
  end.

(** The horizontal extent the layout occupies:
    [total_w_scaled] of the source. *)
Definition total_w_scaled (scaled_char_data : list (image * Z * Z))
    (scaled_spacings : list Z) : Z :=
  Py.sum (map (fun d => snd (fst d)) scaled_char_data) + Py.sum scaled_spacings.

(** The background: decoded afresh, tinted with probability 0.85. *)
Definition load_background (E : env) (background_path : string)
    (alpha_lo alpha_hi : float) : M canvas :=
  match open_rgb E background_path with
  | None => raise OSError
  | Some (w, h) =>
      let base_canvas := mkCanvas background_path w h [] in
      r <- Py.random ;;
      if (r <? 0.85)%float then
        r_tint <- randint 210 255 ;;
        g_tint <- randint 210 255 ;;
        b_tint <- randint 210 255 ;;
        let g_tint := if (r_tint =? 255) && (g_tint =? 255) && (b_tint =? 255)
                      then 240 else g_tint in
        alpha_blend <- F64.uniform alpha_lo alpha_hi ;;
        ret (apply (Blend (r_tint, g_tint, b_tint) alpha_blend) base_canvas)
      else ret base_canvas
  end.

(** The stroke colour: black or blue. *)
Definition ink_color : M color :=
  color_choice <- choice [true; false] ;;
  if color_choice : bool then
    shade <- randint 20 80 ;; ret (shade, shade, shade)
  else
    r <- randint 10 50 ;; g <- randint 20 60 ;; b <- randint 90 180 ;;
    ret (r, g, b).

(** The paste loop: glyph [i] goes at [curr_x], vertically centred, and is
    followed by the scaled spacing [i] when there is one.  Yields the
    canvas, [curr_x], [real_min_y] and [real_max_y].  The loop has no
    handler: a paste that Pillow refuses ends the generation, which
    [generate_synthetic_image] checks on the pastes laid out here. *)
Fixpoint paste_all (field_center_y global_y_jitter : Z) (text_color : color)
    (scaled_char_data : list (image * Z * Z)) (scaled_spacings : list Z)
    (cv : canvas) (curr_x real_min_y real_max_y : Z) : canvas * Z * Z * Z :=
  match scaled_char_data with
  | [] => (cv, curr_x, real_min_y, real_max_y)
  | (mask, w, h) :: rest =>
      let y_to_paste := field_center_y - h / 2 + global_y_jitter in
      let real_min_y := Z.min real_min_y y_to_paste in
      let real_max_y := Z.max real_max_y (y_to_paste + h) in
      let cv := apply (Paste mask curr_x y_to_paste text_color) cv in
      let curr_x := curr_x + w in
      match scaled_spacings with
      | s :: spacings' =>
          paste_all field_center_y global_y_jitter text_color rest spacings'
                    cv (curr_x + s) real_min_y real_max_y
      | [] =>
          paste_all field_center_y global_y_jitter text_color rest []
                    cv curr_x real_min_y real_max_y
      end
  end.

(** Blur and brightness/contrast jitter of the cropped image. *)
Definition post_process (p_blur r_lo r_hi : float) (cropped_image : canvas) : M canvas :=
  r <- Py.random ;;
  cropped_image <-
    (if (r <? p_blur)%float
     then radius <- F64.uniform r_lo r_hi ;;
          ret (apply (GaussianBlur radius) cropped_image)
     else ret cropped_image) ;;
  r <- Py.random ;;
  if (r <? 0.3)%float then
    b <- F64.uniform 0.8 1.2 ;;
    c <- F64.uniform 0.8 1.2 ;;
    ret (apply (Contrast c) (apply (Brightness b) cropped_image))
  else ret cropped_image.

Definition no_result : option canvas * option str := (None, None).

(** [generate_synthetic_image(char_map, background_path,
    reference_field_bbox, company_name)] *)
Definition generate_synthetic_image (E : env) (cm : char_map)
    (background_path : string) (reference_field_bbox : box)
    (company_name : str) : M (option canvas * option str) :=
  let '(xmin, ymin, xmax, ymax) := reference_field_bbox in
  let label := company_name in
  let selected_char_list := map (fun c => [c]) label in
  if negb (forallb (fun c => contains c cm) selected_char_list) then ret no_result
  else
    masks <- get_masks E cm selected_char_list ;;
    match masks with
    | None => ret no_result
    | Some [] => ret no_result
    | Some (m0 :: ms) =>
        let max_h := max_of (height m0) (map height ms) in
        if max_h =? 0 then ret no_result
        else
          processed_char_masks <- lift (normalize E max_h (m0 :: ms)) ;;
          match processed_char_masks with
          | [] => ret no_result
          | _ :: _ =>
              spacings <- draw_spacings (List.length processed_char_masks - 1) ;;
              let original_total_width :=
                Py.sum (map width processed_char_masks) + Py.sum spacings in
              if original_total_width =? 0 then ret no_result
              else
                let field_width := xmax - xmin in
                let field_height := ymax - ymin in
                u <- F64.uniform 0.75 0.90 ;;
                scale <- lift (scale_factor field_width field_height max_h
                                            original_total_width u) ;;
                scaled_char_data <- lift (scale_masks E scale processed_char_masks) ;;
                match scaled_char_data with
                | [] => ret no_result
                | _ :: _ =>
                    try_except
                      (base_canvas <- load_background E background_path 0.7 0.9 ;;
                       ret (Some base_canvas))
                      (ret None) >>= fun base_canvas =>
                    match base_canvas with
                    | None => ret no_result
                    | Some base_canvas =>
                        scaled_spacings <- lift (scale_spacings scale spacings) ;;
                        let total_w := total_w_scaled scaled_char_data scaled_spacings in
                        let min_x_offset := 5 in
                        let max_x_offset := Z.max min_x_offset (field_width - total_w - 5) in
                        offset <- (if min_x_offset <? max_x_offset
                                   then randint min_x_offset max_x_offset
                                   else ret min_x_offset) ;;
                        let paste_x := xmin + offset in
                        let field_center_y := ymin + field_height / 2 in
                        global_y_jitter <- randint (-2) 2 ;;
                        text_color <- ink_color ;;
                        let '(cv, curr_x, real_min_y, real_max_y) :=
                          paste_all field_center_y global_y_jitter text_color
                                    scaled_char_data scaled_spacings
                                    base_canvas paste_x (cheight base_canvas) 0 in
                        if negb (forallb fits (ops cv)) then raise OverflowError
                        else
                        let x1 := Z.max 0 (paste_x - 5) in
                        let y1 := Z.max 0 (real_min_y - 5) in
                        let x2 := Z.min (cwidth cv) (curr_x + 5) in
                        let y2 := Z.min (cheight cv) (real_max_y + 5) in
                        cropped_image <- lift (ccrop (x1, y1, x2, y2) cv) ;;
                        cropped_image <- post_process 0.3 0.2 0.8 cropped_image ;;
                        ret (Some cropped_image, Some label)
                    end
                end
          end
    end.

End Company.

(** ** gen_handwriting_chinese_price.py: slotted mode *)

Module Price.

Local Open Scope Z_scope.

Definition DEFAULT_BBOXES : list box :=
  [ (141, 493, 182, 532); (199, 492, 235, 534); (255, 492, 291, 534);
    (308, 492, 344, 534); (366, 492, 402, 534); (424, 491, 460, 533);
    (480, 492, 516, 534); (536, 492, 572, 534); (591, 490, 627, 532) ].

(** The unit characters, by code point:
    U+5104 U+4EDF U+4F70 U+62FE U+842C U+4EDF U+4F70 U+62FE U+5143. *)
Definition STATIC_UNITS : list str :=
  [ [0x5104]; [0x4EDF]; [0x4F70]; [0x62FE]; [0x842C];
    [0x4EDF]; [0x4F70]; [0x62FE]; [0x5143] ].

(** The capital digits zero to nine, by code point:
    U+96F6 U+58F9 U+8CB3 U+53C3 U+8086 U+4F0D U+9678 U+67D2 U+634C U+7396. *)
Definition TARGET_CHAR_SET : list str :=
  [ [0x96F6]; [0x58F9]; [0x8CB3]; [0x53C3]; [0x8086];
    [0x4F0D]; [0x9678]; [0x67D2]; [0x634C]; [0x7396] ].

(** The blank marker [" "]. *)
Definition blank : str := [32].

(** The fixed threshold of [_paste_single_char]. *)
Definition binarize (img_gray : image) : image :=
  point (fun p => if p <? 200 then 255 else 0) img_gray.

(** Step 2 of [_paste_single_char]: the mask is dilated with probability
    0.2. *)
Definition dilate (E : env) (mask : image) : M image :=
  r <- Py.random ;;
  ret (if (r <? 0.2)%float then max_filter E mask else mask).

(** Steps 2 to 4 of [_paste_single_char]: optional dilation, crop, rotation
    and a second crop; [None] where the source returns [False]. *)
Definition crop_and_rotate (E : env) (mask : image) : M (option image) :=
  mask <- dilate E mask ;;
  match getbbox mask with
  | None => ret None
  | Some digit_bbox =>
      let mask_cropped := crop mask digit_bbox in
      angle <- randint (-6) 6 ;;
      let mask_cropped := rotate E angle mask_cropped in
      match getbbox mask_cropped with
      | None => ret None
      | Some digit_bbox => ret (Some (crop mask_cropped digit_bbox))
      end
  end.

(** Step 5: the scale that brings the glyph to the drawn share of the slot
    height. *)
Definition base_scale (field_height : Z) (mask_cropped : image) (u : float)
  : outcome float :=
  target_height_base <~ F64.int_mul field_height u ;;
  F64.div_int target_height_base (height mask_cropped).

(** Step 5, continued: the size the glyph is resized to, capped at 1.2
    times the slot width. *)
Definition scaled_size (field_width : Z) (mask_cropped : image)
    (scale_factor u : float) : outcome (Z * Z) :=
  let char_specific_scale := (scale_factor * u)%float in
  fw <~ F64.int_mul (width mask_cropped) char_specific_scale ;;
  new_width <~ F64.int fw ;;
  fh <~ F64.int_mul (height mask_cropped) char_specific_scale ;;
  new_height <~ F64.int fh ;;
  limit <~ F64.int_mul field_width 1.2 ;;
  if F64.int_gt new_width limit then
    scale_factor <~ F64.div_int limit (width mask_cropped) ;;
    fw <~ F64.int_mul (width mask_cropped) scale_factor ;;
    new_width <~ F64.int fw ;;
    fh <~ F64.int_mul (height mask_cropped) scale_factor ;;
    new_height <~ F64.int fh ;;
    Ret (new_width, new_height)
  else Ret (new_width, new_height).

(** The body of the [try] block once [img_path] is bound. *)
Definition paste_from (E : env) (cv : canvas) (img_path : string)
    (bbox : box) (text_color : color) : M (bool * canvas) :=
  let '(x0, y0, x1, y1) := bbox in
  match open_gray E img_path with
  | None => raise OSError
  | Some img_gray =>
      mask_cropped <- crop_and_rotate E (binarize img_gray) ;;
      match mask_cropped with
      | None => ret (false, cv)
      | Some mask_cropped =>
          let field_width := x1 - x0 in
          let field_height := y1 - y0 in
          u1 <- F64.uniform 0.7 0.95 ;;
          scale_factor <- lift (base_scale field_height mask_cropped u1) ;;
          u2 <- F64.uniform 0.9 1.1 ;;
          '(new_width, new_height) <-
             lift (scaled_size field_width mask_cropped scale_factor u2) ;;
          if (new_width =? 0) || (new_height =? 0) then ret (false, cv)
          else
            scaled_mask <- lift (resize E mask_cropped new_width new_height) ;;
            let x_center_offset := (field_width - new_width) / 2 in
            let y_center_offset := (field_height - new_height) / 2 in
            x_jitter <- randint (- field_width / 8) (field_width / 8) ;;
            y_jitter <- randint (- field_height / 8) (field_height / 8) ;;
            let paste_x := x0 + x_center_offset + x_jitter in
            let paste_y := y0 + y_center_offset + y_jitter in
            cv <- lift (paste scaled_mask paste_x paste_y text_color cv) ;;
            ret (true, cv)
      end
  end.

(** [_paste_single_char(canvas, char_map, char_to_draw, bbox, text_color)].
    The whole body is one [try] block whose handler prints [img_path] and
    returns [False]; the only exception that can precede the binding of
    [img_path] is the [KeyError] of the subscript, and the handler then
    raises [UnboundLocalError] itself. *)
Definition _paste_single_char (E : env) (cv : canvas) (cm : char_map)
    (char_to_draw : str) (bbox : box) (text_color : color) : M (bool * canvas) :=
  match getitem char_to_draw cm with
  | Raise _ => raise UnboundLocalError
  | Ret [] => ret (false, cv)
  | Ret (p :: ps) =>
      img_path <- choice (p :: ps) ;;
      try_except (paste_from E cv img_path bbox text_color) (ret (false, cv))
  end.

(** [itertools.accumulate(weights)] *)
Fixpoint accumulate (acc : Z) (weights : list Z) : list Z :=
  match weights with
  | [] => []
  | w :: ws => (acc + w) :: accumulate (acc + w) ws
  end.

(** [bisect.bisect(a, x, lo, hi)] for a float [x] in a list of ints. *)
Fixpoint bisect (fuel : nat) (a : list Z) (x : float) (lo hi : Z) : Z :=
  match fuel with
  | O => lo
  | S fuel' =>
      if lo <? hi then
        let mid := (lo + hi) / 2 in
        if F64.int_gt (nth (Z.to_nat mid) a 0) x
        then bisect fuel' a x lo mid
        else bisect fuel' a x (mid + 1) hi
      else lo
  end.

(** [random.choices(population, weights=weights, k=1)[0]]: [ValueError]
    when the two lengths differ. *)
Definition choices1 {A} (population : list A) (weights : list Z) : M A :=
  let n := Z.of_nat (List.length population) in
  let cum_weights := accumulate 0 weights in
  if negb (Z.of_nat (List.length cum_weights) =? n) then raise ValueError
  else
    match rev cum_weights with
    | [] => raise IndexError
    | last_cum :: _ =>
        total <- lift (f <~ F64.of_int last_cum ;; Ret (f + 0)%float) ;;
        if (total <=? 0)%float then raise ValueError
        else
          r <- Py.random ;;
          let i := bisect (List.length cum_weights) cum_weights (r * total)%float
                          0 (n - 1) in
          match nth_error population (Z.to_nat i) with
          | Some a => ret a
          | None => raise IndexError
          end
    end.

Definition weights : list Z := [1; 1; 1; 1; 2; 3; 4; 5; 5].

(** [static_units[i]] *)
Definition unit_at (static_units : list str) (i : Z) : outcome str :=
  match nth_error static_units (Z.to_nat i) with
  | Some u => Ret u
  | None => Raise IndexError
  end.

(** The loop over the slots, from slot [i] on: blanks before
    [start_index], a digit from it on.  The result of
    [_paste_single_char] is not looked at. *)
Fixpoint fill_slots (E : env) (cm : char_map) (text_color : color)
    (n start_index : Z) (static_units : list str) (i : Z) (bboxes : list box)
    (cv : canvas) (label_chars : list str) (line_bboxes : list box)
  : M (canvas * list str * list box) :=
  match bboxes with
  | [] => ret (cv, label_chars, line_bboxes)
  | bbox :: rest =>
      unit_char <- lift (unit_at static_units i) ;;
      if i <? start_index then
        fill_slots E cm text_color n start_index static_units (i + 1) rest cv
                   (label_chars ++ [blank ++ unit_char]) (line_bboxes ++ [bbox])
      else
        let current_char_set :=
          if (i =? start_index) && negb (i =? n - 1)
          then tl TARGET_CHAR_SET else TARGET_CHAR_SET in
        char_to_draw <- choice current_char_set ;;
        '(_, cv) <- _paste_single_char E cv cm char_to_draw bbox text_color ;;
        fill_slots E cm text_color n start_index static_units (i + 1) rest cv
                   (label_chars ++ [char_to_draw ++ unit_char]) line_bboxes
  end.

(** The [while x < x_end] loop of the strikethrough. *)
Equations? wavy (x_end base_y x : Z) (points : list (Z * Z)) (g : rng)
  : list (Z * Z) * rng by wf (Z.to_nat (x_end - x)) lt :=
  wavy x_end base_y x points g with Z_lt_dec x x_end := {
    | left _ =>
        wavy x_end base_y (Z.min (x + randint_value 30 70 g) x_end)
             (points ++ [(Z.min (x + randint_value 30 70 g) x_end,
                          base_y + randint_value (-4) 4 (rng_tail g))])
             (rng_tail (rng_tail g));
    | right _ => (points, g) }.
Proof.
  unfold randint_value.
  pose proof (Z.mod_pos_bound (rng_head g) (70 - 30 + 1) ltac:(lia)).
  lia.
Qed.

(** [points[-1] = p] on a non-empty list. *)
Definition set_last {A} (l : list A) (p : A) : list A := removelast l ++ [p].

(** The points of the strikethrough over the blank slots [ref_bbox ::
    others]. *)
Definition strike_points (ref_bbox : box) (others : list box)
  : M (list (Z * Z)) :=
  let '(rx0, ry0, rx1, ry1) := ref_bbox in
  let field_height := ry1 - ry0 in
  let y_center := (ry0 + ry1) / 2 in
  inset <- randint 3 10 ;;
  let x_start :=
    min_of rx0 (map (fun b : box => fst (fst (fst b))) others) + inset in
  inset <- randint 3 10 ;;
  let x_end :=
    max_of rx1 (map (fun b : box => snd (fst b)) others) - inset in
  jitter <- randint (- field_height / 4) (field_height / 4) ;;
  let base_y := y_center + jitter in
  points <- (fun g => let '(pts, g') := wavy x_end base_y x_start
                                             [(x_start, base_y)] g in
                      (Ret pts, g')) ;;
  last_jitter <- randint (-2) 2 ;;
  ret (set_last points (x_end, base_y + last_jitter)).

(** The strikethrough: drawn with probability 0.5 when there are blank
    slots; an exception while drawing is printed and dropped. *)
Definition strikethrough (line_bboxes : list box) (line_color : color)
    (line_width : Z) (cv : canvas) : M canvas :=
  match line_bboxes with
  | [] => ret cv
  | ref_bbox :: others =>
      r <- Py.random ;;
      if (r <? 0.5)%float then
        try_except
          (points <- strike_points ref_bbox others ;;
           ret (apply (Line points line_color line_width) cv))
          (ret cv)
      else ret cv
  end.

Definition no_result : option canvas * option str := (None, None).

(** [generate_capital_number_image(char_map, background_path,
    target_bboxes, static_units)] *)
Definition generate_capital_number_image (E : env) (cm : char_map)
    (background_path : string) (target_bboxes : list box)
    (static_units : list str) : M (option canvas * option str) :=
  try_except
    (cv <- Company.load_background E background_path 0.1 0.3 ;; ret (Some cv))
    (ret None) >>= fun loaded =>
  match loaded with
  | None => ret no_result
  | Some cv =>
      text_color <- Company.ink_color ;;
      let line_color := text_color in
      line_width <- randint 2 4 ;;
      let n := Z.of_nat (List.length target_bboxes) in
      let indices := range n in
      start_index <- choices1 indices weights ;;
      '(cv, label_chars, line_bboxes) <-
         fill_slots E cm text_color n start_index static_units 0 target_bboxes
                    cv [] [] ;;
      cv <- strikethrough line_bboxes line_color line_width cv ;;
      let final_label := List.concat label_chars in
      match target_bboxes with
      | [] => raise ValueError
      | (bx0, by0, bx1, by1) :: others =>
          let min_x := min_of bx0 (map (fun b : box => fst (fst (fst b))) others) in
          let min_y := min_of by0 (map (fun b : box => snd (fst (fst b))) others) in
          let max_y := max_of by1 (map (fun b : box => snd b) others) in
          let max_x_override := 650 in
          let padding := 5 in
          let '(cx0, cy0, cx1, cy1) :=
            (Z.max 0 (min_x - padding), Z.max 0 (min_y - padding),
             Z.min (cwidth cv) max_x_override,
             Z.min (cheight cv) (max_y + padding)) in
          if (cx1 <=? cx0) || (cy1 <=? cy0) then ret no_result
          else
            cropped_image <- lift (ccrop (cx0, cy0, cx1, cy1) cv) ;;
            cropped_image <- Company.post_process 0.4 0.3 1.0 cropped_image ;;
            ret (Some cropped_image, Some final_label)
      end
  end.

End Price.

(** ** What the specification says, in its own words *)

Module Spec.



(** "The polyline's first point's x is the run's left edge plus an inset
    of 3 to 10 px, its last point's x is the run's right edge minus an
    inset of 3 to 10 px, and the point x-coordinates are monotonically
    non-decreasing." *)
Definition strike_as_claimed (left_edge right_edge : Z)
    (points : list (Z * Z)) : Prop :=
  exists inset_l inset_r,
    3 <= inset_l <= 10 /\ 3 <= inset_r <= 10 /\
    option_map fst (hd_error points) = Some (left_edge + inset_l) /\
    fst (last points (0, 0)) = right_edge - inset_r /\
    StronglySorted Z.le (map fst points).

End Spec.

(** ** Concrete samples, environments and random streams *)

Module Examples.

Local Open Scope string_scope.
Local Open Scope Z_scope.

(** A light 6x5 sample with a dark 3x2 stroke. *)
Definition sample_light : image :=
  mkImage 6 5 (fun x y => if (1 <=? x) && (x <=? 3) && (2 <=? y) && (y <=? 3)
                          then 0 else 255).


(** A sample that is white throughout. *)
Definition sample_blank : image := mkImage 4 4 (fun _ _ => 255).

Definition blank_image : image := mkImage 3 3 (fun _ _ => 0).

Definition files (p : string) : option image :=
  if String.eqb p "one.png" then Some sample_light
  else if String.eqb p "blank.png" then Some sample_blank
  else None.

Definition backgrounds (p : string) : option (Z * Z) :=
  if String.eqb p "invoice.png" then Some (800, 600) else None.

(** Rotation and dilation leave the mask as it is; resampling fills with
    ink. *)
Definition E_id : env :=
  mkEnv files backgrounds (fun _ im => im) (fun _ _ _ _ _ => 255) (fun im => im).

(** Rotation loses every foreground pixel. *)
Definition E_blank : env :=
  mkEnv files backgrounds (fun _ _ => blank_image) (fun _ _ _ _ _ => 255)
        (fun im => im).


(** U+4E00, the character "one". *)
Definition one : str := [0x4E00].

(** An index with samples of "one" only, built as the drivers build it. *)
Definition index_one : char_map := mkCharMap [(one, ["one.png"])] true.

(** An index whose only sample of "one" is a blank sheet. *)
Definition index_blank : char_map := mkCharMap [(one, ["blank.png"])] true.

Definition g_zero : rng := fun _ => 0.
Definition g_seven : rng := fun _ => 7.
Definition g_mixed : rng := fun n => Z.of_nat n * 7919 + 3.

(** Draws whose [random()] values lie just above one half. *)
Definition g_late : rng := fun n => Z.of_nat n * 7919 + 2 ^ 52.

End Examples.

(** ** The real values of binary64 floats *)

Module Binary64.

Local Open Scope R_scope.

(** Powers of two with an integer exponent. *)
Definition p2 (e : Z) : R := powerRZ 2 e.

(** A real [x] between the integers [m] and [m + 1], located as the
    rounding bits say. *)
Definition inbetween (x : R) (m : Z) (l : location) : Prop :=
  match l with
  | loc_Exact => x = IZR m
  | loc_Inexact Lt => IZR m < x < IZR m + / 2
  | loc_Inexact Eq => x = IZR m + / 2
  | loc_Inexact Gt => IZR m + / 2 < x < IZR m + 1
  end.

Definition fexp64 (k : Z) : Z := Z.max (k - 53) (-1074).

(** The real value of a finite binary float. *)
Definition SF2R (f : spec_float) : R :=
  match f with
  | S754_finite s m e => (if s then -1 else 1) * IZR (Z.pos m) * p2 e
  | _ => 0
  end.

Definition SFfinite (f : spec_float) : Prop :=
  match f with
  | S754_zero _ | S754_finite _ _ _ => True
  | _ => False
  end.

Definition sign (s : bool) : R := if s then -1 else 1.

(** [z] is [X] rounded to nearest in binary64: a multiple [m1 * 2^e1] at
    most half a unit away, [e1] being the exponent of the binade of [X]
    (or the least exponent, for the subnormal numbers). *)
Definition rounds_to (X z : R) : Prop :=
  exists e1 m1 : Z,
    z = IZR m1 * p2 e1 /\
    Rabs (IZR m1 - X / p2 e1) <= / 2 /\
    (-1074 <= e1)%Z /\
    Rabs X < p2 (e1 + 53) /\
    (e1 = (-1074)%Z \/ p2 (e1 + 52) <= Rabs X).

(** The value of a primitive float, and its being finite. *)
Definition B2R (f : float) : R := SF2R (Prim2SF f).
Definition finite (f : float) : Prop := SFfinite (Prim2SF f).

End Binary64.

(** ** Assertions on computations *)

Module Hoare.

(** [returns m P]: every value [m] returns satisfies [P]; nothing is said
    of the runs that raise. *)
Definition returns {A} (m : M A) (P : A -> Prop) : Prop :=
  forall g a, fst (m g) = Ret a -> P a.

(** [never_raises m]: every run of [m] returns a value. *)
Definition never_raises {A} (m : M A) : Prop :=
  forall g, exists a, fst (m g) = Ret a.

End Hoare.

(** ** Shapes of results *)

Module Shapes.

(** A canvas that is [cv] or [cv] with one more glyph, of at least one
    pixel each way, pasted at the centre offset of the slot plus jitters
    within [(- side) / 8 .. side / 8]. *)
Definition paste_effect (cv : canvas) (bbox : box) (text_color : color)
    (r : bool * canvas) : Prop :=
  let '(x0, y0, x1, y1) := bbox in
  if fst r then
    exists glyph jx jy,
      snd r = apply (Paste glyph (x0 + (x1 - x0 - width glyph) / 2 + jx)
                           (y0 + (y1 - y0 - height glyph) / 2 + jy)
                           text_color) cv /\
      1 <= width glyph /\ 1 <= height glyph /\
      - (x1 - x0) / 8 <= jx <= (x1 - x0) / 8 /\
      - (y1 - y0) / 8 <= jy <= (y1 - y0) / 8
  else snd r = cv.

(** [cv'] is [cv] with more drawn on it, of which at most [n] glyphs. *)
Definition drawn_on (n : nat) (cv cv' : canvas) : Prop :=
  source cv' = source cv /\ cwidth cv' = cwidth cv /\
  cheight cv' = cheight cv /\
  exists more, pasted cv' = pasted cv ++ more /\ (List.length more <= n)%nat.


(** The widths recorded with the scaled glyphs:
    [w for _, w, _ in scaled_char_data]. *)
Definition widths (data : list (image * Z * Z)) : list Z :=
  map (fun d => snd (fst d)) data.

(** An inked glyph mask of the given size. *)
Definition glyph (w h : Z) : image := mkImage w h (fun _ _ => 255).

End Shapes.

(** * Facts about the embedding *)

(** ** Bounding boxes and crops *)

Module PILFacts.

Lemma range_In (n x : Z) : In x (range n) <-> 0 <= x < n.
Proof.
  unfold range. rewrite in_map_iff. split.
  - intros (k & <- & Hk). apply in_seq in Hk. lia.
  - intros H. exists (Z.to_nat x). split; [lia|]. apply in_seq. lia.
Qed.

Lemma seq_sorted (len s : nat) : StronglySorted Z.lt (map Z.of_nat (seq s len)).
Proof.
  revert s. induction len as [|len IH]; intros s; simpl; constructor.
  - apply IH.
  - apply Forall_forall. intros x Hx. apply in_map_iff in Hx.
    destruct Hx as (k & <- & Hk). apply in_seq in Hk. lia.
Qed.

Lemma filter_sorted (f : Z -> bool) (l : list Z) :
  StronglySorted Z.lt l -> StronglySorted Z.lt (filter f l).
Proof.
  induction 1 as [|a l Hs IH Hall]; simpl; [constructor|].
  destruct (f a); [constructor|]; auto.
  apply Forall_forall. intros x Hx. apply filter_In in Hx.
  rewrite Forall_forall in Hall. apply Hall, Hx.
Qed.

Lemma last_cons (xs : list Z) (x d : Z) : last (x :: xs) d = last xs x.
Proof.
  revert x d. induction xs as [|x2 xs IH]; intros x d; [reflexivity|].
  change (last (x :: x2 :: xs) d) with (last (x2 :: xs) d).
  rewrite (IH x2 d), (IH x2 x). reflexivity.
Qed.

Lemma sorted_bounds (x0 : Z) (xs : list Z) :
  StronglySorted Z.lt (x0 :: xs) ->
  forall e, In e (x0 :: xs) -> x0 <= e <= last xs x0.
Proof.
  revert x0. induction xs as [|x1 xs IH]; intros x0 Hs e He.
  - destruct He as [<-|[]]. simpl. lia.
  - inversion Hs as [|? ? Htail Hall]; subst.
    assert (Hx1 : x0 < x1) by (inversion Hall; assumption).
    rewrite last_cons. destruct He as [<-|He].
    + specialize (IH x1 Htail x1 (or_introl eq_refl)). lia.
    + specialize (IH x1 Htail e He). lia.
Qed.

Lemma col_nonzero_true (im : image) (x : Z) :
  col_nonzero im x = true <-> exists y, 0 <= y < height im /\ px im x y <> 0.
Proof.
  unfold col_nonzero. rewrite existsb_exists. split.
  - intros (y & Hy & Hp). exists y. rewrite range_In in Hy. split; [exact Hy|].
    apply negb_true_iff, Z.eqb_neq in Hp. exact Hp.
  - intros (y & Hy & Hp). exists y. rewrite range_In. split; [exact Hy|].
    apply negb_true_iff, Z.eqb_neq. exact Hp.
Qed.

Lemma row_nonzero_true (im : image) (y : Z) :
  row_nonzero im y = true <-> exists x, 0 <= x < width im /\ px im x y <> 0.
Proof.
  unfold row_nonzero. rewrite existsb_exists. split.
  - intros (x & Hx & Hp). exists x. rewrite range_In in Hx. split; [exact Hx|].
    apply negb_true_iff, Z.eqb_neq in Hp. exact Hp.
  - intros (x & Hx & Hp). exists x. rewrite range_In. split; [exact Hx|].
    apply negb_true_iff, Z.eqb_neq. exact Hp.
Qed.

(** Without foreground there is no bounding box, and conversely. *)
Lemma getbbox_None (im : image) : getbbox im = None <-> ~ has_foreground im.
Proof.
  unfold getbbox, has_foreground. split.
  - intros H (x & y & Hx & Hy & Hp).
    assert (Hc : In x (filter (col_nonzero im) (range (width im)))).
    { apply filter_In. split; [apply range_In; exact Hx|].
      apply col_nonzero_true. eauto. }
    assert (Hr : In y (filter (row_nonzero im) (range (height im)))).
    { apply filter_In. split; [apply range_In; exact Hy|].
      apply row_nonzero_true. eauto. }
    destruct (filter (col_nonzero im) (range (width im))); [destruct Hc|].
    destruct (filter (row_nonzero im) (range (height im))); [destruct Hr|].
    discriminate.
  - intros H.
    destruct (filter (col_nonzero im) (range (width im))) as [|x0 xs] eqn:Ec;
      [reflexivity|].
    exfalso. apply H.
    assert (Hin : In x0 (filter (col_nonzero im) (range (width im))))
      by (rewrite Ec; left; reflexivity).
    apply filter_In in Hin. destruct Hin as [Hx Hcol].
    apply range_In in Hx. apply col_nonzero_true in Hcol.
    destruct Hcol as (y & Hy & Hp). exists x0, y. auto.
Qed.

(** The crop to the bounding box keeps a foreground pixel. *)
Lemma getbbox_crop_foreground (im : image) (b : box) :
  getbbox im = Some b -> has_foreground (crop im b).
Proof.
  unfold getbbox.
  destruct (filter (col_nonzero im) (range (width im))) as [|x0 xs] eqn:Ec;
    [discriminate|].
  destruct (filter (row_nonzero im) (range (height im))) as [|y0 ys] eqn:Er;
    [discriminate|].
  intros [= <-].
  assert (Hin : In x0 (filter (col_nonzero im) (range (width im))))
    by (rewrite Ec; left; reflexivity).
  apply filter_In in Hin. destruct Hin as [Hx Hcol].
  apply range_In in Hx. apply col_nonzero_true in Hcol.
  destruct Hcol as (y & Hy & Hp).
  assert (Hyin : In y (y0 :: ys)).
  { rewrite <- Er. apply filter_In. split; [apply range_In; exact Hy|].
    apply row_nonzero_true. eauto. }
  assert (Hsx : StronglySorted Z.lt (x0 :: xs))
    by (rewrite <- Ec; apply filter_sorted, seq_sorted).
  assert (Hsy : StronglySorted Z.lt (y0 :: ys))
    by (rewrite <- Er; apply filter_sorted, seq_sorted).
  pose proof (sorted_bounds x0 xs Hsx x0 (or_introl eq_refl)) as Bx.
  pose proof (sorted_bounds y0 ys Hsy y Hyin) as By.
  exists 0, (y - y0). simpl. repeat split; try lia.
  replace (0 + x0) with x0 by lia. replace (y - y0 + y0) with y by lia.
  exact Hp.
Qed.

End PILFacts.

(** ** Mask extraction *)

Module ExtractionFacts.

Import PILFacts.

Lemma randint_ok (a b : Z) (g : rng) :
  a <= b -> randint a b g = (Ret (randint_value a b g), rng_tail g).
Proof.
  intros H. unfold randint. destruct (b <? a) eqn:E; [lia|reflexivity].
Qed.

Lemma randint_value_bounds (a b : Z) (g : rng) :
  a <= b -> a <= randint_value a b g <= b.
Proof.
  intros H. unfold randint_value.
  pose proof (Z.mod_pos_bound (rng_head g) (b - a + 1) ltac:(lia)). lia.
Qed.

Lemma choice_In {A} (l : list A) (g : rng) (a : A) (g' : rng) :
  choice l g = (Ret a, g') -> In a l /\ g' = rng_tail g.
Proof.
  unfold choice.
  destruct (nth_error l _) as [x|] eqn:E; intros [= <- <-].
  split; [eapply nth_error_In; exact E|reflexivity].
Qed.

Lemma company_binarize_size (img : image) :
  width (Company.binarize img) = width img /\
  height (Company.binarize img) = height img.
Proof.
  unfold Company.binarize.
  destruct (128 <? _); simpl; auto.
Qed.

Lemma company_crop_and_rotate_some (E : env) (mask m : image) (g g' : rng) :
  Company.crop_and_rotate E mask g = (Ret (Some m), g') -> has_foreground m.
Proof.
  unfold Company.crop_and_rotate.
  destruct (getbbox mask) as [bbox|] eqn:Hb; [|discriminate].
  unfold bind. rewrite randint_ok by lia.
  destruct (getbbox (rotate E _ (crop mask bbox))) as [b2|] eqn:Hr;
    unfold ret; intros [= <- <-].
  - apply getbbox_crop_foreground. exact Hr.
  - apply getbbox_crop_foreground. exact Hb.
Qed.

Lemma company_crop_and_rotate_none (E : env) (mask : image) (g : rng) :
  ~ has_foreground mask -> Company.crop_and_rotate E mask g = (Ret None, g).
Proof.
  intros H. apply getbbox_None in H.
  unfold Company.crop_and_rotate. rewrite H. reflexivity.
Qed.






(** C6: a mask returned by the flowing extractor has a foreground pixel,
    and a sample whose thresholding leaves no foreground yields no mask. *)
Theorem get_char_mask_never_empty (E : env) (c : str) (cm : char_map) (g : rng) :
  (forall m g', Company._get_char_mask E c cm g = (Ret (Some m), g') ->
                has_foreground m) /\
  (forall paths img_path g1 img_gray,
      lookup c cm = Some paths ->
      choice paths g = (Ret img_path, g1) ->
      open_gray E img_path = Some img_gray ->
      ~ has_foreground (Company.binarize img_gray) ->
      Company._get_char_mask E c cm g = (Ret None, g1)).
Proof.
  unfold Company._get_char_mask, contains, getitem. split.
  - intros m g'. destruct (lookup c cm) as [paths|]; simpl; [|discriminate].
    unfold bind, lift, try_except.
    destruct (choice paths g) as [[img_path|e] g1]; [|discriminate].
    destruct (open_gray E img_path) as [img_gray|]; [|discriminate].
    destruct (Company.crop_and_rotate E (Company.binarize img_gray) g1)
      as [[[m'|]|e] g2] eqn:Hc; try discriminate.
    intros [= <- <-]. eapply company_crop_and_rotate_some. exact Hc.
  - intros paths img_path g1 img_gray Hl Hch Ho Hbg.
    rewrite Hl. simpl. unfold bind, lift, try_except.
    rewrite Hch, Ho. rewrite company_crop_and_rotate_none by exact Hbg.
    reflexivity.
Qed.

Lemma get_char_mask_never_empty_witness :
  has_foreground
    (crop (crop (Company.binarize Examples.sample_light) (1, 2, 4, 4))
          (0, 0, 3, 2)) /\
  Company._get_char_mask Examples.E_id Examples.one Examples.index_blank
    Examples.g_zero = (Ret None, rng_tail Examples.g_zero).
Proof.
  split.
  - apply (proj1 (get_char_mask_never_empty Examples.E_id Examples.one
                    Examples.index_one Examples.g_zero)
             _ (rng_tail (rng_tail Examples.g_zero))).
    reflexivity.
  - apply (proj2 (get_char_mask_never_empty Examples.E_id Examples.one
                    Examples.index_blank Examples.g_zero)
             ["blank.png"%string] "blank.png"%string _ Examples.sample_blank).
    + reflexivity.
    + reflexivity.
    + reflexivity.
    + apply getbbox_None. reflexivity.
Defined.

End ExtractionFacts.

(** ** The slotted generator *)

Module SlottedFacts.

Import PILFacts ExtractionFacts.

Lemma random_ok (g : rng) : exists r, Py.random g = (Ret r, rng_tail g).
Proof. eexists. reflexivity. Qed.

Lemma uniform_ok (a b : float) (g : rng) :
  exists u, F64.uniform a b g = (Ret u, rng_tail g).
Proof. eexists. reflexivity. Qed.

Lemma load_background_ok (E : env) (p : string) (lo hi : float) (g : rng) (w h : Z) :
  open_rgb E p = Some (w, h) ->
  exists cv g', Company.load_background E p lo hi g = (Ret cv, g') /\
                cwidth cv = w /\ cheight cv = h /\ pasted cv = [].
Proof.
  intros H. unfold Company.load_background. rewrite H.
  unfold bind, Py.random. destruct (_ <? _)%float.
  - rewrite !randint_ok by lia. unfold F64.uniform, bind, Py.random, ret.
    eexists _, _. split; [reflexivity|]. simpl. auto.
  - eexists _, _. split; [reflexivity|]. simpl. auto.
Qed.

Lemma load_background_fail (E : env) (p : string) (lo hi : float) (g : rng) :
  open_rgb E p = None ->
  Company.load_background E p lo hi g = (Raise OSError, g).
Proof. intros H. unfold Company.load_background. rewrite H. reflexivity. Qed.

Lemma choice_ok {A} (l : list A) (g : rng) :
  l <> [] -> exists a, choice l g = (Ret a, rng_tail g) /\ In a l.
Proof.
  intros H. unfold choice.
  assert (Hlen : (0 < List.length l)%nat) by (destruct l; [congruence|simpl; lia]).
  pose proof (Z.mod_pos_bound (rng_head g) (Z.of_nat (List.length l)) ltac:(lia)) as Hm.
  destruct (nth_error l _) as [a|] eqn:E.
  - exists a. split; [reflexivity|]. eapply nth_error_In; exact E.
  - apply nth_error_None in E. lia.
Qed.

Lemma ink_color_ok (g : rng) : exists c g', Company.ink_color g = (Ret c, g').
Proof.
  unfold Company.ink_color, bind.
  destruct (choice_ok [true; false] g ltac:(discriminate)) as (b & -> & _).
  destruct b; rewrite !randint_ok by lia; eexists _, _; reflexivity.
Qed.

Lemma range_length (n : Z) : List.length (range n) = Z.to_nat n.
Proof. unfold range. rewrite length_map, length_seq. reflexivity. Qed.

(** The weighted choice needs as many items as weights. *)
Lemma choices1_wrong_length (n : nat) (g : rng) :
  n <> 9%nat ->
  Price.choices1 (range (Z.of_nat n)) Price.weights g = (Raise ValueError, g).
Proof.
  intros H. unfold Price.choices1. rewrite range_length.
  change (Z.of_nat (List.length (Price.accumulate 0 Price.weights))) with 9.
  destruct (9 =? Z.of_nat (Z.to_nat (Z.of_nat n))) eqn:E; [|reflexivity].
  apply Z.eqb_eq in E. lia.
Qed.

Lemma choices1_In {A} (population : list A) (ws : list Z) (g g' : rng) (a : A) :
  Price.choices1 population ws g = (Ret a, g') -> In a population.
Proof.
  unfold Price.choices1.
  destruct (negb _); [discriminate|].
  destruct (rev _); [discriminate|].
  unfold bind, lift.
  destruct (obind _ _) as [total|]; [|discriminate].
  destruct (_ <=? _)%float; [discriminate|].
  unfold Py.random.
  destruct (nth_error population _) as [x|] eqn:E; [|discriminate].
  intros [= <- <-]. eapply nth_error_In; exact E.
Qed.

(** C10: the weight list has nine entries, so with any other number of
    slots the weighted choice of the start index raises [ValueError], and
    so does the generator once the background is loaded. *)
Theorem nine_slots_only (E : env) (cm : char_map) (background_path : string)
    (target_bboxes : list box) (static_units : list str) (g : rng)
    (Hlen : List.length target_bboxes <> 9%nat) :
  (forall g1,
      fst (Price.choices1 (range (Z.of_nat (List.length target_bboxes)))
                          Price.weights g1) = Raise ValueError) /\
  (open_rgb E background_path <> None ->
   fst (Price.generate_capital_number_image E cm background_path target_bboxes
                                            static_units g) = Raise ValueError).
Proof.
  split.
  - intros g1. rewrite choices1_wrong_length by exact Hlen. reflexivity.
  - intros Hbg. destruct (open_rgb E background_path) as [[w h]|] eqn:Ho;
      [|congruence].
    unfold Price.generate_capital_number_image, bind, try_except.
    destruct (load_background_ok E background_path 0.1 0.3 g w h Ho)
      as (cv & g1 & -> & _).
    simpl.
    destruct (ink_color_ok g1) as (c & g2 & ->).
    rewrite choices1_wrong_length by exact Hlen. reflexivity.
Qed.

Lemma nine_slots_only_witness :
  fst (Price.choices1 (range 8) Price.weights Examples.g_zero) = Raise ValueError /\
  fst (Price.generate_capital_number_image Examples.E_id Examples.index_one
         "invoice.png" (tl Price.DEFAULT_BBOXES) Price.STATIC_UNITS
         Examples.g_mixed) = Raise ValueError.
Proof.
  pose proof (nine_slots_only Examples.E_id Examples.index_one "invoice.png"
                (tl Price.DEFAULT_BBOXES) Price.STATIC_UNITS Examples.g_mixed
                ltac:(simpl; lia)) as [H1 H2].
  split.
  - apply (H1 Examples.g_zero).
  - apply H2. discriminate.
Defined.


(** What the slot loop appends to the label: one segment per slot. *)
Definition segment_ok (n start_index : Z) (static_units : list str)
    (j : Z) (seg : str) : Prop :=
  exists d u,
    seg = d ++ u /\
    nth_error static_units (Z.to_nat j) = Some u /\
    (j < start_index -> d = Price.blank) /\
    (start_index <= j -> In d Price.TARGET_CHAR_SET) /\
    (j = start_index -> j <> n - 1 -> In d (tl Price.TARGET_CHAR_SET)).

Lemma fill_slots_label (E : env) (cm : char_map) (col : color)
    (n start_index : Z) (static_units : list str) (bboxes : list box) :
  forall i cv lc lb g cv' lc' lb' g',
    0 <= i ->
    Price.fill_slots E cm col n start_index static_units i bboxes cv lc lb g
    = (Ret (cv', lc', lb'), g') ->
    exists segs,
      lc' = lc ++ segs /\
      List.length segs = List.length bboxes /\
      forall k seg, nth_error segs k = Some seg ->
                    segment_ok n start_index static_units (i + Z.of_nat k) seg.
Proof.
  induction bboxes as [|bbox rest IH]; intros i cv lc lb g cv' lc' lb' g' Hi H.
  - simpl in H. unfold ret in H. injection H as <- <- <- <-.
    exists []. rewrite app_nil_r. repeat split.
    intros k seg Hk. destruct k; discriminate.
  - simpl in H. unfold bind at 1, lift in H.
    unfold Price.unit_at in H.
    destruct (nth_error static_units (Z.to_nat i)) as [u|] eqn:Hu; [|discriminate].
    destruct (i <? start_index) eqn:Hlt.
    + apply Z.ltb_lt in Hlt.
      apply IH in H; [|lia]. destruct H as (segs & -> & Hlen & Hseg).
      exists ((Price.blank ++ u) :: segs). rewrite <- app_assoc. simpl.
      repeat split; [congruence|].
      intros [|k] seg Hk; simpl in Hk.
      * injection Hk as <-. exists Price.blank, u.
        replace (i + Z.of_nat 0) with i by lia.
        repeat split; auto; lia.
      * replace (i + Z.of_nat (S k)) with (i + 1 + Z.of_nat k) by lia.
        apply Hseg. exact Hk.
    + apply Z.ltb_ge in Hlt.
      unfold bind at 1 in H.
      destruct (choice _ g) as [[d|e] g1] eqn:Hc; [|discriminate].
      apply choice_In in Hc. destruct Hc as [Hd _].
      unfold bind at 1 in H.
      destruct (Price._paste_single_char E cv cm d bbox col g1)
        as [[[ok cv1]|e] g2]; [|discriminate].
      apply IH in H; [|lia]. destruct H as (segs & -> & Hlen & Hseg).
      exists ((d ++ u) :: segs). rewrite <- app_assoc. simpl.
      repeat split; [congruence|].
      intros [|k] seg Hk; simpl in Hk.
      * injection Hk as <-. exists d, u.
        replace (i + Z.of_nat 0) with i by lia.
        repeat split; auto; try lia.
        -- intros _. destruct ((i =? start_index) && negb (i =? n - 1));
             [right; exact Hd|exact Hd].
        -- intros He Hn. apply Z.eqb_eq in He. apply Z.eqb_neq in Hn.
           rewrite He, Hn in Hd. exact Hd.
      * replace (i + Z.of_nat (S k)) with (i + 1 + Z.of_nat k) by lia.
        apply Hseg. exact Hk.
Qed.

(** C3: the label of a slotted image is the concatenation of one
    two-character segment per slot, in slot order.  With [start_index] the
    index that [random.choices] returns in that run (drawn after the
    background, the ink colour and the line width), the segment of slot
    [k] is the blank marker followed by the unit character exactly when
    [k] is before [start_index], a capital digit followed by the unit
    character otherwise, and the digit at [start_index] is not zero unless
    that slot is the last one. *)
Theorem slotted_label_structure (E : env) (cm : char_map)
    (background_path : string) (target_bboxes : list box)
    (static_units : list str) (g : rng) (cv : canvas) (lbl : str)
    (Hrun : fst (Price.generate_capital_number_image E cm background_path
                   target_bboxes static_units g) = Ret (Some cv, Some lbl))
    (Hunits : Forall (fun u : str => List.length u = 1%nat) static_units) :
  exists (base : canvas) (text_color : color) (line_width : Z)
         (g1 g2 g3 g4 : rng) (start_index : Z) (segs : list str),
    Company.load_background E background_path 0.1 0.3 g = (Ret base, g1) /\
    Company.ink_color g1 = (Ret text_color, g2) /\
    randint 2 4 g2 = (Ret line_width, g3) /\
    Price.choices1 (range (Z.of_nat (List.length target_bboxes)))
                   Price.weights g3 = (Ret start_index, g4) /\
    0 <= start_index < Z.of_nat (List.length target_bboxes) /\
    lbl = List.concat segs /\
    List.length segs = List.length target_bboxes /\
    forall k seg, nth_error segs k = Some seg ->
      exists d u,
        seg = [d; u] /\ nth_error static_units k = Some [u] /\
        (d = 32 <-> Z.of_nat k < start_index) /\
        (start_index <= Z.of_nat k -> In [d] Price.TARGET_CHAR_SET) /\
        (Z.of_nat k = start_index ->
         Z.of_nat k <> Z.of_nat (List.length target_bboxes) - 1 ->
         d <> 0x96F6).
Proof.
  unfold Price.generate_capital_number_image, bind, try_except in Hrun.
  destruct (Company.load_background E background_path _ _ g) as [[cv0|e] g1]
    eqn:Hbg; [|discriminate].
  unfold ret at 1 in Hrun.
  destruct (Company.ink_color g1) as [[col|e] g2] eqn:Hink; [|discriminate].
  destruct (randint 2 4 g2) as [[lw|e] g3] eqn:Hlw; [|discriminate].
  destruct (Price.choices1 _ _ g3) as [[start_index|e] g4] eqn:Hch;
    [|discriminate].
  pose proof Hch as Hrange. apply choices1_In, range_In in Hrange.
  destruct (Price.fill_slots _ _ _ _ _ _ _ _ _ _ _ g4)
    as [[[[cv1 label_chars] line_bboxes]|e] g5] eqn:Hfill; [|discriminate].
  apply fill_slots_label in Hfill; [|lia].
  destruct Hfill as (segs & Hlc & Hlen & Hseg). simpl in Hlc. subst label_chars.
  destruct (Price.strikethrough _ _ _ _ g5) as [[cv2|e] g6]; [|discriminate].
  destruct target_bboxes as [|[[[bx0 by0] bx1] by1] others]; [discriminate|].
  destruct (_ || _); [discriminate|].
  unfold lift in Hrun.
  destruct (ccrop _ cv2) as [cv2'|e]; [|discriminate].
  destruct (Company.post_process _ _ _ _ g6) as [[cv3|e] g7]; [|discriminate].
  injection Hrun as <- <-.
  exists cv0, col, lw, g1, g2, g3, g4, start_index, segs.
  split; [reflexivity|]. split; [exact Hink|]. split; [exact Hlw|].
  split; [exact Hch|].
  split; [exact Hrange|]. split; [reflexivity|]. split; [exact Hlen|].
  intros k seg Hk. destruct (Hseg k seg Hk) as (d & u & -> & Hu & Hb & Hd & Hz).
  simpl in Hu. rewrite Nat2Z.id in Hu.
  pose proof Hu as Hu1. apply nth_error_In in Hu1.
  rewrite Forall_forall in Hunits. apply Hunits in Hu1.
  destruct u as [|u0 [|? ?]]; try discriminate.
  assert (Hdigit : start_index <= 0 + Z.of_nat k -> exists c, d = [c] /\ c <> 32 /\
                     In [c] Price.TARGET_CHAR_SET).
  { intros Hge. specialize (Hd Hge). pose proof Hd as Hd'.
    simpl in Hd. repeat (destruct Hd as [<-|Hd]; [eexists; split;
      [reflexivity|split; [discriminate|exact Hd']]|]). destruct Hd. }
  destruct (Z.lt_ge_cases (0 + Z.of_nat k) start_index) as [Hlt|Hge].
  - rewrite (Hb Hlt). exists 32, u0. repeat split; auto; try lia.
  - destruct (Hdigit Hge) as (c & -> & Hc32 & Hin).
    exists c, u0. repeat split; auto; try lia.
    intros He Hn Hzero. subst c.
    specialize (Hz ltac:(lia) ltac:(lia)). simpl in Hz.
    repeat (destruct Hz as [Hz|Hz]; [discriminate Hz|]). destruct Hz.
Qed.

Lemma slotted_label_structure_witness :
  exists (base : canvas) (text_color : color) (line_width : Z)
         (g1 g2 g3 g4 : rng) (start_index : Z) (segs : list str),
    Company.load_background Examples.E_id "invoice.png" 0.1 0.3 Examples.g_late
    = (Ret base, g1) /\
    Company.ink_color g1 = (Ret text_color, g2) /\
    randint 2 4 g2 = (Ret line_width, g3) /\
    Price.choices1 (range (Z.of_nat (List.length Price.DEFAULT_BBOXES)))
                   Price.weights g3 = (Ret start_index, g4) /\
    0 <= start_index < Z.of_nat (List.length Price.DEFAULT_BBOXES) /\
    [32; 0x5104; 32; 0x4EDF; 32; 0x4F70; 32; 0x62FE; 32; 0x842C; 32; 0x4EDF;
     0x9678; 0x4F70; 0x8086; 0x62FE; 0x53C3; 0x5143]
    = List.concat segs /\
    List.length segs = List.length Price.DEFAULT_BBOXES /\
    forall k seg, nth_error segs k = Some seg ->
      exists d u,
        seg = [d; u] /\ nth_error Price.STATIC_UNITS k = Some [u] /\
        (d = 32 <-> Z.of_nat k < start_index) /\
        (start_index <= Z.of_nat k -> In [d] Price.TARGET_CHAR_SET) /\
        (Z.of_nat k = start_index ->
         Z.of_nat k <> Z.of_nat (List.length Price.DEFAULT_BBOXES) - 1 ->
         d <> 0x96F6).
Proof.
  eapply (slotted_label_structure Examples.E_id Examples.index_one "invoice.png"
            Price.DEFAULT_BBOXES Price.STATIC_UNITS Examples.g_late).
  - vm_compute. reflexivity.
  - repeat constructor.
Defined.

End SlottedFacts.

(** ** The strikethrough *)

Module StrikeFacts.

Import PILFacts ExtractionFacts.

Lemma sorted_snoc (l : list Z) (a : Z) :
  StronglySorted Z.le l -> Forall (fun x => x <= a) l ->
  StronglySorted Z.le (l ++ [a]).
Proof.
  induction 1 as [|b l Hs IH Hall]; intros Hle; simpl.
  - constructor; constructor.
  - inversion Hle as [|? ? Hb Hl]; subst. constructor.
    + apply IH. exact Hl.
    + apply Forall_app. split; [exact Hall|]. constructor; [exact Hb|constructor].
Qed.

Lemma sorted_prefix (l1 l2 : list Z) :
  StronglySorted Z.le (l1 ++ l2) -> StronglySorted Z.le l1.
Proof.
  induction l1 as [|a l1 IH]; simpl; intros H; [constructor|].
  inversion H as [|? ? Hs Hall]; subst. constructor.
  - apply IH. exact Hs.
  - apply Forall_app in Hall. apply Hall.
Qed.

(** The loop keeps the points in order, never passes [x_end], and runs at
    least once when [x] is short of [x_end]. *)
Lemma wavy_spec (x_end base_y x : Z) (pts : list (Z * Z)) (g : rng) :
  StronglySorted Z.le (map fst pts) ->
  Forall (fun p => fst p <= x) pts ->
  exists more,
    fst (Price.wavy x_end base_y x pts g) = pts ++ more /\
    StronglySorted Z.le (map fst (pts ++ more)) /\
    Forall (fun p => fst p <= Z.max x x_end) (pts ++ more) /\
    (x_end <= x -> more = []) /\
    (x < x_end -> more <> []).
Proof.
  funelim (Price.wavy x_end base_y x pts g); intros Hs Hall.
  - clear Heq Heqcall.
    pose proof (randint_value_bounds 30 70 g ltac:(lia)) as Hstep.
    set (x' := Z.min (x + randint_value 30 70 g) x_end) in *.
    assert (Hx' : x <= x' <= x_end) by (unfold x'; lia).
    destruct H as (more & Hr & Hs' & Hall' & _ & _).
    + rewrite map_app. simpl. apply sorted_snoc; [exact Hs|].
      apply Forall_map. eapply Forall_impl; [|exact Hall].
      simpl. intros p Hp. lia.
    + apply Forall_app. split.
      * eapply Forall_impl; [|exact Hall]. simpl. intros p Hp. lia.
      * constructor; [simpl; lia|constructor].
    + exists ((x', base_y + randint_value (-4) 4 (rng_tail g)) :: more).
      rewrite <- app_assoc in Hr, Hs', Hall'. simpl in Hr, Hs', Hall'.
      repeat split.
      * exact Hr.
      * exact Hs'.
      * replace (Z.max x x_end) with (Z.max x' x_end) by lia. exact Hall'.
      * intros Hge. lia.
      * discriminate.
  - exists []. rewrite app_nil_r. simpl. repeat split.
    + exact Hs.
    + eapply Forall_impl; [|exact Hall]. simpl. intros p Hp. lia.
    + intros Hlt. lia.
Qed.

Lemma removelast_snoc {A} (l : list A) (a : A) : removelast (l ++ [a]) = l.
Proof. apply removelast_last. Qed.

(** The point list of the strikethrough: its last point lies at the end
    x (the right edge of the blank run less the second inset drawn), the x
    coordinates never decrease; the first point lies at the start x (the
    left edge plus the first inset drawn) when the start x does not exceed
    the end x, and otherwise the list is the single point at the end x;
    with the start x short of the end x the list has a segment. *)
Lemma strike_points_shape (rx0 ry0 rx1 ry1 : Z) (others : list box)
    (g : rng) (points : list (Z * Z))
    (Hrun : fst (Price.strike_points (rx0, ry0, rx1, ry1) others g) = Ret points) :
  exists inset_l inset_r,
    3 <= inset_l <= 10 /\ 3 <= inset_r <= 10 /\
    fst (last points (0, 0))
    = max_of rx1 (map (fun b : box => snd (fst b)) others) - inset_r /\
    StronglySorted Z.le (map fst points) /\
    (min_of rx0 (map (fun b : box => fst (fst (fst b))) others) + inset_l
     <= max_of rx1 (map (fun b : box => snd (fst b)) others) - inset_r ->
     option_map fst (hd_error points)
     = Some (min_of rx0 (map (fun b : box => fst (fst (fst b))) others) + inset_l)) /\
    (max_of rx1 (map (fun b : box => snd (fst b)) others) - inset_r
     < min_of rx0 (map (fun b : box => fst (fst (fst b))) others) + inset_l ->
     List.length points = 1%nat) /\
    (min_of rx0 (map (fun b : box => fst (fst (fst b))) others) + inset_l
     < max_of rx1 (map (fun b : box => snd (fst b)) others) - inset_r ->
     (2 <= List.length points)%nat).
Proof.
  unfold Price.strike_points, bind in Hrun.
  rewrite !randint_ok in Hrun by lia.
  set (inset_l := randint_value 3 10 g) in *.
  set (inset_r := randint_value 3 10 (rng_tail g)) in *.
  set (x_start := min_of rx0 _ + inset_l) in *.
  set (x_end := max_of rx1 _ - inset_r) in *.
  destruct (randint _ _ (rng_tail (rng_tail g))) as [[jitter|e] g3]; [|discriminate].
  set (base_y := (ry0 + ry1) / 2 + jitter) in *.
  destruct (wavy_spec x_end base_y x_start [(x_start, base_y)] g3) as
    (more & Hr & Hs & Hall & Hnone & Hsome).
  { simpl. constructor; constructor. }
  { constructor; [simpl; lia|constructor]. }
  destruct (Price.wavy x_end base_y x_start [(x_start, base_y)] g3) as [pts g4].
  simpl in Hr. subst pts.
  rewrite randint_ok in Hrun by lia. unfold ret in Hrun. simpl in Hrun.
  injection Hrun as <-.
  exists inset_l, inset_r.
  split; [apply randint_value_bounds; lia|].
  split; [apply randint_value_bounds; lia|].
  unfold Price.set_last.
  split; [rewrite last_last; reflexivity|].
  destruct (Z.le_gt_cases x_end x_start) as [Hge|Hlt].
  - rewrite (Hnone Hge) in *. simpl. repeat split.
    + constructor; constructor.
    + intros Hle. f_equal. lia.
    + intros Hshort. lia.
  - specialize (Hsome Hlt).
    destruct (exists_last Hsome) as (more' & p & ->).
    change ((x_start, base_y) :: more' ++ [p])
      with (((x_start, base_y) :: more') ++ [p]) in *.
    rewrite removelast_snoc. repeat split.
    + change ([(x_start, base_y)] ++ more' ++ [p])
        with (((x_start, base_y) :: more') ++ [p]) in Hs, Hall.
      rewrite map_app. rewrite map_app in Hs. apply sorted_snoc.
      * eapply sorted_prefix. exact Hs.
      * apply Forall_app in Hall. destruct Hall as [Hall _].
        apply Forall_map. eapply Forall_impl; [|exact Hall].
        simpl. intros q Hq. lia.
    + intros Hcross. lia.
    + intros _. rewrite length_app. cbn [List.length]. lia.
Qed.



(** Over a blank run more than 20 px wide, as every run of the default
    template is, the point list has a segment. *)
Lemma wide_run_has_segment (rx0 ry0 rx1 ry1 : Z) (others : list box)
    (g : rng) (points : list (Z * Z)) :
  fst (Price.strike_points (rx0, ry0, rx1, ry1) others g) = Ret points ->
  20 < max_of rx1 (map (fun b : box => snd (fst b)) others)
       - min_of rx0 (map (fun b : box => fst (fst (fst b))) others) ->
  (2 <= List.length points)%nat.
Proof.
  intros Hrun Hwide.
  destruct (strike_points_shape rx0 ry0 rx1 ry1 others g points Hrun)
    as (inset_l & inset_r & Hl & Hr & _ & _ & _ & _ & Hseg).
  apply Hseg. lia.
Qed.

(** A blank run narrower than the two insets: over one slot 10 px wide
    with both insets at 10 the start x is 10 and the end x is 0, the loop
    never runs and [points[-1] = ...] overwrites the start point.  The
    list is the single point at x = 0, which has no segment and not the
    shape of a polyline. *)
Lemma narrow_run_single_point :
  fst (Price.strike_points (0, 0, 10, 10) [] Examples.g_seven) = Ret [(0, 3)] /\
  ~ Spec.strike_as_claimed 0 10 [(0, 3)].
Proof.
  split; [vm_compute; reflexivity|].
  intros (inset_l & inset_r & Hl & Hr & Hfirst & _).
  simpl in Hfirst. injection Hfirst as Hfirst. lia.
Qed.

End StrikeFacts.

(** ** Failing fast *)

Module GenerationFacts.

Import PILFacts ExtractionFacts.

(** In flowing mode a character without an index entry ends the
    generation before any sample is read. *)
Lemma flowing_missing_character (E : env) (cm : char_map)
    (background_path : string) (reference_field_bbox : box)
    (company_name : str) (g : rng) (c : char) :
  In c company_name -> contains [c] cm = false ->
  Company.generate_synthetic_image E cm background_path reference_field_bbox
                                   company_name g
  = (Ret Company.no_result, g).
Proof.
  intros Hin Hc. unfold Company.generate_synthetic_image.
  destruct reference_field_bbox as [[[xmin ymin] xmax] ymax].
  destruct (forallb _ _) eqn:Hall; [|reflexivity].
  rewrite forallb_forall in Hall.
  specialize (Hall [c] (in_map (fun c => [c]) company_name c Hin)). congruence.
Qed.

(** In flowing mode a failed mask extraction ends the generation. *)
Lemma flowing_extraction_failure (E : env) (cm : char_map)
    (background_path : string) (reference_field_bbox : box)
    (company_name : str) (g g1 : rng) :
  Company.get_masks E cm (map (fun c => [c]) company_name) g = (Ret None, g1) ->
  fst (Company.generate_synthetic_image E cm background_path
         reference_field_bbox company_name g)
  = Ret Company.no_result.
Proof.
  intros Hm. unfold Company.generate_synthetic_image.
  destruct reference_field_bbox as [[[xmin ymin] xmax] ymax].
  destruct (negb _); [reflexivity|].
  unfold bind at 1. rewrite Hm. reflexivity.
Qed.

(** The mask loop stops at the first character whose extraction fails. *)
Lemma get_masks_stops (E : env) (cm : char_map) (before after : list str)
    (c : str) :
  forall g ms g1 g2,
    Company.get_masks E cm before g = (Ret (Some ms), g1) ->
    Company._get_char_mask E c cm g1 = (Ret None, g2) ->
    Company.get_masks E cm (before ++ c :: after) g = (Ret None, g2).
Proof.
  induction before as [|b before IH]; intros g ms g1 g2 Hb Hc; simpl in *.
  - unfold ret in Hb. injection Hb as <- <-.
    unfold bind. rewrite Hc. reflexivity.
  - unfold bind in *.
    destruct (Company._get_char_mask E b cm g) as [[[m|]|e] g'];
      try discriminate.
    destruct (Company.get_masks E cm before g') as [[[ms'|]|e] g''] eqn:Hrec;
      try discriminate.
    unfold ret in Hb. injection Hb as _ <-.
    rewrite (IH g' ms' g'' g2 Hrec Hc). reflexivity.
Qed.

(** C1, at the failing input: with an index built by the driver that holds
    no sample of any capital digit, the slotted generator still returns an
    image and a label of nine digit segments, although nothing was pasted;
    with the same index as a plain dictionary it raises
    [UnboundLocalError] to the caller. *)
Theorem slotted_label_names_unpasted_glyphs :
  (exists cv,
      fst (Price.generate_capital_number_image Examples.E_id Examples.index_one
             "invoice.png" Price.DEFAULT_BBOXES Price.STATIC_UNITS
             Examples.g_mixed)
      = Ret (Some cv,
             Some [0x8086; 0x5104; 0x53C3; 0x4EDF; 0x8CB3; 0x4F70; 0x58F9;
                   0x62FE; 0x96F6; 0x842C; 0x7396; 0x4EDF; 0x634C; 0x4F70;
                   0x67D2; 0x62FE; 0x9678; 0x5143]) /\
      pasted cv = []) /\
  fst (Price.generate_capital_number_image Examples.E_id
         (mkCharMap (items Examples.index_one) false)
         "invoice.png" Price.DEFAULT_BBOXES Price.STATIC_UNITS Examples.g_mixed)
  = Raise UnboundLocalError.
Proof.
  split.
  - eexists. split; vm_compute; reflexivity.
  - vm_compute. reflexivity.
Qed.

End GenerationFacts.

(** ** Rounding to nearest in binary64 *)

Module RoundingFacts.

Import Binary64.
Local Open Scope R_scope.

Lemma p2_pos (e : Z) : 0 < p2 e.
Proof. apply powerRZ_lt. lra. Qed.

Lemma p2_add (a b : Z) : p2 (a + b) = p2 a * p2 b.
Proof. apply powerRZ_add. lra. Qed.

Lemma p2_0 : p2 0 = 1.
Proof. reflexivity. Qed.

Lemma p2_succ (a : Z) : p2 (a + 1) = 2 * p2 a.
Proof. rewrite p2_add. unfold p2 at 2. simpl. lra. Qed.

Lemma p2_pred (a : Z) : p2 (a - 1) = p2 a / 2.
Proof.
  replace a with ((a - 1) + 1)%Z at 2 by lia. rewrite p2_succ. lra.
Qed.

Lemma p2_neg (a : Z) : p2 (- a) = / p2 a.
Proof.
  pose proof (p2_add a (- a)) as H. replace (a + - a)%Z with 0%Z in H by lia.
  rewrite p2_0 in H. pose proof (p2_pos a).
  apply Rmult_eq_reg_l with (p2 a); [|lra]. rewrite <- H. field. lra.
Qed.

Lemma p2_sub (a b : Z) : p2 (a - b) = p2 a / p2 b.
Proof. unfold Z.sub. rewrite p2_add, p2_neg. reflexivity. Qed.

Lemma p2_le (a b : Z) : (a <= b)%Z -> p2 a <= p2 b.
Proof.
  intros H. replace b with (a + (b - a))%Z by lia. rewrite p2_add.
  assert (1 <= p2 (b - a)).
  { assert (Hn : (0 <= b - a)%Z) by lia. revert Hn. generalize (b - a)%Z.
    intros n Hn. pattern n. apply natlike_ind; [rewrite p2_0; lra| |exact Hn].
    intros x Hx IH. unfold Z.succ. rewrite p2_succ. lra. }
  pose proof (p2_pos a). nra.
Qed.

Lemma p2_lt (a b : Z) : (a < b)%Z -> p2 a < p2 b.
Proof.
  intros H. assert (p2 (a + 1) <= p2 b) by (apply p2_le; lia).
  rewrite p2_succ in H0. pose proof (p2_pos a). lra.
Qed.

Lemma p2_IZR (n : Z) : (0 <= n)%Z -> p2 n = IZR (2 ^ n).
Proof.
  intros H. pattern n. apply natlike_ind; [reflexivity| |exact H].
  intros x Hx IH. unfold Z.succ. rewrite p2_succ, IH, Z.pow_add_r by lia.
  rewrite mult_IZR. simpl. lra.
Qed.


Lemma inbetween_bounds (x : R) (m : Z) (l : location) :
  inbetween x m l -> IZR m <= x < IZR m + 1.
Proof. destruct l as [|[]]; simpl; lra. Qed.

Lemma loc_of_record_of_loc (m : Z) (l : location) :
  loc_of_shr_record (shr_record_of_loc m l) = l /\
  shr_m (shr_record_of_loc m l) = m.
Proof. destruct l as [|[]]; split; reflexivity. Qed.

Lemma IZR_xO (p : positive) : IZR (Z.pos p~0) = 2 * IZR (Z.pos p).
Proof. rewrite Pos2Z.inj_xO, mult_IZR. reflexivity. Qed.

Lemma IZR_xI (p : positive) : IZR (Z.pos p~1) = 2 * IZR (Z.pos p) + 1.
Proof. rewrite Pos2Z.inj_xI, plus_IZR, mult_IZR. reflexivity. Qed.

(** One shift to the right halves the value and keeps its location. *)
Lemma shr_1_spec (rec : shr_record) (x : R) :
  (0 <= shr_m rec)%Z ->
  inbetween x (shr_m rec) (loc_of_shr_record rec) ->
  (0 <= shr_m (shr_1 rec))%Z /\
  inbetween (x / 2) (shr_m (shr_1 rec)) (loc_of_shr_record (shr_1 rec)).
Proof.
  destruct rec as [m r s]. simpl shr_m at 1 2.
  intros Hm H. destruct m as [|p|p]; [| |lia].
  - destruct r, s; simpl in *; split; try lia; lra.
  - destruct p as [p|p|].
    + pose proof (IZR_xI p) as E.
      destruct r, s; simpl in H |- *; (split; [lia|]); rewrite E in H; lra.
    + pose proof (IZR_xO p) as E.
      destruct r, s; simpl in H |- *; (split; [lia|]); rewrite E in H; lra.
    + destruct r, s; simpl in H |- *; (split; [lia|]); lra.
Qed.

Lemma iter_pos_nat {A} (f : A -> A) (p : positive) (x : A) :
  SpecFloat.iter_pos f p x = Nat.iter (Pos.to_nat p) f x.
Proof.
  revert x. induction p as [p IH|p IH|]; intros x; cbn [SpecFloat.iter_pos].
  - rewrite !IH. rewrite Pos2Nat.inj_xI.
    replace (S (2 * Pos.to_nat p))
      with (Pos.to_nat p + S (Pos.to_nat p))%nat by lia.
    rewrite Nat.iter_add. rewrite Nat.iter_succ_r. reflexivity.
  - rewrite !IH. rewrite Pos2Nat.inj_xO.
    replace (2 * Pos.to_nat p)%nat
      with (Pos.to_nat p + Pos.to_nat p)%nat by lia.
    rewrite Nat.iter_add. reflexivity.
  - reflexivity.
Qed.

Lemma shr_iter_spec (n : nat) (rec : shr_record) (x : R) :
  (0 <= shr_m rec)%Z ->
  inbetween x (shr_m rec) (loc_of_shr_record rec) ->
  (0 <= shr_m (Nat.iter n shr_1 rec))%Z /\
  inbetween (x / p2 (Z.of_nat n)) (shr_m (Nat.iter n shr_1 rec))
            (loc_of_shr_record (Nat.iter n shr_1 rec)).
Proof.
  intros Hm H. induction n as [|n IH].
  - change (Z.of_nat 0) with 0%Z. rewrite p2_0. simpl Nat.iter.
    split; [exact Hm|]. replace (x / 1) with x by lra. exact H.
  - destruct IH as [IH1 IH2]. simpl Nat.iter.
    pose proof (shr_1_spec _ _ IH1 IH2) as [H1 H2]. split; [exact H1|].
    rewrite Nat2Z.inj_succ. unfold Z.succ. rewrite p2_succ.
    pose proof (p2_pos (Z.of_nat n)).
    replace (x / (2 * p2 (Z.of_nat n))) with (x / p2 (Z.of_nat n) / 2)
      by (field; lra).
    exact H2.
Qed.

(** [shr]: the shifted record stands for the value divided by [2^n]. *)
Lemma shr_spec (m : Z) (l : location) (e n : Z) (x : R) :
  (0 <= m)%Z -> inbetween x m l ->
  (0 <= shr_m (fst (shr (shr_record_of_loc m l) e n)))%Z /\
  snd (shr (shr_record_of_loc m l) e n) = (e + Z.max 0 n)%Z /\
  inbetween (x / p2 (Z.max 0 n))
            (shr_m (fst (shr (shr_record_of_loc m l) e n)))
            (loc_of_shr_record (fst (shr (shr_record_of_loc m l) e n))).
Proof.
  intros Hm H. destruct (loc_of_record_of_loc m l) as [El Em].
  unfold shr. destruct n as [|p|p]; cbn [fst snd].
  - rewrite El, Em. change (Z.max 0 0) with 0%Z. rewrite p2_0.
    repeat split; try lia. replace (x / 1) with x by lra. exact H.
  - rewrite iter_pos_nat.
    pose proof (shr_iter_spec (Pos.to_nat p) (shr_record_of_loc m l) x) as S.
    rewrite El, Em in S. destruct (S Hm H) as [S1 S2].
    rewrite positive_nat_Z in S2.
    replace (Z.max 0 (Z.pos p)) with (Z.pos p) by lia. repeat split; auto.
  - rewrite El, Em. replace (Z.max 0 (Z.neg p)) with 0%Z by lia.
    rewrite p2_0. repeat split; try lia.
    replace (x / 1) with x by lra. exact H.
Qed.

(** Rounding to nearest, ties to even, on a located value. *)
Lemma round_nearest_even_spec (x : R) (m : Z) (l : location) :
  inbetween x m l ->
  Rabs (IZR (round_nearest_even m l) - x) <= / 2 /\
  (m <= round_nearest_even m l <= m + 1)%Z /\
  (l = loc_Exact -> round_nearest_even m l = m).
Proof.
  intros H. destruct l as [|[]]; simpl in *.
  - subst x. rewrite Rminus_diag, Rabs_R0. split; [lra|]. split; [lia|auto].
  - destruct (Z.even m).
    + split; [|split; [lia|discriminate]].
      rewrite H. apply Rabs_le. lra.
    + split; [|split; [lia|discriminate]].
      rewrite plus_IZR, H. apply Rabs_le. lra.
  - split; [|split; [lia|discriminate]]. apply Rabs_le. lra.
  - split; [|split; [lia|discriminate]]. rewrite plus_IZR. apply Rabs_le. lra.
Qed.


(** The number of binary digits. *)
Lemma digits2_pos_spec (m : positive) :
  (2 ^ (Z.pos (digits2_pos m) - 1) <= Z.pos m < 2 ^ Z.pos (digits2_pos m))%Z.
Proof.
  induction m as [m IH|m IH|]; cbn [digits2_pos].
  - rewrite Pos2Z.inj_succ. unfold Z.succ.
    replace (Z.pos (digits2_pos m) + 1 - 1)%Z
      with (Z.pos (digits2_pos m) - 1 + 1)%Z by lia.
    rewrite !Z.pow_add_r by lia. change (2 ^ 1)%Z with 2%Z. lia.
  - rewrite Pos2Z.inj_succ. unfold Z.succ.
    replace (Z.pos (digits2_pos m) + 1 - 1)%Z
      with (Z.pos (digits2_pos m) - 1 + 1)%Z by lia.
    rewrite !Z.pow_add_r by lia. change (2 ^ 1)%Z with 2%Z. lia.
  - simpl. lia.
Qed.

Lemma Zdigits2_spec (m : Z) :
  (0 < m)%Z ->
  (0 < Zdigits2 m)%Z /\ p2 (Zdigits2 m - 1) <= IZR m < p2 (Zdigits2 m).
Proof.
  intros H. destruct m as [|p|p]; try lia. simpl Zdigits2.
  pose proof (digits2_pos_spec p) as [H1 H2]. split; [lia|].
  rewrite !p2_IZR by lia. split; [apply IZR_le; exact H1|apply IZR_lt; exact H2].
Qed.

Lemma Zdigits2_le (m d : Z) :
  (0 < m)%Z -> IZR m < p2 d -> (Zdigits2 m <= d)%Z.
Proof.
  intros Hm H. destruct (Zdigits2_spec m Hm) as [Hd [Hlo _]].
  destruct (Z.le_gt_cases (Zdigits2 m) d) as [|Hgt]; [assumption|].
  assert (p2 d <= p2 (Zdigits2 m - 1)) by (apply p2_le; lia). lra.
Qed.

Lemma Zdigits2_ge (m d : Z) :
  (0 < m)%Z -> p2 (d - 1) <= IZR m -> (d <= Zdigits2 m)%Z.
Proof.
  intros Hm H. destruct (Zdigits2_spec m Hm) as [Hd [_ Hhi]].
  destruct (Z.le_gt_cases d (Zdigits2 m)) as [|Hgt]; [assumption|].
  assert (p2 (Zdigits2 m) <= p2 (d - 1)) by (apply p2_le; lia). lra.
Qed.

Lemma fexp_fexp64 (k : Z) : fexp prec emax k = fexp64 k.
Proof. reflexivity. Qed.

(** The first half of [binary_round_aux]: shift to the rounding exponent
    and round the mantissa. *)
Lemma round_mantissa_spec (mx ex : Z) (lx : location) (x : R) :
  (0 < mx)%Z -> inbetween x mx lx ->
  (ex <= fexp64 (Zdigits2 mx + ex))%Z ->
  let e1 := fexp64 (Zdigits2 mx + ex) in
  let rec1 := fst (shr_fexp prec emax mx ex lx) in
  let m1 := round_nearest_even (shr_m rec1) (loc_of_shr_record rec1) in
  snd (shr_fexp prec emax mx ex lx) = e1 /\
  (0 <= m1 <= 2 ^ 53)%Z /\
  Rabs (IZR m1 - x * p2 (ex - e1)) <= / 2 /\
  ((-1074 < e1)%Z -> (2 ^ 52 <= m1)%Z).
Proof.
  intros Hm Hin Hshift. cbv zeta. unfold shr_fexp. rewrite fexp_fexp64.
  set (e1 := fexp64 (Zdigits2 mx + ex)) in *.
  destruct (Zdigits2_spec mx Hm) as [Hd [Hlo Hhi]].
  pose proof (inbetween_bounds _ _ _ Hin) as [Hx1 Hx2].
  destruct (shr_spec mx lx ex (e1 - ex) x ltac:(lia) Hin) as (S1 & S2 & S3).
  replace (Z.max 0 (e1 - ex)) with (e1 - ex)%Z in S2, S3 by lia.
  set (r1 := fst (shr (shr_record_of_loc mx lx) ex (e1 - ex))) in *.
  destruct (round_nearest_even_spec _ _ _ S3) as (R1 & R2 & _).
  pose proof (inbetween_bounds _ _ _ S3) as [B1 B2].
  assert (Ediv : x / p2 (e1 - ex) = x * p2 (ex - e1)).
  { replace (ex - e1)%Z with (- (e1 - ex))%Z by lia. rewrite p2_neg. reflexivity. }
  rewrite Ediv in *.
  assert (Hk : (Zdigits2 mx + ex - e1 <= 53)%Z) by (unfold e1, fexp64; lia).
  (* the scaled value lies below 2^53 *)
  assert (Hup : x * p2 (ex - e1) < p2 53).
  { assert (IZR mx + 1 <= p2 (Zdigits2 mx)).
    { rewrite p2_IZR by lia. rewrite <- plus_IZR. apply IZR_le.
      apply lt_IZR in Hhi || idtac.
      rewrite p2_IZR in Hhi by lia. apply lt_IZR in Hhi. lia. }
    assert (x < p2 (Zdigits2 mx)) by lra.
    pose proof (p2_pos (ex - e1)).
    assert (x * p2 (ex - e1) < p2 (Zdigits2 mx) * p2 (ex - e1)) by nra.
    rewrite <- p2_add in H2.
    assert (p2 (Zdigits2 mx + (ex - e1)) <= p2 53) by (apply p2_le; lia).
    lra. }
  split; [rewrite S2; lia|]. split; [|split].
  - split; [lia|].
    assert (IZR (shr_m r1) < IZR (2 ^ 53)).
    { rewrite <- p2_IZR by lia. lra. }
    apply lt_IZR in H. lia.
  - exact R1.
  - intros Hnorm.
    assert (He1 : e1 = (Zdigits2 mx + ex - 53)%Z) by (unfold e1, fexp64 in *; lia).
    assert (p2 52 <= x * p2 (ex - e1)).
    { replace 52%Z with ((Zdigits2 mx - 1) + (ex - e1))%Z by lia.
      rewrite p2_add. pose proof (p2_pos (ex - e1)). nra. }
    (* the floor of a value above the integer 2^52 is above 2^52 *)
    assert (IZR (2 ^ 52) < IZR (shr_m r1) + 1).
    { rewrite <- p2_IZR by lia. lra. }
    rewrite <- plus_IZR in H0. apply lt_IZR in H0. lia.
Qed.


Lemma shr_nonpos (r : shr_record) (e n : Z) : (n <= 0)%Z -> shr r e n = (r, e).
Proof. intros H. destruct n; try reflexivity. lia. Qed.

(** The whole of [binary_round_aux] on a positive located mantissa whose
    exponent does not exceed the rounding exponent: the result is the
    nearest multiple of [2^e1], and it is a valid finite float. *)
Lemma binary_round_aux_spec (sx : bool) (mx ex : Z) (lx : location) (x : R) :
  (0 < mx)%Z -> inbetween x mx lx ->
  (ex <= fexp64 (Zdigits2 mx + ex))%Z ->
  (Zdigits2 mx + ex <= 1023)%Z ->
  exists m1 : Z,
    (0 <= m1)%Z /\
    SF2R (binary_round_aux prec emax sx mx ex lx)
    = sign sx * IZR m1 * p2 (fexp64 (Zdigits2 mx + ex)) /\
    Rabs (IZR m1 - x * p2 (ex - fexp64 (Zdigits2 mx + ex))) <= / 2 /\
    SFfinite (binary_round_aux prec emax sx mx ex lx) /\
    valid_binary (binary_round_aux prec emax sx mx ex lx) = true.
Proof.
  intros Hm Hin Hshift Hk.
  pose proof (round_mantissa_spec mx ex lx x Hm Hin Hshift) as H.
  cbv zeta in H. destruct H as (He & Hm1 & Herr & Hnorm).
  set (e1 := fexp64 (Zdigits2 mx + ex)) in *.
  assert (He1 : (-1074 <= e1 <= 970)%Z) by (unfold e1, fexp64; lia).
  unfold binary_round_aux.
  destruct (shr_fexp prec emax mx ex lx) as [rec1 e'] eqn:E1.
  cbn [fst snd] in He, Hm1, Herr, Hnorm. subst e'.
  set (m1 := round_nearest_even (shr_m rec1) (loc_of_shr_record rec1)) in *.
  exists m1. split; [lia|].
  unfold shr_fexp. rewrite fexp_fexp64. cbn [shr_record_of_loc].
  destruct (Z.eq_dec m1 0) as [Hz|Hnz].
  - (* the mantissa rounds to zero *)
    rewrite Hz in *. cbn [Zdigits2].
    rewrite shr_nonpos by (unfold fexp64; lia). cbn [shr_m].
    repeat split; try exact Herr. simpl. lra.
  - destruct (Z.eq_dec m1 (2 ^ 53)) as [Hc|Hnc].
    + (* the mantissa rounds up to 2^53: one more shift *)
      rewrite Hc in *.
      replace (fexp64 (Zdigits2 (2 ^ 53) + e1) - e1)%Z with 1%Z
        by (change (Zdigits2 (2 ^ 53)) with 54%Z; unfold fexp64; lia).
      cbn [shr SpecFloat.iter_pos]. change (shr_1 _) with
        (Build_shr_record (2 ^ 52) false false). cbn [shr_m].
      change (2 ^ 52)%Z with (Z.pos (2 ^ 52)).
      replace (e1 + 1 <=? emax - prec)%Z with true
        by (symmetry; apply Z.leb_le; change (emax - prec)%Z with 971%Z; lia).
      repeat split; try exact Herr.
      * cbn [SF2R]. rewrite p2_succ.
        change (IZR (Z.pos (2 ^ 52))) with (IZR (2 ^ 52)).
        replace (IZR (2 ^ 53)) with (2 * IZR (2 ^ 52)).
        -- unfold sign. destruct sx; lra.
        -- rewrite <- mult_IZR. reflexivity.
      * cbn [SpecFloat.valid_binary]. unfold SpecFloat.bounded, SpecFloat.canonical_mantissa.
        rewrite fexp_fexp64.
        change (Z.pos (digits2_pos (2 ^ 52))) with 53%Z.
        apply andb_true_intro. split.
        -- apply Z.eqb_eq. unfold fexp64. lia.
        -- apply Z.leb_le. change (emax - prec)%Z with 971%Z. lia.
    + (* no carry *)
      assert (Hlt : (0 < m1 < 2 ^ 53)%Z) by lia.
      assert (Hd1 : (Zdigits2 m1 <= 53)%Z).
      { apply Zdigits2_le; [lia|]. rewrite p2_IZR by lia. apply IZR_lt. lia. }
      rewrite shr_nonpos by (unfold fexp64; lia). cbn [shr_m].
      destruct m1 as [|p|p] eqn:Ep; try lia.
      replace (e1 <=? emax - prec)%Z with true
        by (symmetry; apply Z.leb_le; change (emax - prec)%Z with 971%Z; lia).
      repeat split; try exact Herr.
      cbn [SpecFloat.valid_binary]. unfold SpecFloat.bounded, SpecFloat.canonical_mantissa.
      rewrite fexp_fexp64. apply andb_true_intro. split.
      * apply Z.eqb_eq. change (Z.pos (digits2_pos p)) with (Zdigits2 (Z.pos p)).
        destruct (Z.eq_dec e1 (-1074)) as [Hs|Hn].
        -- unfold fexp64. lia.
        -- assert (2 ^ 52 <= Z.pos p)%Z by (apply Hnorm; lia).
           assert (53 <= Zdigits2 (Z.pos p))%Z.
           { apply Zdigits2_ge; [lia|]. rewrite p2_IZR by lia.
             apply IZR_le. exact H. }
           unfold fexp64. lia.
      * apply Z.leb_le. change (emax - prec)%Z with 971%Z. lia.
Qed.


Lemma rounds_to_0 : rounds_to 0 0.
Proof.
  exists (-1074)%Z, 0%Z. pose proof (p2_pos (-1074 + 53)).
  split; [lra|]. split; [|split; [lia|split; [|left; reflexivity]]].
  - unfold Rdiv. rewrite Rmult_0_l, Rminus_diag, Rabs_R0. lra.
  - rewrite Rabs_R0. lra.
Qed.

Lemma sign_abs (s : bool) (a : R) : 0 <= a -> Rabs (sign s * a) = a.
Proof.
  intros H. unfold sign. destruct s.
  - replace (-1 * a) with (- a) by lra. rewrite Rabs_Ropp. apply Rabs_pos_eq. lra.
  - replace (1 * a) with a by lra. apply Rabs_pos_eq. lra.
Qed.

Lemma binary_round_aux_rounds (sx : bool) (mx ex : Z) (lx : location) (x : R) :
  (0 < mx)%Z -> inbetween x mx lx ->
  (ex <= fexp64 (Zdigits2 mx + ex))%Z ->
  (Zdigits2 mx + ex <= 1023)%Z ->
  SFfinite (binary_round_aux prec emax sx mx ex lx) /\
  valid_binary (binary_round_aux prec emax sx mx ex lx) = true /\
  rounds_to (sign sx * (x * p2 ex))
            (SF2R (binary_round_aux prec emax sx mx ex lx)).
Proof.
  intros Hm Hin Hshift Hk.
  destruct (binary_round_aux_spec sx mx ex lx x Hm Hin Hshift Hk)
    as (m1 & Hm1 & Hval & Herr & Hfin & Hvalid).
  split; [exact Hfin|]. split; [exact Hvalid|].
  set (e1 := fexp64 (Zdigits2 mx + ex)) in *.
  destruct (Zdigits2_spec mx Hm) as [Hd [Hlo Hhi]].
  pose proof (inbetween_bounds _ _ _ Hin) as [Hx1 Hx2].
  pose proof (p2_pos ex) as Pex. pose proof (p2_pos e1) as Pe1.
  assert (Hx0 : 0 < x).
  { assert (0 < IZR mx) by (apply IZR_lt; lia). lra. }
  assert (Habs : Rabs (sign sx * (x * p2 ex)) = x * p2 ex).
  { apply sign_abs. nra. }
  assert (Hxk : x < p2 (Zdigits2 mx)).
  { assert (IZR mx + 1 <= p2 (Zdigits2 mx)); [|lra].
    rewrite p2_IZR in Hhi |- * by lia. rewrite <- plus_IZR. apply IZR_le.
    apply lt_IZR in Hhi. lia. }
  exists e1, (if sx then - m1 else m1)%Z. split; [|split; [|split; [|split]]].
  - rewrite Hval. unfold sign. destruct sx; [rewrite opp_IZR|]; lra.
  - replace (sign sx * (x * p2 ex) / p2 e1)
      with (sign sx * (x * p2 (ex - e1))) by (rewrite p2_sub; field; lra).
    unfold sign. destruct sx.
    + rewrite opp_IZR.
      replace (- IZR m1 - -1 * (x * p2 (ex - e1)))
        with (- (IZR m1 - x * p2 (ex - e1))) by lra.
      rewrite Rabs_Ropp. exact Herr.
    + replace (IZR m1 - 1 * (x * p2 (ex - e1)))
        with (IZR m1 - x * p2 (ex - e1)) by lra.
      exact Herr.
  - unfold e1, fexp64. lia.
  - rewrite Habs.
    assert (x * p2 ex < p2 (Zdigits2 mx) * p2 ex) by nra.
    rewrite <- p2_add in H.
    assert (p2 (Zdigits2 mx + ex) <= p2 (e1 + 53))
      by (apply p2_le; unfold e1, fexp64; lia).
    lra.
  - destruct (Z.eq_dec e1 (-1074)) as [|Hn]; [left; assumption|right].
    rewrite Habs.
    replace (e1 + 52)%Z with ((Zdigits2 mx - 1) + ex)%Z
      by (unfold e1, fexp64 in *; lia).
    rewrite p2_add. nra.
Qed.


Lemma valid_canonical (s : bool) (m : positive) (e : Z) :
  valid_binary (S754_finite s m e) = true ->
  fexp64 (Zdigits2 (Z.pos m) + e) = e /\ (e <= 971)%Z.
Proof.
  cbn [SpecFloat.valid_binary]. unfold SpecFloat.bounded, SpecFloat.canonical_mantissa.
  rewrite fexp_fexp64. intros H. apply andb_prop in H. destruct H as [H1 H2].
  apply Z.eqb_eq in H1. apply Z.leb_le in H2. split; [exact H1|exact H2].
Qed.

Lemma sign_xorb (a b : bool) : sign (xorb a b) = sign a * sign b.
Proof. destruct a, b; unfold sign; simpl; lra. Qed.

Lemma SF2R_finite (s : bool) (m : positive) (e : Z) :
  SF2R (S754_finite s m e) = sign s * (IZR (Z.pos m) * p2 e).
Proof. unfold SF2R, sign. destruct s; lra. Qed.

(** The product of two valid finite floats is correctly rounded. *)
Lemma SFmul_rounds (x y : spec_float) :
  valid_binary x = true -> valid_binary y = true ->
  SFfinite x -> SFfinite y ->
  Rabs (SF2R x * SF2R y) < p2 1023 ->
  SFfinite (SFmul prec emax x y) /\
  rounds_to (SF2R x * SF2R y) (SF2R (SFmul prec emax x y)).
Proof.
  intros Vx Vy Fx Fy Hb.
  destruct x as [sx|sx| |sx mx ex], y as [sy|sy| |sy my ey];
    try contradiction; cbn [SFmul].
  - split; [exact I|]. simpl. rewrite Rmult_0_l. apply rounds_to_0.
  - split; [exact I|]. simpl SF2R at 1 3. rewrite Rmult_0_l. apply rounds_to_0.
  - split; [exact I|]. simpl SF2R at 2 3. rewrite Rmult_0_r. apply rounds_to_0.
  - destruct (valid_canonical _ _ _ Vx) as [Cx Bx].
    destruct (valid_canonical _ _ _ Vy) as [Cy By].
    destruct (Zdigits2_spec (Z.pos mx) ltac:(lia)) as [Dx [Lx Ux]].
    destruct (Zdigits2_spec (Z.pos my) ltac:(lia)) as [Dy [Ly Uy]].
    destruct (Zdigits2_spec (Z.pos (mx * my)) ltac:(lia)) as [Dz [Lz Uz]].
    rewrite !SF2R_finite in Hb |- *.
    assert (EX : sign sx * (IZR (Z.pos mx) * p2 ex) * (sign sy * (IZR (Z.pos my) * p2 ey))
                 = sign (xorb sx sy) * (IZR (Z.pos (mx * my)) * p2 (ex + ey))).
    { rewrite sign_xorb, Pos2Z.inj_mul, mult_IZR, p2_add. ring. }
    rewrite EX in Hb |- *.
    pose proof (p2_pos (ex + ey)) as Pe.
    assert (Pm : 0 < IZR (Z.pos (mx * my))) by (apply IZR_lt; lia).
    rewrite sign_abs in Hb by nra.
    assert (Hdig : (Zdigits2 (Z.pos mx) + Zdigits2 (Z.pos my) - 1
                    <= Zdigits2 (Z.pos (mx * my)))%Z).
    { apply Zdigits2_ge; [lia|].
      replace (Zdigits2 (Z.pos mx) + Zdigits2 (Z.pos my) - 1 - 1)%Z
        with ((Zdigits2 (Z.pos mx) - 1) + (Zdigits2 (Z.pos my) - 1))%Z by lia.
      rewrite p2_add, Pos2Z.inj_mul, mult_IZR.
      pose proof (p2_pos (Zdigits2 (Z.pos mx) - 1)).
      pose proof (p2_pos (Zdigits2 (Z.pos my) - 1)). nra. }
    assert (Hk : (Zdigits2 (Z.pos (mx * my)) + (ex + ey) <= 1023)%Z).
    { destruct (Z.le_gt_cases (Zdigits2 (Z.pos (mx * my)) + (ex + ey)) 1023)
        as [|Hgt]; [assumption|exfalso].
      assert (p2 1023 <= p2 (Zdigits2 (Z.pos (mx * my)) - 1 + (ex + ey)))
        by (apply p2_le; lia).
      rewrite p2_add in H. nra. }
    assert (Hshift : (ex + ey
                      <= fexp64 (Zdigits2 (Z.pos (mx * my)) + (ex + ey)))%Z).
    { unfold fexp64 in *. lia. }
    destruct (binary_round_aux_rounds (xorb sx sy) (Z.pos (mx * my)) (ex + ey)
                loc_Exact (IZR (Z.pos (mx * my))) ltac:(lia) eq_refl Hshift Hk)
      as (F & _ & Rn).
    split; [exact F|exact Rn].
Qed.

Theorem mul_rounds (x y : float) :
  finite x -> finite y -> Rabs (B2R x * B2R y) < p2 1023 ->
  finite (x * y) /\ rounds_to (B2R x * B2R y) (B2R (x * y)).
Proof.
  unfold finite, B2R. intros Fx Fy Hb. rewrite mul_spec.
  apply SFmul_rounds; auto using Prim2SF_valid.
Qed.


(** The location of a quotient from its remainder. *)
Lemma new_location_spec (m2 q r : Z) :
  (0 < m2)%Z -> (0 <= r < m2)%Z ->
  inbetween (IZR q + IZR r / IZR m2) q (new_location m2 r).
Proof.
  intros Hm Hr.
  assert (Pm : 0 < IZR m2) by (apply IZR_lt; lia).
  set (a := IZR r / IZR m2).
  assert (Ea : a * IZR m2 = IZR r) by (unfold a; field; lra).
  assert (Hr0 : 0 <= IZR r) by (apply IZR_le; lia).
  unfold new_location, new_location_even, new_location_odd.
  change IntDef.Z.eqb with Z.eqb. change IntDef.Z.even with Z.even.
  change IntDef.Z.compare with Z.compare. change IntDef.Z.mul with Z.mul.
  change IntDef.Z.add with Z.add.
  destruct (Z.even m2) eqn:Ev; destruct (Z.eqb_spec r 0) as [Er|Er].
  - assert (a = 0) by (subst r; unfold a, Rdiv; apply Rmult_0_l).
    simpl. lra.
  - assert (Hr1 : 1 <= IZR r) by (apply IZR_le; lia).
    assert (Hlt : IZR r + 1 <= IZR m2) by (rewrite <- plus_IZR; apply IZR_le; lia).
    destruct (Z.compare_spec (2 * r) m2) as [E|L|G]; simpl.
    + apply (f_equal IZR) in E. rewrite mult_IZR in E. nra.
    + apply IZR_lt in L. rewrite mult_IZR in L. nra.
    + apply IZR_lt in G. rewrite mult_IZR in G. nra.
  - assert (a = 0) by (subst r; unfold a, Rdiv; apply Rmult_0_l).
    simpl. lra.
  - assert (Hr1 : 1 <= IZR r) by (apply IZR_le; lia).
    assert (Hlt : IZR r + 1 <= IZR m2) by (rewrite <- plus_IZR; apply IZR_le; lia).
    destruct (Z.compare_spec (2 * r + 1) m2) as [E|L|G]; simpl.
    + apply (f_equal IZR) in E. rewrite plus_IZR, mult_IZR in E. nra.
    + apply IZR_lt in L. rewrite plus_IZR, mult_IZR in L. nra.
    + assert (H2 : (2 * r <> m2)%Z).
      { intros E. rewrite <- E, Z.even_mul in Ev. discriminate. }
      assert (G' : (m2 + 1 <= 2 * r)%Z) by lia.
      apply IZR_le in G'. rewrite plus_IZR, mult_IZR in G'. nra.
Qed.

(** The core of the division: a located quotient at the exponent [e']. *)
Lemma SFdiv_core_spec (mx my : positive) (ex ey : Z) :
  let '(q, e', l) := SFdiv_core_binary prec emax (Z.pos mx) ex (Z.pos my) ey in
  exists x : R,
    inbetween x q l /\ (0 <= q)%Z /\
    x * p2 e' = (IZR (Z.pos mx) * p2 ex) / (IZR (Z.pos my) * p2 ey) /\
    (e' <= fexp64 (Zdigits2 (Z.pos mx) + ex - (Zdigits2 (Z.pos my) + ey)))%Z.
Proof.
  unfold SFdiv_core_binary. rewrite fexp_fexp64.
  set (K := (Zdigits2 (Z.pos mx) + ex - (Zdigits2 (Z.pos my) + ey))%Z).
  set (e' := Z.min (fexp64 K) (ex - ey)).
  set (s := (ex - ey - e')%Z).
  assert (Hs : (0 <= s)%Z) by (unfold s, e'; lia).
  set (m' := match s with
             | 0%Z => Z.pos mx
             | Z.pos _ => Z.shiftl (Z.pos mx) s
             | Z.neg _ => 0%Z
             end).
  assert (Em : m' = (Z.pos mx * 2 ^ s)%Z).
  { unfold m'. destruct s as [|p|p] eqn:Es; try lia.
    apply Z.shiftl_mul_pow2. lia. }
  pose proof (Z_div_mod m' (Z.pos my) ltac:(lia)) as Hdiv.
  destruct (Z.div_eucl m' (Z.pos my)) as [q r]. destruct Hdiv as [Hq Hr].
  assert (Py : 0 < IZR (Z.pos my)) by (apply IZR_lt; lia).
  exists (IZR q + IZR r / IZR (Z.pos my)).
  split; [apply new_location_spec; lia|]. split; [|split].
  - assert (0 <= Z.pos my * q + r)%Z by (rewrite <- Hq, Em; lia). nia.
  - replace (IZR q + IZR r / IZR (Z.pos my)) with (IZR m' / IZR (Z.pos my)).
    + rewrite Em, mult_IZR, <- p2_IZR by lia.
      unfold s. rewrite !p2_sub.
      pose proof (p2_pos ex). pose proof (p2_pos ey). pose proof (p2_pos e').
      field. lra.
    + rewrite Hq, plus_IZR, mult_IZR. field. lra.
  - unfold e'. lia.
Qed.

(** The quotient of two finite floats with any positive mantissas is
    correctly rounded, provided it lies in the normal range. *)
Lemma SFdiv_rounds (sx sy : bool) (mx my : positive) (ex ey : Z) :
  let X := SF2R (S754_finite sx mx ex) / SF2R (S754_finite sy my ey) in
  let z := SFdiv prec emax (S754_finite sx mx ex) (S754_finite sy my ey) in
  p2 (-1021) <= Rabs X < p2 1023 ->
  SFfinite z /\ valid_binary z = true /\ rounds_to X (SF2R z).
Proof.
  cbv zeta. intros [Hlo Hhi]. cbn [SFdiv].
  pose proof (SFdiv_core_spec mx my ex ey) as H.
  destruct (SFdiv_core_binary prec emax (Z.pos mx) ex (Z.pos my) ey)
    as [[q e'] l].
  destruct H as (x & Hin & Hq0 & Hx & He').
  rewrite !SF2R_finite in Hlo, Hhi |- *.
  destruct (Zdigits2_spec (Z.pos mx) ltac:(lia)) as [Dx [Lx Ux]].
  destruct (Zdigits2_spec (Z.pos my) ltac:(lia)) as [Dy [Ly Uy]].
  set (dx := Zdigits2 (Z.pos mx)) in *. set (dy := Zdigits2 (Z.pos my)) in *.
  pose proof (p2_pos ex) as Pex. pose proof (p2_pos ey) as Pey.
  pose proof (p2_pos e') as Pe'.
  assert (Px : 0 < IZR (Z.pos mx)) by (apply IZR_lt; lia).
  assert (Py : 0 < IZR (Z.pos my)) by (apply IZR_lt; lia).
  set (Q := (IZR (Z.pos mx) * p2 ex) / (IZR (Z.pos my) * p2 ey)) in *.
  assert (PQ : 0 < Q).
  { unfold Q. apply Rdiv_lt_0_compat; nra. }
  assert (EX : sign sx * (IZR (Z.pos mx) * p2 ex) / (sign sy * (IZR (Z.pos my) * p2 ey))
               = sign (xorb sx sy) * (x * p2 e')).
  { rewrite Hx, sign_xorb. unfold Q, sign. destruct sx, sy; field; lra. }
  rewrite EX in Hlo, Hhi |- *. rewrite sign_abs in Hlo, Hhi by lra.
  rewrite Hx in Hlo, Hhi.
  (* the binade of the quotient *)
  assert (HQlo : p2 (dx + ex - (dy + ey) - 1) < Q).
  { unfold Q. replace (dx + ex - (dy + ey) - 1)%Z
      with ((dx - 1) + ex - (dy + ey))%Z by lia.
    rewrite p2_sub, !p2_add.
    apply Rmult_lt_reg_r with (IZR (Z.pos my) * p2 ey); [nra|].
    replace (IZR (Z.pos mx) * p2 ex / (IZR (Z.pos my) * p2 ey)
             * (IZR (Z.pos my) * p2 ey))
      with (IZR (Z.pos mx) * p2 ex) by (field; lra).
    replace (p2 (dx - 1) * p2 ex / (p2 dy * p2 ey) * (IZR (Z.pos my) * p2 ey))
      with (p2 (dx - 1) * p2 ex * (IZR (Z.pos my) / p2 dy))
      by (pose proof (p2_pos dy); field; lra).
    pose proof (p2_pos dy). pose proof (p2_pos (dx - 1)).
    assert (IZR (Z.pos my) / p2 dy < 1).
    { apply Rmult_lt_reg_r with (p2 dy); [lra|].
      replace (IZR (Z.pos my) / p2 dy * p2 dy) with (IZR (Z.pos my))
        by (field; lra). lra. }
    assert (0 < p2 (dx - 1) * p2 ex) by nra. nra. }
  assert (HK : (-1021 <= dx + ex - (dy + ey))%Z).
  { destruct (Z.le_gt_cases (-1021) (dx + ex - (dy + ey))) as [|Hgt];
      [assumption|exfalso].
    destruct (Z.le_gt_cases (dx + ex - (dy + ey)) (-1023)) as [Hvery|Hnot].
    - assert (Q < p2 (dx + ex - (dy + ey) + 1)).
      { unfold Q. replace (dx + ex - (dy + ey) + 1)%Z
          with (dx + ex - ((dy - 1) + ey))%Z by lia.
        rewrite p2_sub, !p2_add.
        apply Rmult_lt_reg_r with (IZR (Z.pos my) * p2 ey); [nra|].
        replace (IZR (Z.pos mx) * p2 ex / (IZR (Z.pos my) * p2 ey)
                 * (IZR (Z.pos my) * p2 ey))
          with (IZR (Z.pos mx) * p2 ex) by (field; lra).
        pose proof (p2_pos (dy - 1)). pose proof (p2_pos dx).
        replace (p2 dx * p2 ex / (p2 (dy - 1) * p2 ey) * (IZR (Z.pos my) * p2 ey))
          with (p2 dx * p2 ex * (IZR (Z.pos my) / p2 (dy - 1)))
          by (field; lra).
        assert (1 <= IZR (Z.pos my) / p2 (dy - 1)).
        { apply Rmult_le_reg_r with (p2 (dy - 1)); [lra|].
          replace (IZR (Z.pos my) / p2 (dy - 1) * p2 (dy - 1))
            with (IZR (Z.pos my)) by (field; lra). lra. }
        assert (0 < p2 dx * p2 ex) by nra. nra. }
      assert (p2 (dx + ex - (dy + ey) + 1) <= p2 (-1021)) by (apply p2_le; lia).
      lra.
    - assert (Q < p2 (dx + ex - (dy + ey) + 1)).
      { unfold Q. replace (dx + ex - (dy + ey) + 1)%Z
          with (dx + ex - ((dy - 1) + ey))%Z by lia.
        rewrite p2_sub, !p2_add.
        apply Rmult_lt_reg_r with (IZR (Z.pos my) * p2 ey); [nra|].
        replace (IZR (Z.pos mx) * p2 ex / (IZR (Z.pos my) * p2 ey)
                 * (IZR (Z.pos my) * p2 ey))
          with (IZR (Z.pos mx) * p2 ex) by (field; lra).
        pose proof (p2_pos (dy - 1)). pose proof (p2_pos dx).
        replace (p2 dx * p2 ex / (p2 (dy - 1) * p2 ey) * (IZR (Z.pos my) * p2 ey))
          with (p2 dx * p2 ex * (IZR (Z.pos my) / p2 (dy - 1)))
          by (field; lra).
        assert (1 <= IZR (Z.pos my) / p2 (dy - 1)).
        { apply Rmult_le_reg_r with (p2 (dy - 1)); [lra|].
          replace (IZR (Z.pos my) / p2 (dy - 1) * p2 (dy - 1))
            with (IZR (Z.pos my)) by (field; lra). lra. }
        assert (0 < p2 dx * p2 ex) by nra. nra. }
      assert (p2 (dx + ex - (dy + ey) + 1) <= p2 (-1021)) by (apply p2_le; lia).
      lra. }
  assert (He'' : (e' <= dx + ex - (dy + ey) - 53)%Z) by (unfold fexp64 in He'; lia).
  (* the integer quotient has at least 53 digits *)
  assert (Hx52 : p2 52 < x).
  { apply Rmult_lt_reg_r with (p2 e'); [lra|]. rewrite Hx, <- p2_add.
    assert (p2 (52 + e') <= p2 (dx + ex - (dy + ey) - 1)) by (apply p2_le; lia).
    lra. }
  pose proof (inbetween_bounds _ _ _ Hin) as [Bq1 Bq2].
  assert (Hq52 : (2 ^ 52 <= q)%Z).
  { assert (IZR (2 ^ 52) < IZR q + 1) by (rewrite <- p2_IZR by lia; lra).
    rewrite <- plus_IZR in H. apply lt_IZR in H. lia. }
  assert (Hqpos : (0 < q)%Z) by lia.
  destruct (Zdigits2_spec q Hqpos) as [Dq [Lq Uq]].
  assert (Hdq : (53 <= Zdigits2 q)%Z).
  { apply Zdigits2_ge; [lia|]. rewrite p2_IZR by lia. apply IZR_le. lia. }
  assert (Hshift : (e' <= fexp64 (Zdigits2 q + e'))%Z) by (unfold fexp64; lia).
  assert (Hk : (Zdigits2 q + e' <= 1023)%Z).
  { destruct (Z.le_gt_cases (Zdigits2 q + e') 1023) as [|Hgt];
      [assumption|exfalso].
    assert (p2 1023 <= p2 (Zdigits2 q - 1 + e')) by (apply p2_le; lia).
    rewrite p2_add in H. nra. }
  exact (binary_round_aux_rounds (xorb sx sy) q e' l x Hqpos Hin Hshift Hk).
Qed.


(** *** Consequences of correct rounding *)

Lemma Rabs_le_iff (x a : R) : Rabs x <= a <-> - a <= x <= a.
Proof. unfold Rabs. destruct (Rcase_abs x); lra. Qed.

Lemma rounds_to_opp (X z : R) : rounds_to X z -> rounds_to (- X) (- z).
Proof.
  intros (e1 & m1 & Hz & Herr & He & Hhi & Hlo).
  pose proof (p2_pos e1) as P.
  exists e1, (- m1)%Z. rewrite opp_IZR, !Rabs_Ropp.
  split; [lra|]. split; [|auto].
  replace (- IZR m1 - - X / p2 e1) with (- (IZR m1 - X / p2 e1)) by (field; lra).
  rewrite Rabs_Ropp. exact Herr.
Qed.

(** The error of a rounding: relative [2^-53], or absolute [2^-1075] for
    the subnormal numbers. *)
Lemma rounds_to_error (X z : R) :
  rounds_to X z -> Rabs (z - X) <= p2 (-53) * Rabs X + p2 (-1075).
Proof.
  intros (e1 & m1 & Hz & Herr & He & Hhi & Hlo).
  pose proof (p2_pos e1) as P.
  assert (E : z - X = (IZR m1 - X / p2 e1) * p2 e1) by (rewrite Hz; field; lra).
  rewrite E, Rabs_mult, (Rabs_pos_eq (p2 e1)) by lra.
  assert (B : Rabs (IZR m1 - X / p2 e1) * p2 e1 <= p2 (e1 - 1)).
  { rewrite p2_pred. nra. }
  pose proof (Rabs_pos X). pose proof (p2_pos (-53)). pose proof (p2_pos (-1075)).
  destruct Hlo as [->|Hlo].
  - change (-1074 - 1)%Z with (-1075)%Z in B. nra.
  - replace (e1 - 1)%Z with (-53 + (e1 + 52))%Z in B by lia.
    rewrite p2_add in B. nra.
Qed.

Lemma rounds_to_relative (X z : R) :
  rounds_to X z -> p2 (-1022) <= Rabs X -> Rabs (z - X) <= p2 (-53) * Rabs X.
Proof.
  intros (e1 & m1 & Hz & Herr & He & Hhi & Hlo) Hn.
  pose proof (p2_pos e1) as P.
  assert (E : z - X = (IZR m1 - X / p2 e1) * p2 e1) by (rewrite Hz; field; lra).
  rewrite E, Rabs_mult, (Rabs_pos_eq (p2 e1)) by lra.
  assert (B : Rabs (IZR m1 - X / p2 e1) * p2 e1 <= p2 (e1 - 1)).
  { rewrite p2_pred. nra. }
  pose proof (p2_pos (-53)).
  destruct Hlo as [->|Hlo].
  - change (-1074 - 1)%Z with (-53 + -1022)%Z in B. rewrite p2_add in B. nra.
  - replace (e1 - 1)%Z with (-53 + (e1 + 52))%Z in B by lia.
    rewrite p2_add in B. nra.
Qed.

Lemma rounds_to_nonneg (X z : R) : rounds_to X z -> 0 <= X -> 0 <= z.
Proof.
  intros (e1 & m1 & Hz & Herr & _) HX.
  pose proof (p2_pos e1) as P.
  assert (0 <= X / p2 e1).
  { apply Rmult_le_pos; [lra|]. left. apply Rinv_0_lt_compat. lra. }
  apply Rabs_le_iff in Herr.
  assert (IZR (-1) < IZR m1) by lra.
  apply lt_IZR in H0.
  assert (0 <= IZR m1) by (apply IZR_le; lia).
  rewrite Hz. nra.
Qed.

Lemma rounds_to_nonpos (X z : R) : rounds_to X z -> X <= 0 -> z <= 0.
Proof.
  intros H HX. apply rounds_to_opp in H.
  apply rounds_to_nonneg in H; lra.
Qed.

Lemma rounds_to_zero (z : R) : rounds_to 0 z -> z = 0.
Proof.
  intros H. pose proof (rounds_to_nonneg _ _ H). pose proof (rounds_to_nonpos _ _ H).
  lra.
Qed.

(** The exponent of a rounding below [2^53] is not positive. *)
Lemma rounds_to_small_exponent (X z : R) :
  rounds_to X z -> Rabs X < p2 53 ->
  exists e1 m1 : Z,
    z = IZR m1 * p2 e1 /\ Rabs (IZR m1 - X / p2 e1) <= / 2 /\
    (-1074 <= e1 <= 0)%Z /\ Rabs X < p2 (e1 + 53).
Proof.
  intros (e1 & m1 & Hz & Herr & He & Hhi & Hlo) HX.
  exists e1, m1. repeat split; try assumption.
  destruct Hlo as [->|Hlo]; [lia|].
  destruct (Z.le_gt_cases e1 0) as [|Hgt]; [assumption|exfalso].
  assert (p2 53 <= p2 (e1 + 52)) by (apply p2_le; lia). lra.
Qed.

(** Rounding does not cross an integer below [2^53]. *)
Lemma rounds_to_le_int (X z : R) (k : Z) :
  rounds_to X z -> X <= IZR k -> (0 <= k < 2 ^ 53)%Z -> z <= IZR k.
Proof.
  intros H HX Hk.
  destruct (Rle_lt_dec X 0) as [Hneg|Hpos].
  { pose proof (rounds_to_nonpos _ _ H Hneg).
    assert (0 <= IZR k) by (apply IZR_le; lia). lra. }
  assert (Hb : Rabs X < p2 53).
  { rewrite Rabs_pos_eq by lra. rewrite p2_IZR by lia.
    assert (IZR k < IZR (2 ^ 53)) by (apply IZR_lt; lia). lra. }
  destruct (rounds_to_small_exponent _ _ H Hb) as (e1 & m1 & Hz & Herr & He & _).
  pose proof (p2_pos e1) as P.
  set (N := (k * 2 ^ (- e1))%Z).
  assert (EN : IZR N = IZR k / p2 e1).
  { unfold N. rewrite mult_IZR, <- p2_IZR, p2_neg by lia. reflexivity. }
  apply Rabs_le_iff in Herr.
  assert (X / p2 e1 <= IZR N).
  { rewrite EN. unfold Rdiv. apply Rmult_le_compat_r; [|lra].
    left. apply Rinv_0_lt_compat. lra. }
  assert (IZR m1 < IZR (N + 1)) by (rewrite plus_IZR; lra).
  apply lt_IZR in H1.
  assert (IZR m1 <= IZR N) by (apply IZR_le; lia).
  rewrite Hz. replace (IZR k) with (IZR N * p2 e1) by (rewrite EN; field; lra).
  nra.
Qed.

Lemma rounds_to_ge_int (X z : R) (k : Z) :
  rounds_to X z -> IZR k <= X -> (0 <= k < 2 ^ 53)%Z -> IZR k <= z.
Proof.
  intros H HX Hk.
  assert (Hk0 : 0 <= IZR k) by (apply IZR_le; lia).
  assert (Hk53 : IZR k < p2 53).
  { rewrite p2_IZR by lia. apply IZR_lt. lia. }
  destruct H as (e1 & m1 & Hz & Herr & He & Hhi & Hlo).
  pose proof (p2_pos e1) as P.
  apply Rabs_le_iff in Herr.
  rewrite Rabs_pos_eq in Hhi, Hlo by lra.
  destruct (Z.le_gt_cases e1 0) as [Hle|Hgt].
  - set (N := (k * 2 ^ (- e1))%Z).
    assert (EN : IZR N = IZR k / p2 e1).
    { unfold N. rewrite mult_IZR, <- p2_IZR, p2_neg by lia. reflexivity. }
    assert (IZR N <= X / p2 e1).
    { rewrite EN. unfold Rdiv. apply Rmult_le_compat_r; [|lra].
      left. apply Rinv_0_lt_compat. lra. }
    assert (IZR (N - 1) < IZR m1) by (rewrite minus_IZR; lra).
    apply lt_IZR in H0.
    assert (IZR N <= IZR m1) by (apply IZR_le; lia).
    rewrite Hz. replace (IZR k) with (IZR N * p2 e1) by (rewrite EN; field; lra).
    nra.
  - destruct Hlo as [->|Hlo]; [lia|].
    assert (p2 52 <= X / p2 e1).
    { apply Rmult_le_reg_r with (p2 e1); [lra|].
      replace (X / p2 e1 * p2 e1) with X by (field; lra).
      rewrite <- p2_add. replace (52 + e1)%Z with (e1 + 52)%Z by lia. exact Hlo. }
    rewrite p2_IZR in H by lia.
    assert (IZR (2 ^ 52 - 1) < IZR m1) by (rewrite minus_IZR; lra).
    apply lt_IZR in H0.
    assert (IZR (2 ^ 52) <= IZR m1) by (apply IZR_le; lia).
    assert (p2 1 <= p2 e1) by (apply p2_le; lia).
    rewrite <- p2_IZR in H1 by lia.
    assert (p2 53 = p2 52 * p2 1) by (rewrite <- p2_add; reflexivity).
    pose proof (p2_pos 52). pose proof (p2_pos 1).
    rewrite Hz. nra.
Qed.

(** A value within two fifths of a rounding unit of an integer rounds to
    that integer. *)
Lemma rounds_to_snap (X z : R) (k : Z) :
  rounds_to X z -> (0 < k < 2 ^ 52)%Z ->
  5 * Rabs (X - IZR k) <= 2 * p2 (-53) * IZR k -> z = IZR k.
Proof.
  intros H Hk Hd.
  assert (Hk1 : 1 <= IZR k) by (apply IZR_le; lia).
  assert (Hk52 : IZR k + 1 <= p2 52).
  { rewrite p2_IZR by lia. rewrite <- plus_IZR. apply IZR_le. lia. }
  assert (T1 : p2 (-53) * p2 53 = 1) by (rewrite <- p2_add; apply p2_0).
  assert (T2 : p2 53 = 2 * p2 52) by (rewrite <- p2_succ; reflexivity).
  pose proof (p2_pos (-53)) as Pt. pose proof (p2_pos 52) as P52.
  assert (Ht : p2 (-53) <= / 2) by nra.
  set (d := Rabs (X - IZR k)) in *.
  assert (Hd0 : 0 <= d) by apply Rabs_pos.
  assert (HdX : - d <= X - IZR k <= d) by (apply Rabs_le_iff; unfold d; lra).
  assert (Hdk : 5 * d <= IZR k) by nra.
  assert (HX0 : 0 < X) by lra.
  assert (Hb : Rabs X < p2 53) by (rewrite Rabs_pos_eq by lra; nra).
  destruct (rounds_to_small_exponent _ _ H Hb) as (e1 & m1 & Hz & Herr & He & Hhi).
  pose proof (p2_pos e1) as P.
  rewrite Rabs_pos_eq in Hhi by lra. rewrite p2_add in Hhi.
  set (N := (k * 2 ^ (- e1))%Z).
  assert (EN : IZR N = IZR k / p2 e1).
  { unfold N. rewrite mult_IZR, <- p2_IZR, p2_neg by lia. reflexivity. }
  apply Rabs_le_iff in Herr.
  (* the distance to the integer, in units of the rounding exponent *)
  assert (Hda : 2 * d < p2 e1).
  { assert (IZR k * p2 (-53) < (p2 e1 * p2 53 + d) * p2 (-53)) by nra.
    nra. }
  assert (Hq : - / 2 < X / p2 e1 - IZR N < / 2).
  { rewrite EN. replace (X / p2 e1 - IZR k / p2 e1) with ((X - IZR k) / p2 e1)
      by (field; lra).
    split.
    - apply Rmult_lt_reg_r with (p2 e1); [lra|].
      replace ((X - IZR k) / p2 e1 * p2 e1) with (X - IZR k) by (field; lra). lra.
    - apply Rmult_lt_reg_r with (p2 e1); [lra|].
      replace ((X - IZR k) / p2 e1 * p2 e1) with (X - IZR k) by (field; lra). lra. }
  assert (IZR (N - 1) < IZR m1 < IZR (N + 1)) by (rewrite minus_IZR, plus_IZR; lra).
  destruct H0 as [L U]. apply lt_IZR in L, U.
  assert (m1 = N) by lia. subst m1.
  rewrite Hz, EN. field. lra.
Qed.

End RoundingFacts.

(** ** The float operations of the embedding *)

Module FloatFacts.

Import Binary64 RoundingFacts.
Local Open Scope R_scope.

Lemma iter_xO (mx d : positive) :
  Z.pos (Pos.iter xO mx d) = (Z.pos mx * 2 ^ Z.pos d)%Z.
Proof.
  induction d as [|d IH] using Pos.peano_ind.
  - cbn [Pos.iter]. lia.
  - rewrite Pos.iter_succ, Pos2Z.inj_xO, IH, Pos2Z.inj_succ, Z.pow_succ_r by lia.
    lia.
Qed.

Lemma Zdigits2_shift (m d : Z) :
  (0 < m)%Z -> (0 <= d)%Z -> Zdigits2 (m * 2 ^ d) = (Zdigits2 m + d)%Z.
Proof.
  intros Hm Hd.
  destruct (Zdigits2_spec m Hm) as [D [Lo Hi]].
  assert (Hp : (0 < m * 2 ^ d)%Z) by (apply Z.mul_pos_pos; [lia|apply Z.pow_pos_nonneg; lia]).
  assert (E : IZR (m * 2 ^ d) = IZR m * p2 d) by (rewrite mult_IZR, <- p2_IZR by lia; reflexivity).
  pose proof (p2_pos d) as Pd.
  apply Z.le_antisymm.
  - apply Zdigits2_le; [exact Hp|]. rewrite E, p2_add. nra.
  - apply Zdigits2_ge; [exact Hp|].
    replace (Zdigits2 m + d - 1)%Z with ((Zdigits2 m - 1) + d)%Z by lia.
    rewrite E, p2_add. nra.
Qed.

(** [binary_round]: an exact mantissa and exponent, rounded to binary64. *)
Lemma binary_round_rounds (sx : bool) (mx : positive) (ex : Z) :
  (Zdigits2 (Z.pos mx) + ex <= 1023)%Z ->
  SFfinite (binary_round prec emax sx mx ex) /\
  valid_binary (binary_round prec emax sx mx ex) = true /\
  rounds_to (sign sx * (IZR (Z.pos mx) * p2 ex))
            (SF2R (binary_round prec emax sx mx ex)).
Proof.
  intros Hk. unfold binary_round, shl_align. rewrite fexp_fexp64.
  change (Z.pos (digits2_pos mx)) with (Zdigits2 (Z.pos mx)).
  set (dx := Zdigits2 (Z.pos mx)) in *.
  destruct (fexp64 (dx + ex) - ex)%Z as [|d|d] eqn:Ed.
  - apply binary_round_aux_rounds; [lia|reflexivity|fold dx; lia|fold dx; lia].
  - apply binary_round_aux_rounds; [lia|reflexivity|fold dx; lia|fold dx; lia].
  - change (PosDef.Pos.iter xO mx d) with (Pos.iter xO mx d).
    assert (Es : Z.pos (Pos.iter xO mx d) = (Z.pos mx * 2 ^ Z.pos d)%Z) by apply iter_xO.
    assert (Ed' : Zdigits2 (Z.pos (Pos.iter xO mx d)) = (dx + Z.pos d)%Z).
    { rewrite Es. apply Zdigits2_shift; lia. }
    replace (IZR (Z.pos mx) * p2 ex)
      with (IZR (Z.pos (Pos.iter xO mx d)) * p2 (fexp64 (dx + ex))).
    + apply binary_round_aux_rounds; [lia|reflexivity| |].
      * rewrite Ed'. replace (dx + Z.pos d + fexp64 (dx + ex))%Z with (dx + ex)%Z by lia.
        lia.
      * rewrite Ed'. lia.
    + rewrite Es, mult_IZR, <- p2_IZR by lia.
      replace ex with (Z.pos d + fexp64 (dx + ex))%Z at 2 by lia.
      rewrite p2_add. lra.
Qed.

Lemma rounds_to_int (z : R) (n : Z) :
  (Z.abs n < 2 ^ 53)%Z -> rounds_to (IZR n) z -> z = IZR n.
Proof.
  intros Hn H. destruct (Z.le_gt_cases 0 n) as [Hp|Hneg].
  - apply Rle_antisym.
    + apply (rounds_to_le_int (IZR n)); [exact H|lra|lia].
    + apply (rounds_to_ge_int (IZR n)); [exact H|lra|lia].
  - apply rounds_to_opp in H. rewrite <- opp_IZR in H.
    assert (- z = IZR (- n)).
    { apply Rle_antisym.
      - apply (rounds_to_le_int (IZR (- n))); [exact H|lra|lia].
      - apply (rounds_to_ge_int (IZR (- n))); [exact H|lra|lia]. }
    rewrite opp_IZR in H0. lra.
Qed.

Lemma is_infinity_finite (f : float) : finite f -> is_infinity f = false.
Proof.
  unfold finite, is_infinity. intros H. rewrite eqb_spec, abs_spec.
  destruct (Prim2SF f); try contradiction; reflexivity.
Qed.

Lemma B2R_SF2Prim (s : spec_float) :
  valid_binary s = true -> B2R (SF2Prim s) = SF2R s.
Proof. intros H. unfold B2R. rewrite Prim2SF_SF2Prim by exact H. reflexivity. Qed.

Lemma finite_SF2Prim (s : spec_float) :
  valid_binary s = true -> SFfinite s -> finite (SF2Prim s).
Proof. intros H F. unfold finite. rewrite Prim2SF_SF2Prim by exact H. exact F. Qed.

(** [float(n)] is exact below [2^53]. *)
Lemma of_int_exact (n : Z) :
  (Z.abs n < 2 ^ 53)%Z ->
  exists f, F64.of_int n = Ret f /\ finite f /\ B2R f = IZR n.
Proof.
  intros Hn. unfold F64.of_int.
  set (s := binary_normalize prec emax n 0 false).
  assert (H : SFfinite s /\ valid_binary s = true /\ SF2R s = IZR n).
  { unfold s. destruct n as [|p|p]; cbn [binary_normalize].
    - repeat split.
    - assert (Hd : (Zdigits2 (Z.pos p) + 0 <= 1023)%Z).
      { assert (Zdigits2 (Z.pos p) <= 53)%Z; [|lia].
        apply Zdigits2_le; [lia|]. rewrite p2_IZR by lia. apply IZR_lt. lia. }
      destruct (binary_round_rounds false p 0 Hd) as (F & V & Rd).
      split; [exact F|]. split; [exact V|].
      apply rounds_to_int; [exact Hn|].
      rewrite p2_0 in Rd. unfold sign in Rd.
      replace (1 * (IZR (Z.pos p) * 1)) with (IZR (Z.pos p)) in Rd by lra. exact Rd.
    - assert (Hd : (Zdigits2 (Z.pos p) + 0 <= 1023)%Z).
      { assert (Zdigits2 (Z.pos p) <= 53)%Z; [|lia].
        apply Zdigits2_le; [lia|]. rewrite p2_IZR by lia. apply IZR_lt. lia. }
      destruct (binary_round_rounds true p 0 Hd) as (F & V & Rd).
      split; [exact F|]. split; [exact V|].
      apply rounds_to_int; [exact Hn|].
      rewrite p2_0 in Rd. unfold sign in Rd.
      replace (-1 * (IZR (Z.pos p) * 1)) with (IZR (Z.neg p)) in Rd.
      + exact Rd.
      + change (Z.neg p) with (- Z.pos p)%Z. rewrite opp_IZR. lra. }
  destruct H as (F & V & E).
  exists (SF2Prim s). rewrite is_infinity_finite by (apply finite_SF2Prim; assumption).
  split; [reflexivity|]. split; [apply finite_SF2Prim; assumption|].
  rewrite B2R_SF2Prim by exact V. exact E.
Qed.


(** [int(x)] truncates toward zero. *)
Lemma int_spec (f : float) (n : Z) :
  F64.int f = Ret n ->
  finite f /\
  (0 <= B2R f -> (0 <= n)%Z /\ IZR n <= B2R f < IZR n + 1) /\
  (B2R f <= 0 -> (n <= 0)%Z /\ IZR n - 1 < B2R f <= IZR n).
Proof.
  unfold F64.int, finite, B2R.
  destruct (Prim2SF f) as [s|s| |s m e]; intros H; try discriminate.
  - injection H as <-. cbn [SF2R SFfinite]. repeat split; try lia; lra.
  - injection H as <-. split; [exact I|].
    set (a := if (0 <=? e)%Z then Z.shiftl (Z.pos m) e else Z.shiftr (Z.pos m) (- e)).
    assert (Ha : (0 <= a)%Z /\ IZR a <= IZR (Z.pos m) * p2 e < IZR a + 1).
    { unfold a. destruct (Z.leb_spec 0 e) as [He|He].
      - rewrite Z.shiftl_mul_pow2 by lia. split; [lia|].
        rewrite mult_IZR, <- p2_IZR by lia. lra.
      - rewrite Z.shiftr_div_pow2 by lia.
        assert (P : (0 < 2 ^ (- e))%Z) by (apply Z.pow_pos_nonneg; lia).
        pose proof (Z_div_mod_eq_full (Z.pos m) (2 ^ (- e))) as Hdm.
        pose proof (Z.mod_pos_bound (Z.pos m) (2 ^ (- e)) P) as Hr.
        set (q := (Z.pos m / 2 ^ (- e))%Z) in *.
        set (r := (Z.pos m mod 2 ^ (- e))%Z) in *.
        assert (Hq : (0 <= q)%Z) by (apply Z.div_pos; lia).
        split; [exact Hq|].
        assert (Pe : 0 < p2 (- e)) by apply p2_pos.
        assert (E : IZR (Z.pos m) * p2 e = IZR q + IZR r / p2 (- e)).
        { assert (Ee : p2 e = / p2 (- e)) by (rewrite <- p2_neg; f_equal; lia).
          rewrite Ee, Hdm, plus_IZR, mult_IZR, <- p2_IZR by lia. field. lra. }
        assert (Hr0 : 0 <= IZR r) by (apply IZR_le; lia).
        assert (Hr1 : IZR r < p2 (- e)) by (rewrite p2_IZR by lia; apply IZR_lt; lia).
        assert (0 <= IZR r / p2 (- e) < 1).
        { split.
          - apply Rmult_le_pos; [lra|]. left. apply Rinv_0_lt_compat. lra.
          - apply Rmult_lt_reg_r with (p2 (- e)); [lra|].
            replace (IZR r / p2 (- e) * p2 (- e)) with (IZR r) by (field; lra). lra. }
        lra. }
    destruct Ha as [Ha0 Ha]. rewrite SF2R_finite.
    assert (0 < IZR (Z.pos m) * p2 e).
    { apply Rmult_lt_0_compat; [apply IZR_lt; lia|apply p2_pos]. }
    unfold sign. destruct s.
    + rewrite opp_IZR. split; intros; [lra|]. split; [lia|lra].
    + split; intros; [|lra]. split; [lia|lra].
Qed.

Lemma int_total (f : float) : finite f -> exists n, F64.int f = Ret n.
Proof.
  unfold F64.int, finite. destruct (Prim2SF f); try contradiction; eauto.
Qed.

(** *** Comparisons *)

Lemma canonical_lt (m1 m2 : positive) (e1 e2 : Z) :
  fexp64 (Zdigits2 (Z.pos m1) + e1) = e1 ->
  fexp64 (Zdigits2 (Z.pos m2) + e2) = e2 ->
  (e1 < e2)%Z -> IZR (Z.pos m1) * p2 e1 < IZR (Z.pos m2) * p2 e2.
Proof.
  unfold fexp64. intros C1 C2 He.
  destruct (Zdigits2_spec (Z.pos m1) ltac:(lia)) as [D1 [L1 U1]].
  destruct (Zdigits2_spec (Z.pos m2) ltac:(lia)) as [D2 [L2 U2]].
  assert (Zdigits2 (Z.pos m1) <= 53)%Z by lia.
  assert (Zdigits2 (Z.pos m2) = 53)%Z by lia.
  rewrite H0 in L2. change (53 - 1)%Z with 52%Z in L2.
  assert (p2 (Zdigits2 (Z.pos m1)) <= p2 53) by (apply p2_le; lia).
  assert (p2 (53 + e1) <= p2 (52 + e2)) by (apply p2_le; lia).
  rewrite !p2_add in H2.
  pose proof (p2_pos e1). pose proof (p2_pos e2). pose proof (p2_pos 52).
  assert (IZR (Z.pos m1) * p2 e1 < p2 53 * p2 e1) by nra.
  assert (p2 52 * p2 e2 <= IZR (Z.pos m2) * p2 e2) by nra.
  lra.
Qed.

Lemma SFcompare_spec (x y : spec_float) :
  valid_binary x = true -> valid_binary y = true -> SFfinite x -> SFfinite y ->
  match SFcompare x y with
  | Some Lt => SF2R x < SF2R y
  | Some Eq => SF2R x = SF2R y
  | Some Gt => SF2R y < SF2R x
  | None => False
  end.
Proof.
  intros Vx Vy Fx Fy.
  destruct x as [sx|sx| |sx mx ex]; try contradiction;
  destruct y as [sy|sy| |sy my ey]; try contradiction; cbn [SFcompare].
  - reflexivity.
  - rewrite SF2R_finite. cbn [SF2R].
    assert (0 < IZR (Z.pos my) * p2 ey)
      by (apply Rmult_lt_0_compat; [apply IZR_lt; lia|apply p2_pos]).
    unfold sign. destruct sy; lra.
  - rewrite SF2R_finite. cbn [SF2R].
    assert (0 < IZR (Z.pos mx) * p2 ex)
      by (apply Rmult_lt_0_compat; [apply IZR_lt; lia|apply p2_pos]).
    unfold sign. destruct sx; lra.
  - rewrite !SF2R_finite.
    apply valid_canonical in Vx, Vy. destruct Vx as [Cx _], Vy as [Cy _].
    assert (Px : 0 < IZR (Z.pos mx) * p2 ex)
      by (apply Rmult_lt_0_compat; [apply IZR_lt; lia|apply p2_pos]).
    assert (Py : 0 < IZR (Z.pos my) * p2 ey)
      by (apply Rmult_lt_0_compat; [apply IZR_lt; lia|apply p2_pos]).
    change (PosDef.Pos.compare_cont Eq mx my) with (Pos.compare mx my).
    assert (Hcmp : match (ex ?= ey)%Z with
                   | Eq => match Pos.compare mx my with
                           | Eq => IZR (Z.pos mx) * p2 ex = IZR (Z.pos my) * p2 ey
                           | Lt => IZR (Z.pos mx) * p2 ex < IZR (Z.pos my) * p2 ey
                           | Gt => IZR (Z.pos my) * p2 ey < IZR (Z.pos mx) * p2 ex
                           end
                   | Lt => IZR (Z.pos mx) * p2 ex < IZR (Z.pos my) * p2 ey
                   | Gt => IZR (Z.pos my) * p2 ey < IZR (Z.pos mx) * p2 ex
                   end).
    { destruct (Z.compare_spec ex ey) as [E|L|G].
      - subst ey. pose proof (p2_pos ex).
        destruct (Pos.compare_spec mx my) as [E|L|G].
        + subst my. reflexivity.
        + assert (IZR (Z.pos mx) < IZR (Z.pos my)) by (apply IZR_lt; lia). nra.
        + assert (IZR (Z.pos my) < IZR (Z.pos mx)) by (apply IZR_lt; lia). nra.
      - apply canonical_lt; assumption.
      - apply canonical_lt; assumption. }
    unfold sign.
    destruct sx, sy; try lra;
      destruct (ex ?= ey)%Z; try lra;
      destruct (Pos.compare mx my); cbn [CompOpp]; lra.
Qed.

Lemma ltb_real (x y : float) :
  finite x -> finite y -> ((x <? y)%float = true <-> B2R x < B2R y).
Proof.
  unfold finite, B2R. intros Fx Fy. rewrite ltb_spec. unfold SFltb.
  pose proof (SFcompare_spec _ _ (Prim2SF_valid x) (Prim2SF_valid y) Fx Fy) as H.
  destruct (SFcompare (Prim2SF x) (Prim2SF y)) as [[| |]|];
    split; intros; try discriminate; try reflexivity; try lra; contradiction.
Qed.

Lemma leb_real (x y : float) :
  finite x -> finite y -> ((x <=? y)%float = true <-> B2R x <= B2R y).
Proof.
  unfold finite, B2R. intros Fx Fy. rewrite leb_spec. unfold SFleb.
  pose proof (SFcompare_spec _ _ (Prim2SF_valid x) (Prim2SF_valid y) Fx Fy) as H.
  destruct (SFcompare (Prim2SF x) (Prim2SF y)) as [[| |]|];
    split; intros; try discriminate; try reflexivity; try lra; contradiction.
Qed.

(** A float between two finite floats is finite. *)
Lemma between_finite (a u b : float) :
  finite a -> finite b ->
  (a <=? u)%float = true -> (u <=? b)%float = true -> finite u.
Proof.
  unfold finite. rewrite !leb_spec. unfold SFleb.
  destruct (Prim2SF a) as [sa|sa| |sa ma ea]; try contradiction;
  destruct (Prim2SF b) as [sb|sb| |sb mb eb]; try contradiction;
  destruct (Prim2SF u) as [su|[|]| |su mu eu]; cbn [SFcompare SFfinite];
    intros _ _ H1 H2; try exact I; try discriminate;
    try destruct sa; try destruct sb; discriminate.
Qed.

(** [x > n] and [n > x] compare the exact values. *)
Lemma SF2R_signed (s : bool) (m : positive) (e : Z) :
  SF2R (S754_finite s m e) = IZR (if s then Z.neg m else Z.pos m) * p2 e.
Proof.
  rewrite SF2R_finite. unfold sign. destruct s; [|lra].
  change (Z.neg m) with (- Z.pos m)%Z. rewrite opp_IZR. lra.
Qed.

Lemma gt_int_real (f : float) (n : Z) :
  finite f -> (F64.gt_int f n = true <-> IZR n < B2R f).
Proof.
  unfold finite, B2R, F64.gt_int.
  destruct (Prim2SF f) as [s|s| |s m e]; try contradiction; intros _.
  - cbn [SF2R]. rewrite Z.ltb_lt. split; [apply IZR_lt|apply lt_IZR].
  - rewrite SF2R_signed. set (a := if s then Z.neg m else Z.pos m).
    destruct (Z.leb_spec 0 e) as [He|He]; rewrite Z.ltb_lt.
    + rewrite Z.shiftl_mul_pow2 by lia.
      rewrite p2_IZR, <- mult_IZR by lia. split; [apply IZR_lt|apply lt_IZR].
    + rewrite Z.shiftl_mul_pow2 by lia.
      pose proof (p2_pos e) as Pe.
      assert (E : IZR (n * 2 ^ (- e)) = IZR n / p2 e).
      { rewrite mult_IZR, <- p2_IZR, p2_neg by lia. reflexivity. }
      split; intros H.
      * apply IZR_lt in H. rewrite E in H.
        apply Rmult_lt_reg_r with (/ p2 e); [apply Rinv_0_lt_compat; lra|].
        replace (IZR a * p2 e * / p2 e) with (IZR a) by (field; lra). exact H.
      * apply lt_IZR. rewrite E.
        apply Rmult_lt_reg_r with (p2 e); [lra|].
        replace (IZR n / p2 e * p2 e) with (IZR n) by (field; lra). exact H.
Qed.

(** *** Division *)

Lemma SF2R_finite_neq0 (s : bool) (m : positive) (e : Z) :
  SF2R (S754_finite s m e) <> 0.
Proof.
  rewrite SF2R_finite.
  assert (0 < IZR (Z.pos m) * p2 e)
    by (apply Rmult_lt_0_compat; [apply IZR_lt; lia|apply p2_pos]).
  unfold sign. destruct s; lra.
Qed.

Lemma SFdiv_rounds_gen (x y : spec_float) :
  SFfinite x -> SFfinite y -> SF2R y <> 0 ->
  (SF2R x = 0 \/ p2 (-1021) <= Rabs (SF2R x / SF2R y) < p2 1023) ->
  SFfinite (SFdiv prec emax x y) /\
  valid_binary (SFdiv prec emax x y) = true /\
  rounds_to (SF2R x / SF2R y) (SF2R (SFdiv prec emax x y)).
Proof.
  intros Fx Fy Hy Hr.
  destruct y as [sy|sy| |sy my ey]; try contradiction.
  destruct x as [sx|sx| |sx mx ex]; try contradiction.
  - cbn [SFdiv SF2R SFfinite]. split; [exact I|]. split; [reflexivity|].
    unfold Rdiv. rewrite Rmult_0_l. apply rounds_to_0.
  - destruct Hr as [Hz|Hr]; [exfalso; exact (SF2R_finite_neq0 _ _ _ Hz)|].
    exact (SFdiv_rounds sx sy mx my ex ey Hr).
Qed.

Lemma truediv_rounds (x y : float) :
  finite x -> finite y -> B2R y <> 0 ->
  (B2R x = 0 \/ p2 (-1021) <= Rabs (B2R x / B2R y) < p2 1023) ->
  exists q, F64.truediv x y = Ret q /\ finite q /\
            rounds_to (B2R x / B2R y) (B2R q).
Proof.
  unfold finite, B2R, F64.truediv. intros Fx Fy Hy Hr.
  rewrite eqb_spec.
  assert (E : SFeqb (Prim2SF y) (Prim2SF 0) = false).
  { destruct (Prim2SF y) as [sy|sy| |sy my ey]; try contradiction.
    destruct sy; reflexivity. }
  rewrite E. eexists. split; [reflexivity|].
  rewrite div_spec.
  destruct (SFdiv_rounds_gen _ _ Fx Fy Hy Hr) as (F & _ & Rd).
  split; [exact F|exact Rd].
Qed.

Lemma int_truediv_rounds (a b : Z) :
  b <> 0%Z ->
  (a = 0%Z \/ p2 (-1021) <= Rabs (IZR a / IZR b) < p2 1023) ->
  exists q, F64.int_truediv a b = Ret q /\ finite q /\
            rounds_to (IZR a / IZR b) (B2R q).
Proof.
  intros Hb Hr. unfold F64.int_truediv.
  destruct (Z.eqb_spec b 0) as [|_]; [contradiction|].
  set (sf := fun n : Z => match n with
                          | 0%Z => S754_zero false
                          | Z.pos p => S754_finite false p 0
                          | Z.neg p => S754_finite true p 0
                          end).
  assert (Esf : forall n, SFfinite (sf n) /\ SF2R (sf n) = IZR n).
  { intros [|p|p]; cbn [sf SFfinite]; (split; [exact I|]).
    - reflexivity.
    - rewrite SF2R_signed, p2_0. lra.
    - rewrite SF2R_signed, p2_0. lra. }
  destruct (Esf a) as [Fa Ea], (Esf b) as [Fb Eb].
  assert (Hb' : SF2R (sf b) <> 0).
  { rewrite Eb. intros H. apply eq_IZR in H. contradiction. }
  assert (Hr' : SF2R (sf a) = 0 \/
                p2 (-1021) <= Rabs (SF2R (sf a) / SF2R (sf b)) < p2 1023).
  { rewrite Ea, Eb. destruct Hr as [->|Hr]; [left; reflexivity|right; exact Hr]. }
  destruct (SFdiv_rounds_gen _ _ Fa Fb Hb' Hr') as (F & V & Rd).
  rewrite Ea, Eb in Rd.
  change (SF64div (sf a) (sf b)) with (SFdiv prec emax (sf a) (sf b)).
  exists (SF2Prim (SFdiv prec emax (sf a) (sf b))).
  rewrite is_infinity_finite by (apply finite_SF2Prim; assumption).
  split; [reflexivity|]. split; [apply finite_SF2Prim; assumption|].
  rewrite B2R_SF2Prim by exact V. exact Rd.
Qed.

(** The quotient of two integers below [2^53] is in the normal range. *)
Lemma int_quotient_range (a b : Z) :
  (Z.abs a < 2 ^ 53)%Z -> (0 < Z.abs b < 2 ^ 53)%Z ->
  a = 0%Z \/ p2 (-1021) <= Rabs (IZR a / IZR b) < p2 1023.
Proof.
  intros Ha Hb. destruct (Z.eq_dec a 0) as [|Hn]; [left; assumption|right].
  unfold Rdiv. rewrite Rabs_mult, Rabs_inv, <- !abs_IZR.
  assert (A1 : 1 <= IZR (Z.abs a)) by (apply IZR_le; lia).
  assert (A2 : IZR (Z.abs a) <= p2 53) by (rewrite p2_IZR by lia; apply IZR_le; lia).
  assert (B1 : 1 <= IZR (Z.abs b)) by (apply IZR_le; lia).
  assert (B2 : IZR (Z.abs b) <= p2 53) by (rewrite p2_IZR by lia; apply IZR_le; lia).
  set (x := IZR (Z.abs a)) in *. set (y := IZR (Z.abs b)) in *.
  assert (Iy : p2 (-53) <= / y <= 1).
  { split.
    - replace (p2 (-53)) with (/ p2 53) by (symmetry; apply (p2_neg 53)).
      apply Rinv_le_contravar; lra.
    - rewrite <- Rinv_1. apply Rinv_le_contravar; lra. }
  assert (p2 (-1021) <= p2 (-53)) by (apply p2_le; lia).
  assert (p2 53 < p2 1023) by (apply p2_lt; lia).
  pose proof (p2_pos (-53)). pose proof (p2_pos (-1021)).
  split; nra.
Qed.

End FloatFacts.

(** ** The flowing layout *)

Module LayoutFacts.

Import Binary64 Shapes RoundingFacts FloatFacts.
Local Open Scope R_scope.

Lemma int_mul_rounds (n : Z) (x : float) :
  (Z.abs n < 2 ^ 53)%Z -> finite x -> Rabs (IZR n * B2R x) < p2 1023 ->
  exists p, F64.int_mul n x = Ret p /\ finite p /\
            rounds_to (IZR n * B2R x) (B2R p).
Proof.
  intros Hn Fx Hb. destruct (of_int_exact n Hn) as (f & Ef & Ff & Vf).
  unfold F64.int_mul. rewrite Ef. cbn [obind]. eexists. split; [reflexivity|].
  rewrite <- Vf in *. apply mul_rounds; assumption.
Qed.

Lemma div_int_rounds (x : float) (n : Z) :
  finite x -> (0 < Z.abs n < 2 ^ 53)%Z ->
  (B2R x = 0 \/ p2 (-1021) <= Rabs (B2R x / IZR n) < p2 1023) ->
  exists q, F64.div_int x n = Ret q /\ finite q /\
            rounds_to (B2R x / IZR n) (B2R q).
Proof.
  intros Fx Hn Hr. destruct (of_int_exact n ltac:(lia)) as (f & Ef & Ff & Vf).
  unfold F64.div_int. rewrite Ef. cbn [obind]. rewrite <- Vf in *.
  apply truediv_rounds; try assumption.
  rewrite Vf. intros H. apply eq_IZR in H. lia.
Qed.

Lemma int_div_rounds (n : Z) (x : float) :
  (Z.abs n < 2 ^ 53)%Z -> finite x -> B2R x <> 0 ->
  (n = 0%Z \/ p2 (-1021) <= Rabs (IZR n / B2R x) < p2 1023) ->
  exists q, F64.int_div n x = Ret q /\ finite q /\
            rounds_to (IZR n / B2R x) (B2R q).
Proof.
  intros Hn Fx Hx Hr. destruct (of_int_exact n Hn) as (f & Ef & Ff & Vf).
  unfold F64.int_div. rewrite Ef. cbn [obind]. rewrite <- Vf in *.
  apply truediv_rounds; try assumption.
  destruct Hr as [->|Hr]; [left; rewrite Vf; reflexivity|right; exact Hr].
Qed.

(** The float constants of the source. *)
Lemma p2_m53 : p2 (-53) = / 9007199254740992.
Proof. replace (p2 (-53)) with (/ p2 53) by (symmetry; apply (p2_neg 53)).
  rewrite p2_IZR by lia. reflexivity. Qed.

Lemma B2R_0_75 : finite 0.75 /\ B2R 0.75 = 3 / 4.
Proof.
  unfold finite, B2R.
  replace (Prim2SF 0.75) with (S754_finite false 6755399441055744 (-53))
    by (vm_compute; reflexivity).
  split; [exact I|]. rewrite SF2R_finite, p2_m53. unfold sign. lra.
Qed.

Lemma B2R_0_9 : finite 0.9 /\ B2R 0.9 = 8106479329266893 / 9007199254740992.
Proof.
  unfold finite, B2R.
  replace (Prim2SF 0.9) with (S754_finite false 8106479329266893 (-53))
    by (vm_compute; reflexivity).
  split; [exact I|]. rewrite SF2R_finite, p2_m53. unfold sign. lra.
Qed.

Lemma B2R_2_5 : finite 2.5 /\ B2R 2.5 = 5 / 2.
Proof.
  unfold finite, B2R.
  replace (Prim2SF 2.5) with (S754_finite false 5629499534213120 (-51))
    by (vm_compute; reflexivity).
  split; [exact I|]. rewrite SF2R_finite. unfold sign.
  replace (p2 (-51)) with (4 * p2 (-53)).
  - rewrite p2_m53. lra.
  - replace (-51)%Z with (-53 + 1 + 1)%Z by lia. rewrite !p2_succ. lra.
Qed.


Lemma p2_m1075_small : 0 < p2 (-1075) <= p2 (-53).
Proof. split; [apply p2_pos|apply p2_le; lia]. Qed.

Lemma p2_53_val : p2 53 = 9007199254740992.
Proof. rewrite p2_IZR by lia. reflexivity. Qed.

(** Magnitude of a rounding. *)
Lemma rounds_to_abs_le (X z B : R) :
  rounds_to X z -> Rabs X <= B -> Rabs z <= 2 * B + p2 (-53).
Proof.
  intros H HB. pose proof (rounds_to_error _ _ H) as He.
  pose proof p2_m1075_small as [Pe Le]. rewrite p2_m53 in *.
  pose proof (Rabs_pos X) as PX.
  assert (Tr : Rabs z <= Rabs X + Rabs (z - X)).
  { replace z with (X + (z - X)) at 1 by lra. apply Rabs_triang. }
  nra.
Qed.

(** Arithmetic of the fit, kept apart from the float reasoning. *)
Lemma product_below_overflow (a b : R) :
  0 <= a <= p2 60 -> 0 <= b <= p2 60 -> a * b < p2 1023.
Proof.
  intros Ha Hb.
  assert (P1023 : p2 120 < p2 1023) by (apply p2_lt; lia).
  assert (P120 : p2 120 = p2 60 * p2 60) by (rewrite <- p2_add; reflexivity).
  assert (a * b <= p2 60 * p2 60) by (apply Rmult_le_compat; lra).
  lra.
Qed.

Lemma fit_after_shrink (T F s0 X e eta : R) :
  0 < T -> 0 <= F -> 0 < e -> 0 < eta -> X * T = F -> s0 <= X * (1 + e) ->
  T * s0 <= (F + eta) * (1 + 2 * e).
Proof.
  intros HT HF He Heta HX Hs.
  assert (T * s0 <= T * (X * (1 + e))) by (apply Rmult_le_compat_l; lra).
  replace (T * (X * (1 + e))) with (F * (1 + e)) in H by (rewrite <- HX; ring).
  nra.
Qed.

Lemma fit_without_shrink (X F e eta : R) :
  0 < X -> 0 < eta -> e = / 9007199254740992 ->
  X * (1 - e) <= F + eta -> X <= (F + eta) * (1 + 2 * e).
Proof. intros HX Heta -> H. nra. Qed.

Lemma fit_clamped (T s0 c B : R) :
  0 <= T -> c <= s0 -> T * s0 <= B -> T * c <= B.
Proof.
  intros HT Hc H. apply Rle_trans with (T * s0); [|exact H].
  apply Rmult_le_compat_l; assumption.
Qed.

(** The scale factor exists, is at most 2.5, and a positive one makes the
    original total width fit the field, up to the rounding of the
    division. *)
Lemma scale_factor_spec (fw fh max_h T : Z) (u : float) :
  (0.75 <=? u)%float = true -> (u <=? 0.9)%float = true ->
  (Z.abs (fh - 6) < 2 ^ 50)%Z -> (0 < max_h < 2 ^ 50)%Z ->
  (0 < T < 2 ^ 50)%Z -> (Z.abs (fw - 10) < 2 ^ 50)%Z ->
  exists s,
    Company.scale_factor fw fh max_h T u = Ret s /\ finite s /\
    - p2 60 <= B2R s <= 5 / 2 /\
    (0 < B2R s ->
     (0 <= fw - 10)%Z /\
     IZR T * B2R s <= (IZR (fw - 10) + p2 (-1075)) * (1 + p2 (-52))).
Proof.
  intros Hu1 Hu2 Hfh Hmh HT HF.
  destruct B2R_0_75 as [F075 V075], B2R_0_9 as [F09 V09], B2R_2_5 as [F25 V25].
  assert (Fu : finite u) by (eapply between_finite; [exact F075|exact F09|eassumption..]).
  apply leb_real in Hu1; [|assumption..]. apply leb_real in Hu2; [|assumption..].
  rewrite V075 in Hu1. rewrite V09 in Hu2.
  pose proof p2_m1075_small as [Pe He]. pose proof p2_m53 as E53.
  set (eta := p2 (-1075)) in *.
  assert (E52 : p2 (-52) = 2 * p2 (-53)) by (rewrite <- p2_succ; reflexivity).
  assert (B50 : forall n : Z, (Z.abs n < 2 ^ 50)%Z -> Rabs (IZR n) <= 1125899906842624).
  { intros n Hn. rewrite <- abs_IZR. apply IZR_le. lia. }
  assert (L1 : forall n : Z, (0 < Z.abs n)%Z -> 1 <= Rabs (IZR n)).
  { intros n Hn. rewrite <- abs_IZR. apply IZR_le. lia. }
  assert (P1023 : p2 120 < p2 1023) by (apply p2_lt; lia).
  assert (P120 : p2 120 = p2 60 * p2 60) by (rewrite <- p2_add; reflexivity).
  assert (P60 : p2 60 = 1152921504606846976) by (rewrite p2_IZR by lia; reflexivity).
  assert (Pm1021 : p2 (-1021) <= p2 (-60)) by (apply p2_le; lia).
  assert (Pm60 : p2 (-60) = / 1152921504606846976).
  { replace (p2 (-60)) with (/ p2 60) by (symmetry; apply (p2_neg 60)).
    rewrite P60. reflexivity. }
  assert (Pm1022 : p2 (-1022) <= p2 (-60)) by (apply p2_le; lia).
  assert (P60lt : p2 60 < p2 1023) by (apply p2_lt; lia).
  unfold Company.scale_factor.
  (* target_height_px = (field_height - 6) * u *)
  pose proof (B50 _ Hfh) as Bfh.
  assert (Hb1 : Rabs (IZR (fh - 6) * B2R u) <= 1125899906842624).
  { rewrite Rabs_mult, (Rabs_pos_eq (B2R u)) by lra.
    pose proof (Rabs_pos (IZR (fh - 6))). nra. }
  destruct (int_mul_rounds (fh - 6) u ltac:(lia) Fu ltac:(lra))
    as (thp & E1 & F1 & R1).
  rewrite E1. cbn [obind].
  pose proof (rounds_to_abs_le _ _ _ R1 Hb1) as A1.
  assert (Z1 : B2R thp = 0 \/ / 4 <= Rabs (B2R thp)).
  { destruct (Z.eq_dec (fh - 6) 0) as [Hz|Hnz].
    - left. rewrite Hz in R1. rewrite Rmult_0_l in R1. apply rounds_to_zero. exact R1.
    - right. assert (Hl : 1 <= Rabs (IZR (fh - 6))) by (apply L1; lia).
      assert (Hx : 3 / 4 <= Rabs (IZR (fh - 6) * B2R u)).
      { rewrite Rabs_mult, (Rabs_pos_eq (B2R u)) by lra. nra. }
      pose proof (rounds_to_relative _ _ R1 ltac:(lra)) as Hr.
      set (X := IZR (fh - 6) * B2R u) in *.
      assert (Rabs X <= Rabs (B2R thp) + Rabs (B2R thp - X)).
      { replace X with (B2R thp - (B2R thp - X)) at 1 by lra.
        unfold Rminus at 1. eapply Rle_trans; [apply Rabs_triang|].
        rewrite Rabs_Ropp. lra. }
      nra. }
  (* scale_factor = target_height_px / max_h *)
  assert (Bmh : 1 <= IZR max_h <= 1125899906842624).
  { split; [apply IZR_le; lia|apply IZR_le; lia]. }
  assert (Imh : / 1125899906842624 <= / IZR max_h <= 1).
  { split; [apply Rinv_le_contravar; lra|].
    rewrite <- Rinv_1. apply Rinv_le_contravar; lra. }
  assert (Hq : Rabs (B2R thp / IZR max_h) = Rabs (B2R thp) * / IZR max_h).
  { unfold Rdiv. rewrite Rabs_mult, Rabs_inv, (Rabs_pos_eq (IZR max_h)) by lra.
    reflexivity. }
  assert (Hb2 : Rabs (B2R thp / IZR max_h) <= 2 * 1125899906842624 + p2 (-53)).
  { rewrite Hq. pose proof (Rabs_pos (B2R thp)). nra. }
  assert (Hr2 : B2R thp = 0 \/
                p2 (-1021) <= Rabs (B2R thp / IZR max_h) < p2 1023).
  { destruct Z1 as [Hz|Hnz]; [left; exact Hz|right]. rewrite Hq.
    pose proof (p2_pos (-1021)). split; nra. }
  destruct (div_int_rounds thp max_h F1 ltac:(lia) Hr2) as (s1 & E2 & F2 & R2).
  rewrite E2. cbn [obind].
  pose proof (rounds_to_abs_le _ _ _ R2 Hb2) as A2.
  (* expected_width = original_total_width * scale_factor *)
  assert (BT : 1 <= IZR T <= 1125899906842624).
  { split; [apply IZR_le; lia|apply IZR_le; lia]. }
  assert (Hb3 : Rabs (IZR T * B2R s1) < p2 1023).
  { rewrite Rabs_mult, (Rabs_pos_eq (IZR T)) by lra.
    pose proof (Rabs_pos (B2R s1)).
    apply product_below_overflow; lra. }
  destruct (int_mul_rounds T s1 ltac:(lia) F2 Hb3) as (ew & E3 & F3 & R3).
  rewrite E3. cbn [obind].
  (* the shrink *)
  assert (Hs0 : exists s0,
    (if F64.gt_int ew (fw - 10) then F64.int_truediv (fw - 10) T else Ret s1)
    = Ret s0 /\ finite s0 /\ Rabs (B2R s0) <= p2 60 /\
    (0 < B2R s0 ->
     (0 <= fw - 10)%Z /\
     IZR T * B2R s0 <= (IZR (fw - 10) + eta) * (1 + p2 (-52)))).
  { destruct (F64.gt_int ew (fw - 10)) eqn:G.
    - assert (HT0 : T <> 0%Z) by lia.
      assert (Hrange : (fw - 10 = 0)%Z \/
                p2 (-1021) <= Rabs (IZR (fw - 10) / IZR T) < p2 1023)
        by (apply int_quotient_range; lia).
      destruct (int_truediv_rounds (fw - 10) T HT0 Hrange) as (s0 & E4 & F4 & R4).
      exists s0. split; [exact E4|]. split; [exact F4|].
      pose proof (B50 _ HF) as BF.
      assert (IT : / IZR T <= 1).
      { rewrite <- Rinv_1. apply Rinv_le_contravar; lra. }
      assert (IT0 : 0 < / IZR T) by (apply Rinv_0_lt_compat; lra).
      assert (Hq4 : Rabs (IZR (fw - 10) / IZR T) <= 1125899906842624).
      { unfold Rdiv. rewrite Rabs_mult, Rabs_inv, (Rabs_pos_eq (IZR T)) by lra.
        pose proof (Rabs_pos (IZR (fw - 10))). nra. }
      pose proof (rounds_to_abs_le _ _ _ R4 Hq4) as A4.
      split; [lra|]. intros Hpos.
      assert (HFpos : (0 < fw - 10)%Z).
      { destruct (Z.lt_ge_cases 0 (fw - 10)) as [|Hle]; [assumption|exfalso].
        assert (IZR (fw - 10) <= 0) by (apply IZR_le; lia).
        assert (IZR (fw - 10) / IZR T <= 0) by (unfold Rdiv; nra).
        pose proof (rounds_to_nonpos _ _ R4 H0). lra. }
      split; [lia|].
      assert (HF1 : 1 <= IZR (fw - 10)) by (apply IZR_le; lia).
      set (X := IZR (fw - 10) / IZR T) in *.
      assert (HX : X * IZR T = IZR (fw - 10)) by (unfold X; field; lra).
      assert (HXlo : / 1125899906842624 <= X).
      { assert (/ 1125899906842624 <= / IZR T) by (apply Rinv_le_contravar; lra).
        unfold X, Rdiv. apply Rle_trans with (1 * / IZR T); [lra|].
        apply Rmult_le_compat_r; lra. }
      assert (HXn : p2 (-1022) <= Rabs X).
      { rewrite Rabs_pos_eq by lra. lra. }
      pose proof (rounds_to_relative _ _ R4 HXn) as Hrel.
      rewrite (Rabs_pos_eq X) in Hrel by lra. apply Rabs_le_iff in Hrel.
      assert (B2R s0 <= X * (1 + p2 (-53))) by lra.
      rewrite E52.
      apply (fit_after_shrink _ _ _ X); try assumption; try lra;
        try apply p2_pos.
    - exists s1. split; [reflexivity|]. split; [exact F2|]. split; [lra|].
      intros Hpos.
      assert (Hle : B2R ew <= IZR (fw - 10)).
      { destruct (Rle_lt_dec (B2R ew) (IZR (fw - 10))) as [|Hlt]; [assumption|].
        apply (gt_int_real ew (fw - 10) F3) in Hlt. congruence. }
      set (X := IZR T * B2R s1) in *.
      assert (HX0 : 0 < X) by (unfold X; nra).
      pose proof (rounds_to_nonneg _ _ R3 ltac:(lra)) as Hew.
      split; [apply le_IZR; lra|].
      pose proof (rounds_to_error _ _ R3) as Herr. fold eta in Herr.
      rewrite (Rabs_pos_eq X) in Herr by lra. apply Rabs_le_iff in Herr.
      assert (X * (1 - p2 (-53)) <= IZR (fw - 10) + eta) by lra.
      rewrite E52. apply fit_without_shrink; assumption. }
  destruct Hs0 as (s0 & E4 & F4 & A4 & Hfit).
  rewrite E4. cbn [obind]. eexists. split; [reflexivity|].
  unfold F64.min.
  destruct (s0 <? 2.5)%float eqn:Hlt.
  - apply (ltb_real s0 2.5 F4 F25) in Hlt. rewrite V25 in Hlt.
    apply Rabs_le_iff in A4.
    split; [exact F4|]. split; [lra|]. exact Hfit.
  - assert (Hge : 5 / 2 <= B2R s0).
    { destruct (Rle_lt_dec (5 / 2) (B2R s0)) as [|Hc]; [assumption|].
      rewrite <- V25 in Hc. apply (ltb_real s0 2.5 F4 F25) in Hc. congruence. }
    split; [exact F25|]. rewrite V25. split; [lra|]. intros _.
    destruct (Hfit ltac:(lra)) as [HF0 Hb]. split; [exact HF0|].
    apply (fit_clamped _ (B2R s0)); [lra|exact Hge|exact Hb].
Qed.


(** One scaled length [int(w * scale)], for a positive scale. *)
Lemma scaled_length_bound (w : Z) (s p : float) (n : Z) :
  (0 <= w < 2 ^ 50)%Z -> finite s -> 0 < B2R s <= 5 / 2 ->
  F64.int_mul w s = Ret p -> F64.int p = Ret n ->
  (0 <= n)%Z /\ IZR n <= IZR w * (B2R s * (1 + p2 (-53))).
Proof.
  intros Hw Fs Hs Ep En.
  assert (Bw : 0 <= IZR w <= 1125899906842624).
  { split; apply IZR_le; lia. }
  assert (P60lt : p2 60 < p2 1023) by (apply p2_lt; lia).
  assert (P60 : p2 60 = 1152921504606846976) by (rewrite p2_IZR by lia; reflexivity).
  assert (Hb : Rabs (IZR w * B2R s) < p2 1023).
  { rewrite Rabs_pos_eq by nra. nra. }
  destruct (int_mul_rounds w s ltac:(lia) Fs Hb) as (p' & Ep' & Fp & Rp).
  rewrite Ep in Ep'. injection Ep' as <-.
  set (X := IZR w * B2R s) in *.
  assert (HX : 0 <= X) by (unfold X; nra).
  pose proof (rounds_to_nonneg _ _ Rp HX) as Hp.
  destruct (int_spec _ _ En) as (_ & Hpos & _).
  destruct (Hpos Hp) as [Hn [Hlo Hhi]]. split; [exact Hn|].
  pose proof p2_m53 as E53. pose proof p2_m1075_small as [Pe He].
  replace (IZR w * (B2R s * (1 + p2 (-53)))) with (X * (1 + p2 (-53)))
    by (unfold X; ring).
  destruct (Rle_lt_dec (p2 (-1022)) X) as [Hnorm|Hsub].
  - pose proof (rounds_to_relative _ _ Rp) as Hrel.
    rewrite (Rabs_pos_eq X) in Hrel by lra.
    specialize (Hrel Hnorm). apply Rabs_le_iff in Hrel. lra.
  - pose proof (rounds_to_error _ _ Rp) as Herr.
    rewrite (Rabs_pos_eq X) in Herr by lra. apply Rabs_le_iff in Herr.
    assert (p2 (-1022) <= p2 (-53)) by (apply p2_le; lia).
    rewrite E53 in *.
    assert (IZR n < IZR 1) by nra.
    apply lt_IZR in H0. assert (n = 0%Z) by lia. subst n. nra.
Qed.

(** With a scale that is not positive no scaled length is positive. *)
Lemma scaled_length_nonpos (w : Z) (s p : float) (n : Z) :
  (0 <= w < 2 ^ 50)%Z -> finite s -> - p2 60 <= B2R s <= 0 ->
  F64.int_mul w s = Ret p -> F64.int p = Ret n -> (n <= 0)%Z.
Proof.
  intros Hw Fs Hs Ep En.
  assert (Bw : 0 <= IZR w <= 1125899906842624).
  { split; apply IZR_le; lia. }
  assert (P120lt : p2 120 < p2 1023) by (apply p2_lt; lia).
  assert (P120 : p2 120 = p2 60 * p2 60) by (rewrite <- p2_add; reflexivity).
  assert (P60 : p2 60 = 1152921504606846976) by (rewrite p2_IZR by lia; reflexivity).
  assert (Hb : Rabs (IZR w * B2R s) < p2 1023).
  { replace (IZR w * B2R s) with (- (IZR w * - B2R s)) by ring.
    rewrite Rabs_Ropp, Rabs_pos_eq by nra. nra. }
  destruct (int_mul_rounds w s ltac:(lia) Fs Hb) as (p' & Ep' & Fp & Rp).
  rewrite Ep in Ep'. injection Ep' as <-.
  assert (HX : IZR w * B2R s <= 0) by nra.
  pose proof (rounds_to_nonpos _ _ Rp HX) as Hp.
  destruct (int_spec _ _ En) as (_ & _ & Hneg).
  destruct (Hneg Hp) as [Hn _]. exact Hn.
Qed.

(** A zero length stays zero whatever the scale. *)
Lemma scaled_length_zero (s p : float) (n : Z) :
  F64.int_mul 0 s = Ret p -> F64.int p = Ret n -> n = 0%Z.
Proof.
  intros Ep En.
  destruct (of_int_exact 0 ltac:(lia)) as (f & Ef & Ff & Vf).
  unfold F64.int_mul in Ep. rewrite Ef in Ep. cbn [obind] in Ep.
  injection Ep as <-.
  destruct (int_spec _ _ En) as (Fp & Hpos & Hneg).
  assert (B2R (f * s) = 0).
  { unfold finite, B2R in *. rewrite mul_spec in *.
    destruct (Prim2SF f) as [sf|sf| |sf mf ef]; try contradiction.
    - destruct (Prim2SF s); cbn in Fp |- *; try contradiction; reflexivity.
    - exfalso. exact (SF2R_finite_neq0 _ _ _ Vf). }
  destruct (Hpos ltac:(lra)) as [H1 _]. destruct (Hneg ltac:(lra)) as [H2 _]. lia.
Qed.

Lemma sum_nonneg (l : list Z) : Forall (fun x => (0 <= x)%Z) l -> (0 <= Py.sum l)%Z.
Proof.
  induction 1 as [|x l Hx _ IH]; cbn [Py.sum fold_right]; [lia|].
  unfold Py.sum in IH. lia.
Qed.

Lemma sum_cons (x : Z) (l : list Z) : Py.sum (x :: l) = (x + Py.sum l)%Z.
Proof. reflexivity. Qed.

Lemma scale_masks_sum (E : env) (s : float) (masks : list image) :
  finite s -> 0 < B2R s <= 5 / 2 ->
  Forall (fun m => (0 <= width m < 2 ^ 50)%Z) masks ->
  forall data, Company.scale_masks E s masks = Ret data ->
  Forall (fun x => (0 <= x)%Z) (widths data) /\
  IZR (Py.sum (widths data))
  <= IZR (Py.sum (map width masks)) * (B2R s * (1 + p2 (-53))).
Proof.
  intros Fs Hs Hall. pose proof (p2_pos (-53)) as P53.
  induction Hall as [|mask rest Hw _ IH]; intros data H.
  - injection H as <-. cbn. split; [constructor|lra].
  - cbn [Company.scale_masks] in H.
    destruct (F64.int_mul (width mask) s) as [pw|] eqn:E1; [|discriminate].
    cbn [obind] in H.
    destruct (F64.int pw) as [nw|] eqn:E2; [|discriminate]. cbn [obind] in H.
    destruct (F64.int_mul (height mask) s) as [ph|] eqn:E3; [|discriminate].
    cbn [obind] in H.
    destruct (F64.int ph) as [nh|] eqn:E4; [|discriminate]. cbn [obind] in H.
    destruct (scaled_length_bound _ _ _ _ Hw Fs Hs E1 E2) as [Hn Hb].
    cbn [map]. rewrite sum_cons, plus_IZR.
    assert (0 <= IZR nw) by (apply IZR_le; lia).
    destruct ((nw =? 0)%Z || (nh =? 0)%Z).
    + destruct (IH _ H) as [IH1 IH2]. split; [exact IH1|]. nra.
    + destruct (resize E mask nw nh) as [m|]; [|discriminate]. cbn [obind] in H.
      destruct (Company.scale_masks E s rest) as [ms|]; [|discriminate].
      cbn [obind] in H. injection H as <-.
      destruct (IH _ eq_refl) as [IH1 IH2].
      unfold widths in *. cbn [map fst snd]. rewrite sum_cons, plus_IZR.
      split; [constructor; assumption|]. nra.
Qed.

Lemma scale_masks_nonpos (E : env) (s : float) (masks : list image) :
  finite s -> - p2 60 <= B2R s <= 0 ->
  Forall (fun m => (0 <= width m < 2 ^ 50)%Z) masks ->
  forall data, Company.scale_masks E s masks = Ret data -> data = [].
Proof.
  intros Fs Hs Hall.
  induction Hall as [|mask rest Hw _ IH]; intros data H.
  - injection H as <-. reflexivity.
  - cbn [Company.scale_masks] in H.
    destruct (F64.int_mul (width mask) s) as [pw|] eqn:E1; [|discriminate].
    cbn [obind] in H.
    destruct (F64.int pw) as [nw|] eqn:E2; [|discriminate]. cbn [obind] in H.
    destruct (F64.int_mul (height mask) s) as [ph|] eqn:E3; [|discriminate].
    cbn [obind] in H.
    destruct (F64.int ph) as [nh|] eqn:E4; [|discriminate]. cbn [obind] in H.
    pose proof (scaled_length_nonpos _ _ _ _ Hw Fs Hs E1 E2) as Hn.
    destruct (Z.eqb_spec nw 0) as [Hz|Hnz]; cbn [orb] in H.
    + exact (IH _ H).
    + destruct ((nh =? 0)%Z); [exact (IH _ H)|].
      unfold resize in H.
      destruct (Z.eqb_spec nw (width mask)) as [Heq|_]; [lia|].
      cbn [andb] in H.
      destruct (Z.ltb_spec nw 1) as [_|Hge]; [|lia].
      cbn [orb obind] in H. discriminate.
Qed.

Lemma scale_masks_zero (E : env) (s : float) (masks : list image) :
  Forall (fun m => width m = 0%Z) masks ->
  forall data, Company.scale_masks E s masks = Ret data -> data = [].
Proof.
  intros Hall.
  induction Hall as [|mask rest Hw _ IH]; intros data H.
  - injection H as <-. reflexivity.
  - cbn [Company.scale_masks] in H. rewrite Hw in H.
    destruct (F64.int_mul 0 s) as [pw|] eqn:E1; [|discriminate].
    cbn [obind] in H.
    destruct (F64.int pw) as [nw|] eqn:E2; [|discriminate]. cbn [obind] in H.
    destruct (F64.int_mul (height mask) s) as [ph|] eqn:E3; [|discriminate].
    cbn [obind] in H.
    destruct (F64.int ph) as [nh|] eqn:E4; [|discriminate]. cbn [obind] in H.
    rewrite (scaled_length_zero _ _ _ E1 E2) in H. cbn in H.
    exact (IH _ H).
Qed.

Lemma scale_spacings_sum (s : float) (spacings : list Z) :
  finite s -> 0 < B2R s <= 5 / 2 ->
  Forall (fun x => (0 <= x < 2 ^ 50)%Z) spacings ->
  forall sp, Company.scale_spacings s spacings = Ret sp ->
  Forall (fun x => (0 <= x)%Z) sp /\
  IZR (Py.sum sp) <= IZR (Py.sum spacings) * (B2R s * (1 + p2 (-53))).
Proof.
  intros Fs Hs Hall.
  induction Hall as [|x rest Hx _ IH]; intros sp H.
  - injection H as <-. cbn. split; [constructor|lra].
  - cbn [Company.scale_spacings] in H.
    destruct (F64.int_mul x s) as [p|] eqn:E1; [|discriminate]. cbn [obind] in H.
    destruct (F64.int p) as [n|] eqn:E2; [|discriminate]. cbn [obind] in H.
    destruct (Company.scale_spacings s rest) as [ns|]; [|discriminate].
    cbn [obind] in H. injection H as <-.
    destruct (scaled_length_bound _ _ _ _ Hx Fs Hs E1 E2) as [Hn Hb].
    destruct (IH _ eq_refl) as [IH1 IH2].
    rewrite !sum_cons, !plus_IZR. split; [constructor; assumption|]. nra.
Qed.

(** The paste loop advances by at most the total scaled width. *)
Lemma paste_all_extent (cy jit : Z) (col : color) (data : list (image * Z * Z)) :
  forall (sp : list Z) (cv : canvas) (x lo hi : Z),
  Forall (fun x => (0 <= x)%Z) sp ->
  let '(_, curr_x, _, _) := Company.paste_all cy jit col data sp cv x lo hi in
  (curr_x - x <= Company.total_w_scaled data sp)%Z.
Proof.
  induction data as [|[[m w] h] rest IH]; intros sp cv x lo hi Hsp.
  - cbn. pose proof (sum_nonneg _ Hsp). unfold Company.total_w_scaled. cbn.
    unfold Py.sum in *. lia.
  - cbn [Company.paste_all]. destruct sp as [|s0 sp'].
    + specialize (IH [] (apply (Paste m x (cy - h / 2 + jit) col) cv) (x + w)%Z
                     (Z.min lo (cy - h / 2 + jit))
                     (Z.max hi (cy - h / 2 + jit + h)) Hsp).
      destruct (Company.paste_all _ _ _ rest [] _ _ _ _) as [[[cv' cx] lo'] hi'].
      unfold Company.total_w_scaled in *. cbn [map fst snd] in *.
      rewrite sum_cons. lia.
    + inversion Hsp as [|? ? Hs0 Hsp']; subst.
      specialize (IH sp' (apply (Paste m x (cy - h / 2 + jit) col) cv)
                     (x + w + s0)%Z (Z.min lo (cy - h / 2 + jit))
                     (Z.max hi (cy - h / 2 + jit + h)) Hsp').
      destruct (Company.paste_all _ _ _ rest sp' _ _ _ _) as [[[cv' cx] lo'] hi'].
      unfold Company.total_w_scaled in *. cbn [map fst snd] in *.
      rewrite !sum_cons. lia.
Qed.


Lemma sum_member_le (l : list Z) (x : Z) :
  Forall (fun y => (0 <= y)%Z) l -> In x l -> (x <= Py.sum l)%Z.
Proof.
  induction 1 as [|y l Hy Hl IH]; intros Hin; [contradiction|].
  rewrite sum_cons. pose proof (sum_nonneg _ Hl).
  destruct Hin as [->|Hin]; [lia|]. specialize (IH Hin). lia.
Qed.

(** X1.  In flowing mode, whenever a layout is produced, the total placed
    width (the scaled glyph widths plus the scaled spacings) is at most
    [field_width - 10], and so is the distance the paste loop advances. *)
Theorem flowing_width_fits (E : env) (fw fh max_h : Z) (u : float)
    (masks : list image) (spacings : list Z) (s : float)
    (data : list (image * Z * Z)) (sp : list Z) :
  (0.75 <=? u)%float = true -> (u <=? 0.9)%float = true ->
  (Z.abs (fh - 6) < 2 ^ 50)%Z -> (0 < max_h < 2 ^ 50)%Z ->
  (Z.abs (fw - 10) < 2 ^ 50)%Z ->
  Forall (fun m => (0 <= width m)%Z) masks ->
  Forall (fun x => (0 <= x)%Z) spacings ->
  (Py.sum (map width masks) + Py.sum spacings < 2 ^ 50)%Z ->
  Company.scale_factor fw fh max_h
    (Py.sum (map width masks) + Py.sum spacings) u = Ret s ->
  Company.scale_masks E s masks = Ret data -> data <> [] ->
  Company.scale_spacings s spacings = Ret sp ->
  (Company.total_w_scaled data sp <= fw - 10)%Z /\
  forall cy jit col cv x lo hi,
    (snd (fst (fst (Company.paste_all cy jit col data sp cv x lo hi))) - x
     <= fw - 10)%Z.
Proof.
  intros Hu1 Hu2 Hfh Hmh HF Hmasks Hsp HT Hs Hdata Hne Hscaled.
  set (Tw := Py.sum (map width masks)) in *.
  set (Ts := Py.sum spacings) in *.
  assert (Hws : Forall (fun x => (0 <= x)%Z) (map width masks)).
  { apply Forall_map. exact Hmasks. }
  pose proof (sum_nonneg _ Hws) as HTw. fold Tw in HTw.
  pose proof (sum_nonneg _ Hsp) as HTs. fold Ts in HTs.
  assert (Hmasks' : Forall (fun m => (0 <= width m < 2 ^ 50)%Z) masks).
  { apply Forall_forall. intros m Hin.
    pose proof (proj1 (Forall_forall _ _) Hmasks m Hin) as H0.
    pose proof (sum_member_le _ (width m) Hws (in_map width _ _ Hin)) as H1.
    fold Tw in H1. cbv beta in H0. lia. }
  assert (Hsp' : Forall (fun x => (0 <= x < 2 ^ 50)%Z) spacings).
  { apply Forall_forall. intros x Hin.
    pose proof (proj1 (Forall_forall _ _) Hsp x Hin) as H0.
    pose proof (sum_member_le _ x Hsp Hin) as H1. fold Ts in H1.
    cbv beta in H0. lia. }
  assert (HTpos : (0 < Tw + Ts)%Z).
  { destruct (Z.eq_dec Tw 0) as [Hz|]; [exfalso|lia].
    apply Hne. apply (scale_masks_zero E s masks); [|exact Hdata].
    apply Forall_forall. intros m Hin.
    pose proof (proj1 (Forall_forall _ _) Hmasks m Hin) as H0.
    pose proof (sum_member_le _ (width m) Hws (in_map width _ _ Hin)) as H1.
    fold Tw in H1. cbv beta in H0. lia. }
  destruct (scale_factor_spec fw fh max_h (Tw + Ts) u Hu1 Hu2 Hfh Hmh
              ltac:(lia) HF) as (s' & Es & Fs & Bs & Hfit).
  rewrite Hs in Es. injection Es as <-.
  assert (Hpos : 0 < B2R s).
  { destruct (Rlt_le_dec 0 (B2R s)) as [|Hle]; [assumption|exfalso].
    apply Hne. apply (scale_masks_nonpos E s masks Fs); [lra|exact Hmasks'|exact Hdata]. }
  destruct (Hfit Hpos) as [HF0 Hb].
  destruct (scale_masks_sum E s masks Fs ltac:(lra) Hmasks' _ Hdata) as [Hd0 Hd].
  destruct (scale_spacings_sum s spacings Fs ltac:(lra) Hsp' _ Hscaled) as [Hs0 Hs1].
  fold Tw in Hd. fold Ts in Hs1.
  assert (Htot : (Company.total_w_scaled data sp <= fw - 10)%Z).
  { unfold Company.total_w_scaled. fold (widths data).
    assert (IZR (Py.sum (widths data) + Py.sum sp) < IZR (fw - 10 + 1)).
    { rewrite !plus_IZR. rewrite plus_IZR in Hb.
      pose proof p2_m53 as E53. pose proof p2_m1075_small as [Pe He].
      assert (E52 : p2 (-52) = 2 * p2 (-53)) by (rewrite <- p2_succ; reflexivity).
      assert (BF : 0 <= IZR (fw - 10) <= 1125899906842624).
      { split; apply IZR_le; lia. }
      set (eta := p2 (-1075)) in *. set (eps := p2 (-53)) in *.
      set (F := IZR (fw - 10)) in *.
      set (X := (IZR Tw + IZR Ts) * B2R s) in *.
      assert (HX : IZR (Py.sum (widths data)) + IZR (Py.sum sp) <= X * (1 + eps))
        by (unfold X; nra).
      assert (HX0 : 0 <= X).
      { unfold X. assert (0 <= IZR Tw + IZR Ts).
        { rewrite <- plus_IZR. apply IZR_le. lia. }
        nra. }
      rewrite E52 in Hb.
      assert (Heps : 0 < eps <= / 9007199254740992).
      { split; [apply p2_pos|rewrite E53; lra]. }
      assert (X * (1 + eps) <= (F + eta) * (1 + 2 * eps) * (1 + eps)) by nra.
      assert ((F + eta) * (1 + 2 * eps) * (1 + eps) < F + 1); [|lra].
      assert (F * eps <= / 8).
      { destruct Heps as [_ Heps]. 
        assert (F * eps <= 1125899906842624 * / 9007199254740992) by nra. lra. }
      assert (eps <= / 1000) by lra.
      nra. }
    apply lt_IZR in H. lia. }
  split; [exact Htot|].
  intros cy jit col cv x lo hi.
  pose proof (paste_all_extent cy jit col data sp cv x lo hi Hs0) as Hp.
  destruct (Company.paste_all cy jit col data sp cv x lo hi) as [[[cv' cx] lo'] hi'].
  cbn [fst snd]. lia.
Qed.

Lemma flowing_width_fits_witness :
  exists s data sp,
    Company.scale_factor 60 46 30 50 0.8 = Ret s /\
    Company.scale_masks Examples.E_id s [Shapes.glyph 20 30; Shapes.glyph 25 30] = Ret data /\
    Company.scale_spacings s [5%Z] = Ret sp /\
    Company.total_w_scaled data sp = 50%Z /\
    (Company.total_w_scaled data sp <= 60 - 10)%Z.
Proof.
  eexists _, _, _.
  split; [vm_compute; reflexivity|].
  split; [vm_compute; reflexivity|].
  split; [vm_compute; reflexivity|].
  split; [vm_compute; reflexivity|].
  refine (proj1 (flowing_width_fits Examples.E_id 60 46 30 0.8
                   [Shapes.glyph 20 30; Shapes.glyph 25 30] [5%Z] _ _ _ _ _ _ _ _ _ _ _ _ _ _ _)).
  - reflexivity.
  - reflexivity.
  - vm_compute. reflexivity.
  - vm_compute. split; reflexivity.
  - vm_compute. reflexivity.
  - repeat constructor; vm_compute; discriminate.
  - repeat constructor; vm_compute; discriminate.
  - vm_compute. reflexivity.
  - vm_compute. reflexivity.
  - vm_compute. reflexivity.
  - discriminate.
  - vm_compute. reflexivity.
Defined.

(** X2.  For sizes below [2^50] and a height share between 0.75 and 0.90,
    the scale factor is computed without an exception and is a finite
    float of at most 2.5; when it is positive the field is at least 10 px
    wide and the original total width times the factor is, up to two
    roundings, at most [field_width - 10]. *)
Theorem scale_factor_clamped (fw fh max_h T : Z) (u : float) :
  (0.75 <=? u)%float = true -> (u <=? 0.9)%float = true ->
  (Z.abs (fh - 6) < 2 ^ 50)%Z -> (0 < max_h < 2 ^ 50)%Z ->
  (0 < T < 2 ^ 50)%Z -> (Z.abs (fw - 10) < 2 ^ 50)%Z ->
  exists s,
    Company.scale_factor fw fh max_h T u = Ret s /\ finite s /\
    - p2 60 <= B2R s <= 5 / 2 /\
    (0 < B2R s ->
     (0 <= fw - 10)%Z /\
     IZR T * B2R s <= (IZR (fw - 10) + p2 (-1075)) * (1 + p2 (-52))).
Proof. exact (scale_factor_spec fw fh max_h T u). Qed.

Lemma scale_factor_clamped_witness :
  exists s,
    Company.scale_factor 60 46 30 50 0.8 = Ret s /\ finite s /\
    - p2 60 <= B2R s <= 5 / 2 /\
    (0 < B2R s ->
     (0 <= 60 - 10)%Z /\
     IZR 50 * B2R s <= (IZR (60 - 10) + p2 (-1075)) * (1 + p2 (-52))).
Proof.
  apply (scale_factor_clamped 60 46 30 50 0.8); try reflexivity; lia.
Defined.

End LayoutFacts.

(** ** Size normalisation *)

Module NormalizeFacts.

Import Binary64 RoundingFacts FloatFacts LayoutFacts.
Local Open Scope R_scope.

Ltac push_IZR H :=
  repeat (rewrite plus_IZR in H || rewrite mult_IZR in H || rewrite minus_IZR in H).

Lemma B2R_2 : finite 2 /\ B2R 2 = 2.
Proof.
  unfold finite, B2R.
  replace (Prim2SF 2) with (S754_finite false 4503599627370496 (-51))
    by (vm_compute; reflexivity).
  split; [exact I|]. rewrite SF2R_finite. unfold sign.
  replace (p2 (-51)) with (4 * p2 (-53)).
  - rewrite p2_m53. lra.
  - replace (-51)%Z with (-53 + 1 + 1)%Z by lia. rewrite !p2_succ. lra.
Qed.

Lemma B2R_0_15 : finite 0.15 /\ B2R 0.15 = 5404319552844595 / 36028797018963968.
Proof.
  unfold finite, B2R.
  replace (Prim2SF 0.15) with (S754_finite false 5404319552844595 (-55))
    by (vm_compute; reflexivity).
  split; [exact I|]. rewrite SF2R_finite. unfold sign.
  replace (p2 (-55)) with (p2 (-53) / 4).
  - rewrite p2_m53. lra.
  - replace (-55)%Z with (-53 - 1 - 1)%Z by lia. rewrite !p2_pred. lra.
Qed.

(** A positive normal value and its rounding. *)
Lemma rounds_to_rel_pos (X z : R) :
  rounds_to X z -> / 1152921504606846976 <= X ->
  X * (1 - / 9007199254740992) <= z <= X * (1 + / 9007199254740992).
Proof.
  intros H HX.
  assert (P : p2 (-1022) <= p2 (-60)) by (apply p2_le; lia).
  assert (P60 : p2 (-60) = / 1152921504606846976).
  { replace (p2 (-60)) with (/ p2 60) by (symmetry; apply (p2_neg 60)).
    rewrite p2_IZR by lia. reflexivity. }
  assert (0 < X) by lra.
  pose proof (rounds_to_relative _ _ H) as Hr.
  rewrite (Rabs_pos_eq X) in Hr by lra. specialize (Hr ltac:(lra)).
  rewrite p2_m53 in Hr. apply Rabs_le_iff in Hr. lra.
Qed.

Lemma rounds_to_upper (X z : R) :
  rounds_to X z -> 0 <= X ->
  0 <= z <= X * (1 + / 9007199254740992) + / 9007199254740992.
Proof.
  intros H HX. pose proof (rounds_to_nonneg _ _ H HX).
  pose proof (rounds_to_error _ _ H) as He.
  rewrite (Rabs_pos_eq X) in He by lra. rewrite p2_m53 in He.
  pose proof p2_m1075_small as [_ Hs]. rewrite p2_m53 in Hs.
  apply Rabs_le_iff in He. lra.
Qed.

(** [int] of a float whose value lies in [[k, k+1)]. *)
Lemma int_floor (p : float) (k : Z) :
  finite p -> 0 <= B2R p -> IZR k <= B2R p < IZR k + 1 -> F64.int p = Ret k.
Proof.
  intros Fp Hp Hk. destruct (int_total p Fp) as [n En]. rewrite En. f_equal.
  destruct (int_spec _ _ En) as (_ & Hpos & _).
  destruct (Hpos Hp) as [_ Hn].
  assert (IZR n < IZR (k + 1)) by (rewrite plus_IZR; lra).
  assert (IZR k < IZR (n + 1)) by (rewrite plus_IZR; lra).
  apply lt_IZR in H, H0. lia.
Qed.

(** The aspect ratio and the flat test. *)
Lemma aspect_ratio_spec (w h : Z) :
  (0 < h < 2 ^ 24)%Z -> (0 <= w < 2 ^ 24)%Z ->
  exists r, F64.int_truediv w h = Ret r /\ finite r /\
            rounds_to (IZR w / IZR h) (B2R r) /\
            (2 <? r)%float = (2 * h <? w)%Z.
Proof.
  intros Hh Hw.
  assert (Hh0 : h <> 0%Z) by lia.
  assert (Hrange : w = 0%Z \/ p2 (-1021) <= Rabs (IZR w / IZR h) < p2 1023)
    by (apply int_quotient_range; lia).
  destruct (int_truediv_rounds w h Hh0 Hrange) as (r & Er & Fr & Rr).
  exists r. split; [exact Er|]. split; [exact Fr|]. split; [exact Rr|].
  destruct B2R_2 as [F2 V2].
  assert (Bh : 1 <= IZR h <= 16777216) by (split; apply IZR_le; lia).
  assert (Bw : 0 <= IZR w <= 16777216) by (split; apply IZR_le; lia).
  assert (Ih : / 16777216 <= / IZR h <= 1).
  { split; [apply Rinv_le_contravar; lra|].
    rewrite <- Rinv_1. apply Rinv_le_contravar; lra. }
  set (X := IZR w / IZR h) in *.
  assert (EX : X * IZR h = IZR w) by (unfold X; field; lra).
  destruct (Z.ltb_spec (2 * h) w) as [Hflat|Hnot].
  - apply (ltb_real 2 r F2 Fr). rewrite V2.
    assert (IZR (2 * h + 1) <= IZR w) by (apply IZR_le; lia).
    rewrite plus_IZR, mult_IZR in H.
    assert (HX : 2 + / IZR h <= X).
    { unfold X, Rdiv. 
      replace (2 + / IZR h) with ((2 * IZR h + 1) * / IZR h) by (field; lra).
      apply Rmult_le_compat_r; lra. }
    assert (HX2 : X <= 16777216).
    { unfold X, Rdiv. nra. }
    pose proof (rounds_to_rel_pos _ _ Rr ltac:(lra)) as [Hlo _].
    nra.
  - assert (Hle : B2R r <= 2).
    { apply (rounds_to_le_int X (B2R r) 2 Rr); [|lia].
      assert (IZR w <= IZR (2 * h)) by (apply IZR_le; lia).
      rewrite mult_IZR in H. unfold X, Rdiv.
      replace 2 with (2 * IZR h * / IZR h) by (field; lra).
      apply Rmult_le_compat_r; lra. }
    destruct (2 <? r)%float eqn:E; [|reflexivity].
    apply (ltb_real 2 r F2 Fr) in E. rewrite V2 in E. lra.
Qed.

(** [int(max_h * 0.9)] is the floor of nine tenths. *)
Lemma int_mul_0_9 (max_h : Z) :
  (0 <= max_h < 2 ^ 24)%Z ->
  exists f, F64.int_mul max_h 0.9 = Ret f /\ F64.int f = Ret (9 * max_h / 10)%Z.
Proof.
  intros Hm. destruct B2R_0_9 as [F9 V9].
  assert (Bm : 0 <= IZR max_h <= 16777216) by (split; apply IZR_le; lia).
  assert (P60lt : p2 60 < p2 1023) by (apply p2_lt; lia).
  assert (P60 : p2 60 = 1152921504606846976) by (rewrite p2_IZR by lia; reflexivity).
  assert (Hb : Rabs (IZR max_h * B2R 0.9) < p2 1023).
  { rewrite V9, Rabs_pos_eq by nra. nra. }
  destruct (int_mul_rounds max_h 0.9 ltac:(lia) F9 Hb) as (f & Ef & Ff & Rf).
  exists f. split; [exact Ef|]. rewrite V9 in Rf.
  set (k := (9 * max_h / 10)%Z).
  assert (Hk : (10 * k <= 9 * max_h <= 10 * k + 9)%Z).
  { unfold k. pose proof (Z_div_mod_eq_full (9 * max_h) 10).
    pose proof (Z.mod_pos_bound (9 * max_h) 10 ltac:(lia)). lia. }
  assert (Hk0 : (0 <= k < 2 ^ 24)%Z) by lia.
  assert (Hk1 : 10 * IZR k <= 9 * IZR max_h <= 10 * IZR k + 9).
  { destruct Hk as [A B]. apply IZR_le in A, B.
    push_IZR A. push_IZR B. lra. }
  assert (Bk : 0 <= IZR k <= 16777216) by (split; apply IZR_le; lia).
  set (X := IZR max_h * (8106479329266893 / 9007199254740992)) in *.
  assert (HXlo : IZR k <= X) by (unfold X; lra).
  assert (HXhi : X <= IZR k + 9 / 10 + / 1000000) by (unfold X; lra).
  pose proof (rounds_to_ge_int X (B2R f) k Rf HXlo ltac:(lia)) as Hge.
  pose proof (rounds_to_upper _ _ Rf ltac:(lra)) as [H0 Hup].
  apply int_floor; [exact Ff|lra|]. split; [exact Hge|]. nra.
Qed.

(** [int(max_h * 0.15)] is the floor of three twentieths. *)
Lemma int_mul_0_15 (max_h : Z) :
  (0 <= max_h < 2 ^ 24)%Z ->
  exists f, F64.int_mul max_h 0.15 = Ret f /\ F64.int f = Ret (3 * max_h / 20)%Z.
Proof.
  intros Hm. destruct B2R_0_15 as [F15 V15].
  assert (Bm : 0 <= IZR max_h <= 16777216) by (split; apply IZR_le; lia).
  assert (P60lt : p2 60 < p2 1023) by (apply p2_lt; lia).
  assert (P60 : p2 60 = 1152921504606846976) by (rewrite p2_IZR by lia; reflexivity).
  assert (Hb : Rabs (IZR max_h * B2R 0.15) < p2 1023).
  { rewrite V15, Rabs_pos_eq by nra. nra. }
  destruct (int_mul_rounds max_h 0.15 ltac:(lia) F15 Hb) as (f & Ef & Ff & Rf).
  exists f. split; [exact Ef|]. rewrite V15 in Rf.
  set (k := (3 * max_h / 20)%Z).
  assert (Hk : (20 * k <= 3 * max_h <= 20 * k + 19)%Z).
  { unfold k. pose proof (Z_div_mod_eq_full (3 * max_h) 20).
    pose proof (Z.mod_pos_bound (3 * max_h) 20 ltac:(lia)). lia. }
  assert (Hk0 : (0 <= k < 2 ^ 24)%Z) by lia.
  assert (Bk : 0 <= IZR k <= 16777216) by (split; apply IZR_le; lia).
  set (X := IZR max_h * (5404319552844595 / 36028797018963968)) in *.
  assert (HX0 : 0 <= X) by (unfold X; lra).
  pose proof (rounds_to_upper _ _ Rf HX0) as [H0 Hup].
  assert (Hk1 : 20 * IZR k <= 3 * IZR max_h <= 20 * IZR k + 19).
  { destruct Hk as [A B]. apply IZR_le in A, B.
    push_IZR A. push_IZR B. lra. }
  assert (HXhi : X <= IZR k + 19 / 20) by (unfold X; lra).
  destruct (Z.eq_dec (3 * max_h) (20 * k)) as [Hex|Hin].
  - (* three twentieths of max_h is an integer *)
    assert (E1 : 3 * IZR max_h = 20 * IZR k).
    { apply (f_equal IZR) in Hex. rewrite !mult_IZR in Hex. lra. }
    destruct (Z.eq_dec k 0) as [Hz|Hnz].
    + assert (max_h = 0%Z) by lia. subst max_h.
      assert (X = 0) by (unfold X; lra). rewrite H in Rf.
      apply rounds_to_zero in Rf.
      apply int_floor; [exact Ff|lra|]. rewrite Rf, Hz. lra.
    + assert (B2R f = IZR k).
      { apply (rounds_to_snap X (B2R f) k Rf); [lia|].
        rewrite p2_m53.
        assert (1 <= IZR k) by (apply IZR_le; lia).
        assert (EX : X - IZR k = - (IZR k / 27021597764222976)) by (unfold X; lra).
        rewrite EX, Rabs_Ropp, Rabs_pos_eq by lra. lra. }
      apply int_floor; [exact Ff|lra|]. lra.
  - assert (Hk2 : 20 * IZR k + 1 <= 3 * IZR max_h).
    { assert (20 * k + 1 <= 3 * max_h)%Z by lia. apply IZR_le in H.
      push_IZR H. lra. }
    assert (HXlo : IZR k <= X) by (unfold X; lra).
    pose proof (rounds_to_ge_int X (B2R f) k Rf HXlo ltac:(lia)) as Hge.
    apply int_floor; [exact Ff|lra|]. split; [exact Hge|]. nra.
Qed.

(** The floor of a value within four rounding units of a quotient. *)
Lemma floor_near_quotient (A B n : Z) (z : R) :
  (0 <= A < 2 ^ 48)%Z -> (0 < B < 2 ^ 48)%Z ->
  IZR n <= z < IZR n + 1 ->
  Rabs (z - IZR A / IZR B) <= 4 * / 9007199254740992 * (IZR A / IZR B) ->
  (A / B - 1 <= n <= A / B)%Z /\ ((A mod B <> 0)%Z -> n = (A / B)%Z).
Proof.
  intros HA HB Hn Hz.
  pose proof (Z_div_mod_eq_full A B) as Hdm.
  pose proof (Z.mod_pos_bound A B ltac:(lia)) as Hr.
  set (k := (A / B)%Z) in *. set (r := (A mod B)%Z) in *.
  assert (Hk : (0 <= k)%Z) by (apply Z.div_pos; lia).
  assert (HkB : (k * B <= A)%Z) by lia.
  assert (BB : 1 <= IZR B <= 281474976710656) by (split; apply IZR_le; lia).
  assert (BA : 0 <= IZR A <= 281474976710656) by (split; apply IZR_le; lia).
  assert (Bk : 0 <= IZR k) by (apply IZR_le; lia).
  assert (BkB : IZR k * IZR B <= 281474976710656).
  { rewrite <- mult_IZR. eapply Rle_trans; [apply IZR_le; exact HkB|lra]. }
  assert (Br : 0 <= IZR r <= IZR B - 1).
  { split; [apply IZR_le; lia|]. rewrite <- minus_IZR. apply IZR_le. lia. }
  set (X := IZR A / IZR B) in *.
  assert (EX : X * IZR B = IZR k * IZR B + IZR r).
  { unfold X. rewrite Hdm at 1. rewrite plus_IZR, mult_IZR. field. lra. }
  assert (HX0 : 0 <= X).
  { unfold X, Rdiv. apply Rmult_le_pos; [lra|].
    left. apply Rinv_0_lt_compat. lra. }
  apply Rabs_le_iff in Hz.
  set (e := / 9007199254740992) in *.
  assert (He : e = / 9007199254740992) by reflexivity.
  (* everything multiplied by B *)
  assert (U : z * IZR B < (IZR k + 1) * IZR B).
  { assert (z * IZR B <= X * IZR B + 4 * e * (X * IZR B)) by nra.
    rewrite EX in H. nra. }
  assert (L : (IZR k - 1) * IZR B < z * IZR B).
  { assert (X * IZR B - 4 * e * (X * IZR B) <= z * IZR B) by nra.
    rewrite EX in H. nra. }
  assert (U' : z < IZR k + 1) by nra.
  assert (L' : IZR k - 1 < z) by nra.
  assert (H1 : IZR n < IZR (k + 1)) by (rewrite plus_IZR; lra).
  assert (H2 : IZR (k - 2) < IZR n) by (rewrite minus_IZR; lra).
  apply lt_IZR in H1, H2. split; [lia|].
  intros Hnz.
  assert (Br1 : 1 <= IZR r) by (apply IZR_le; lia).
  assert (L2 : IZR k * IZR B <= z * IZR B).
  { assert (X * IZR B - 4 * e * (X * IZR B) <= z * IZR B) by nra.
    rewrite EX in H. nra. }
  assert (L2' : IZR k <= z) by nra.
  assert (H3 : IZR (k - 1) < IZR n) by (rewrite minus_IZR; lra).
  apply lt_IZR in H3. lia.
Qed.


(** What one pass of the normalisation loop computes, in integers. *)
Lemma normalized_size_core (max_h w h : Z) :
  (0 < max_h < 2 ^ 24)%Z -> (0 < h < 2 ^ 24)%Z -> (0 <= w < 2 ^ 24)%Z ->
  exists n : Z, (0 <= n)%Z /\
    if (2 * h <? w)%Z then
      (9 * max_h / 10 * h / w - 1 <= n <= 9 * max_h / 10 * h / w)%Z /\
      ((9 * max_h / 10 * h) mod w <> 0 -> n = 9 * max_h / 10 * h / w)%Z /\
      Company.normalized_size max_h w h
      = Ret (if (9 * max_h / 10 =? 0)%Z then None
             else Some ((9 * max_h / 10)%Z, Z.max n (3 * max_h / 20)))
    else
      (max_h * w / h - 1 <= n <= max_h * w / h)%Z /\
      ((max_h * w) mod h <> 0 -> n = max_h * w / h)%Z /\
      (w mod h = 0 -> n = max_h * w / h)%Z /\
      Company.normalized_size max_h w h
      = Ret (if (n =? 0)%Z then None else Some (n, max_h)).
Proof.
  intros Hm Hh Hw. unfold Company.normalized_size.
  destruct (Z.eqb_spec h 0) as [|_]; [lia|].
  destruct (aspect_ratio_spec w h Hh Hw) as (r & Er & Fr & Rr & Eflat).
  rewrite Er. cbn [obind]. rewrite Eflat.
  assert (Bh : 1 <= IZR h <= 16777216) by (split; apply IZR_le; lia).
  assert (Bw : 0 <= IZR w <= 16777216) by (split; apply IZR_le; lia).
  assert (Bm : 1 <= IZR max_h <= 16777216) by (split; apply IZR_le; lia).
  assert (Ih : / 16777216 <= / IZR h <= 1).
  { split; [apply Rinv_le_contravar; lra|].
    rewrite <- Rinv_1. apply Rinv_le_contravar; lra. }
  assert (P60lt : p2 60 < p2 1023) by (apply p2_lt; lia).
  assert (P60 : p2 60 = 1152921504606846976) by (rewrite p2_IZR by lia; reflexivity).
  assert (Pm1021 : p2 (-1021) <= p2 (-60)) by (apply p2_le; lia).
  assert (Pm60 : p2 (-60) = / 1152921504606846976).
  { replace (p2 (-60)) with (/ p2 60) by (symmetry; apply (p2_neg 60)).
    rewrite P60. reflexivity. }
  set (X1 := IZR w / IZR h) in *.
  assert (EX1 : X1 * IZR h = IZR w) by (unfold X1; field; lra).
  assert (HX1 : 0 <= X1 <= 16777216) by (unfold X1, Rdiv; nra).
  set (e := / 9007199254740992) in *.
  assert (He : e = / 9007199254740992) by reflexivity.
  destruct (Z.ltb_spec (2 * h) w) as [Hflat|Hnot].
  - (* the flat rule *)
    destruct (int_mul_0_9 max_h ltac:(lia)) as (f & Ef & Eif).
    rewrite Ef. cbn [obind]. rewrite Eif. cbn [obind].
    set (tw := (9 * max_h / 10)%Z) in *.
    assert (Htw : (0 <= tw < 2 ^ 24)%Z).
    { unfold tw. split; [apply Z.div_pos; lia|].
      apply Z.div_lt_upper_bound; lia. }
    assert (Btw : 0 <= IZR tw <= 16777216) by (split; apply IZR_le; lia).
    assert (HX1lo : 2 <= X1).
    { assert (IZR (2 * h) <= IZR w) by (apply IZR_le; lia).
      rewrite mult_IZR in H. unfold X1, Rdiv.
      replace 2 with (2 * IZR h * / IZR h) by (field; lra).
      apply Rmult_le_compat_r; lra. }
    pose proof (rounds_to_rel_pos _ _ Rr ltac:(lra)) as [Rlo Rhi]. fold e in Rlo, Rhi.
    assert (Hr0 : 1 <= B2R r <= 33554432) by nra.
    assert (Ir : / 33554432 <= / B2R r <= 1).
    { split; [apply Rinv_le_contravar; lra|].
      rewrite <- Rinv_1. apply Rinv_le_contravar; lra. }
    assert (Hrange : tw = 0%Z \/ p2 (-1021) <= Rabs (IZR tw / B2R r) < p2 1023).
    { destruct (Z.eq_dec tw 0) as [|Hnz]; [left; assumption|right].
      assert (1 <= IZR tw) by (apply IZR_le; lia).
      unfold Rdiv. rewrite Rabs_pos_eq by nra. split; nra. }
    destruct (int_div_rounds tw r ltac:(lia) Fr ltac:(lra) Hrange)
      as (q & Eq & Fq & Rq).
    rewrite Eq. cbn [obind].
    set (Y := IZR tw / B2R r) in *.
    assert (EY : Y * B2R r = IZR tw) by (unfold Y; field; lra).
    assert (HY : 0 <= Y) by (unfold Y, Rdiv; nra).
    pose proof (rounds_to_nonneg _ _ Rq HY) as Hq0.
    destruct (int_total q Fq) as [n En]. rewrite En. cbn [obind].
    destruct (int_spec _ _ En) as (_ & Hpos & _).
    destruct (Hpos Hq0) as [Hn0 Hn].
    destruct (int_mul_0_15 max_h ltac:(lia)) as (lo & Elo & Eilo).
    rewrite Elo. cbn [obind]. rewrite Eilo. cbn [obind].
    exists n. split; [exact Hn0|].
    assert (Hnear : Rabs (B2R q - IZR (tw * h) / IZR w)
                    <= 4 * e * (IZR (tw * h) / IZR w)).
    { rewrite mult_IZR.
      assert (Bw1 : 1 <= IZR w) by (apply IZR_le; lia).
      set (X0 := IZR tw * IZR h / IZR w).
      assert (EX0 : X0 * X1 = IZR tw) by (unfold X0, X1; field; lra).
      destruct (Z.eq_dec tw 0) as [Hz|Hnz].
      - assert (Y = 0) by (unfold Y; rewrite Hz; lra).
        rewrite H in Rq. apply rounds_to_zero in Rq.
        assert (X0 = 0) by (unfold X0; rewrite Hz; lra).
        rewrite Rq, H0. rewrite Rminus_diag, Rabs_R0. lra.
      - assert (1 <= IZR tw) by (apply IZR_le; lia).
        assert (HYlo : / 33554432 <= Y) by (unfold Y, Rdiv; nra).
        pose proof (rounds_to_rel_pos _ _ Rq ltac:(lra)) as [Qlo Qhi].
        fold e in Qlo, Qhi.
        assert (HX0 : 0 <= X0).
        { unfold X0, Rdiv. apply Rmult_le_pos; [nra|].
          left. apply Rinv_0_lt_compat. lra. }
        assert (Y1 : Y * (1 - e) <= X0).
        { apply Rmult_le_reg_r with X1; [lra|].
          rewrite EX0, <- EY. nra. }
        assert (Y2 : X0 <= Y * (1 + e)).
        { apply Rmult_le_reg_r with X1; [lra|].
          rewrite EX0, <- EY. nra. }
        assert (Z1 : B2R q * (1 - e) <= X0 * (1 + e)) by nra.
        assert (Z2 : X0 * (1 - e) <= B2R q * (1 + e)) by nra.
        apply Rabs_le_iff. split; nra. }
    assert (Hth : (0 <= tw * h < 2 ^ 48)%Z) by nia.
    destruct (floor_near_quotient (tw * h) w n (B2R q) Hth ltac:(lia) Hn Hnear)
      as [Hb Hex].
    split; [exact Hb|]. split; [exact Hex|].
    destruct (tw =? 0)%Z; reflexivity.
  - (* the general rule *)
    assert (HX1hi : X1 <= 2).
    { assert (IZR w <= IZR (2 * h)) by (apply IZR_le; lia).
      rewrite mult_IZR in H. unfold X1, Rdiv.
      replace 2 with (2 * IZR h * / IZR h) by (field; lra).
      apply Rmult_le_compat_r; lra. }
    pose proof (rounds_to_nonneg _ _ Rr ltac:(lra)) as Hr0.
    pose proof (rounds_to_le_int X1 (B2R r) 2 Rr HX1hi ltac:(lia)) as Hr2.
    assert (Hb : Rabs (IZR max_h * B2R r) < p2 1023).
    { rewrite Rabs_pos_eq by nra. nra. }
    destruct (int_mul_rounds max_h r ltac:(lia) Fr Hb) as (p & Ep & Fp & Rp).
    rewrite Ep. cbn [obind].
    set (Y := IZR max_h * B2R r) in *.
    assert (HY : 0 <= Y) by (unfold Y; nra).
    pose proof (rounds_to_nonneg _ _ Rp HY) as Hp0.
    destruct (int_total p Fp) as [n En]. rewrite En. cbn [obind].
    destruct (int_spec _ _ En) as (_ & Hpos & _).
    destruct (Hpos Hp0) as [Hn0 Hn].
    exists n. split; [exact Hn0|].
    assert (Hnear : Rabs (B2R p - IZR (max_h * w) / IZR h)
                    <= 4 * e * (IZR (max_h * w) / IZR h)).
    { rewrite mult_IZR.
      set (X0 := IZR max_h * IZR w / IZR h).
      assert (EX0 : X0 = IZR max_h * X1) by (unfold X0, X1; field; lra).
      destruct (Z.eq_dec w 0) as [Hz|Hnz].
      - assert (X1 = 0) by (unfold X1; rewrite Hz; lra).
        rewrite H in Rr. apply rounds_to_zero in Rr.
        assert (Y = 0) by (unfold Y; rewrite Rr; lra).
        rewrite H0 in Rp. apply rounds_to_zero in Rp.
        rewrite Rp, EX0, H. rewrite Rmult_0_r, Rminus_diag, Rabs_R0. lra.
      - assert (1 <= IZR w) by (apply IZR_le; lia).
        assert (HX1lo : / 16777216 <= X1) by (unfold X1, Rdiv; nra).
        pose proof (rounds_to_rel_pos _ _ Rr ltac:(lra)) as [Rlo Rhi].
        fold e in Rlo, Rhi.
        assert (HYlo : / 33554432 <= Y) by (unfold Y; nra).
        pose proof (rounds_to_rel_pos _ _ Rp ltac:(lra)) as [Plo Phi].
        fold e in Plo, Phi.
        assert (HX0 : 0 <= X0) by (rewrite EX0; nra).
        assert (Y1 : X0 * (1 - e) <= Y) by (rewrite EX0; unfold Y; nra).
        assert (Y2 : Y <= X0 * (1 + e)) by (rewrite EX0; unfold Y; nra).
        apply Rabs_le_iff. split; nra. }
    assert (Hmw : (0 <= max_h * w < 2 ^ 48)%Z) by nia.
    destruct (floor_near_quotient (max_h * w) h n (B2R p) Hmw ltac:(lia) Hn Hnear)
      as [Hbd Hex].
    split; [exact Hbd|]. split; [exact Hex|].
    split; [|destruct (n =? 0)%Z; reflexivity].
    intros Hdiv.
    apply Z.mod_divide in Hdiv; [|lia]. destruct Hdiv as [k Hk].
    assert (Hk2 : (0 <= k <= 2)%Z) by nia.
    assert (EX1k : X1 = IZR k).
    { unfold X1. rewrite Hk, mult_IZR. field. lra. }
    rewrite EX1k in Rr. apply rounds_to_int in Rr; [|lia].
    unfold Y in Rp. rewrite Rr, <- mult_IZR in Rp.
    apply rounds_to_int in Rp; [|nia].
    rewrite Rp in Hn.
    assert (n = (max_h * k)%Z).
    { destruct Hn as [A B].
      assert (IZR n < IZR (max_h * k + 1)) by (rewrite plus_IZR; lra).
      assert (IZR (max_h * k) < IZR (n + 1)) by (rewrite plus_IZR; lra).
      apply lt_IZR in H, H0. lia. }
    rewrite H, Hk. rewrite Z.mul_assoc, Z.div_mul by lia. reflexivity.
Qed.

Local Open Scope Z_scope.

(** X3.  One pass of the normalisation loop, in integers.  For sizes
    below [2^24], a mask is flat exactly
    when [w > 2 h].  A flat mask gets the width [floor(9 max_h / 10)] and is
    dropped when that is 0; its height is the larger of
    [floor(3 max_h / 20)] and [n], the floor of [width * h / w] or one
    less (the floor itself when [w] does not divide).  Any other mask gets
    the height [max_h] and the width [n], the floor of [max_h * w / h] or
    one less (the floor itself when [h] does not divide [max_h * w], or
    divides [w]), and is dropped when [n] is 0. *)
Theorem normalized_size_rule (max_h w h : Z) :
  0 < max_h < 2 ^ 24 -> 0 < h < 2 ^ 24 -> 0 <= w < 2 ^ 24 ->
  exists n : Z, 0 <= n /\
    if 2 * h <? w then
      9 * max_h / 10 * h / w - 1 <= n <= 9 * max_h / 10 * h / w /\
      ((9 * max_h / 10 * h) mod w <> 0 -> n = 9 * max_h / 10 * h / w) /\
      Company.normalized_size max_h w h
      = Ret (if 9 * max_h / 10 =? 0 then None
             else Some (9 * max_h / 10, Z.max n (3 * max_h / 20)))
    else
      max_h * w / h - 1 <= n <= max_h * w / h /\
      ((max_h * w) mod h <> 0 -> n = max_h * w / h) /\
      (w mod h = 0 -> n = max_h * w / h) /\
      Company.normalized_size max_h w h
      = Ret (if n =? 0 then None else Some (n, max_h)).
Proof. exact (normalized_size_core max_h w h). Qed.

Lemma normalized_size_rule_witness :
  exists n : Z, 0 <= n /\
    if 2 * 20 <? 61 then
      9 * 41 / 10 * 20 / 61 - 1 <= n <= 9 * 41 / 10 * 20 / 61 /\
      ((9 * 41 / 10 * 20) mod 61 <> 0 -> n = 9 * 41 / 10 * 20 / 61) /\
      Company.normalized_size 41 61 20
      = Ret (if 9 * 41 / 10 =? 0 then None
             else Some (9 * 41 / 10, Z.max n (3 * 41 / 20)))
    else
      41 * 61 / 20 - 1 <= n <= 41 * 61 / 20 /\
      ((41 * 61) mod 20 <> 0 -> n = 41 * 61 / 20) /\
      (61 mod 20 = 0 -> n = 41 * 61 / 20) /\
      Company.normalized_size 41 61 20
      = Ret (if n =? 0 then None else Some (n, 41)).
Proof.
  apply (normalized_size_rule 41 61 20); lia.
Defined.

(** X4.  A mask of size [w] x [H] with [w <= 2 H], in a
    batch whose maximum height is [H], keeps its height; its width becomes
    [n], which is [w] or [w - 1] (and [w] when [H] divides [w]); the mask
    is dropped when [n] is 0. *)
Theorem renormalize_common_height (H w : Z) :
  0 < H < 2 ^ 23 -> 0 <= w <= 2 * H ->
  exists n : Z,
    0 <= n /\ w - 1 <= n <= w /\ (w mod H = 0 -> n = w) /\
    Company.normalized_size H w H
    = Ret (if n =? 0 then None else Some (n, H)).
Proof.
  intros HH Hw.
  destruct (normalized_size_core H w H ltac:(lia) ltac:(lia) ltac:(lia))
    as (n & Hn0 & Hn).
  destruct (Z.ltb_spec (2 * H) w) as [|_]; [lia|].
  destruct Hn as (Hb & _ & Hdiv & E).
  replace (H * w / H) with w in * by (rewrite Z.mul_comm, Z.div_mul; lia).
  exists n. repeat split; try lia; assumption.
Qed.

Lemma renormalize_common_height_witness :
  exists n : Z,
    0 <= n /\ 15 - 1 <= n <= 15 /\ (15 mod 11 = 0 -> n = 15) /\
    Company.normalized_size 11 15 11
    = Ret (if n =? 0 then None else Some (n, 11)).
Proof.
  apply (renormalize_common_height 11 15); lia.
Defined.

End NormalizeFacts.

(** ** The slot glyph scale *)

Module SlotScaleFacts.

Import Binary64 RoundingFacts FloatFacts LayoutFacts NormalizeFacts.
Local Open Scope R_scope.

Lemma B2R_1_2 : finite 1.2 /\ B2R 1.2 = 5404319552844595 / 4503599627370496.
Proof.
  unfold finite, B2R.
  replace (Prim2SF 1.2) with (S754_finite false 5404319552844595 (-52))
    by (vm_compute; reflexivity).
  split; [exact I|]. rewrite SF2R_finite. unfold sign.
  replace (p2 (-52)) with (2 * p2 (-53)) by (rewrite <- p2_succ; reflexivity).
  rewrite p2_m53. lra.
Qed.

Lemma int_gt_real (n : Z) (f : float) :
  finite f -> (F64.int_gt n f = true <-> B2R f < IZR n).
Proof.
  unfold finite, B2R, F64.int_gt.
  destruct (Prim2SF f) as [s|s| |s m e]; try contradiction; intros _.
  - cbn [SF2R]. rewrite Z.ltb_lt. split; [apply IZR_lt|apply lt_IZR].
  - rewrite SF2R_signed. set (a := if s then Z.neg m else Z.pos m).
    destruct (Z.leb_spec 0 e) as [He|He]; rewrite Z.ltb_lt.
    + rewrite Z.shiftl_mul_pow2 by lia.
      rewrite p2_IZR, <- mult_IZR by lia. split; [apply IZR_lt|apply lt_IZR].
    + rewrite Z.shiftl_mul_pow2 by lia.
      pose proof (p2_pos e) as Pe.
      assert (E : IZR (n * 2 ^ (- e)) = IZR n / p2 e).
      { rewrite mult_IZR, <- p2_IZR, p2_neg by lia. reflexivity. }
      split; intros H.
      * apply IZR_lt in H. rewrite E in H.
        apply Rmult_lt_reg_r with (/ p2 e); [apply Rinv_0_lt_compat; lra|].
        replace (IZR a * p2 e * / p2 e) with (IZR a) by (field; lra). exact H.
      * apply lt_IZR. rewrite E.
        apply Rmult_lt_reg_r with (p2 e); [lra|].
        replace (IZR n / p2 e * p2 e) with (IZR n) by (field; lra). exact H.
Qed.

(** The slot limit [field_width * 1.2] and its floor. *)
Lemma slot_limit (fw : Z) :
  (0 <= fw < 2 ^ 24)%Z ->
  exists limit,
    F64.int_mul fw 1.2 = Ret limit /\ finite limit /\
    0 <= B2R limit < IZR (6 * fw / 5) + 9 / 10 /\
    (fw = 0%Z -> B2R limit = 0) /\ ((0 < fw)%Z -> 1 <= B2R limit).
Proof.
  intros Hfw. destruct B2R_1_2 as [F12 V12].
  assert (Bf : 0 <= IZR fw <= 16777216) by (split; apply IZR_le; lia).
  assert (P60lt : p2 60 < p2 1023) by (apply p2_lt; lia).
  assert (P60 : p2 60 = 1152921504606846976) by (rewrite p2_IZR by lia; reflexivity).
  assert (Hb : Rabs (IZR fw * B2R 1.2) < p2 1023).
  { rewrite V12, Rabs_pos_eq by nra. nra. }
  destruct (int_mul_rounds fw 1.2 ltac:(lia) F12 Hb) as (limit & El & Fl & Rl).
  exists limit. split; [exact El|]. split; [exact Fl|]. rewrite V12 in Rl.
  set (k := (6 * fw / 5)%Z).
  assert (Hk : (5 * k <= 6 * fw <= 5 * k + 4)%Z).
  { unfold k. pose proof (Z_div_mod_eq_full (6 * fw) 5).
    pose proof (Z.mod_pos_bound (6 * fw) 5 ltac:(lia)). lia. }
  assert (Hk1 : 5 * IZR k <= 6 * IZR fw <= 5 * IZR k + 4).
  { destruct Hk as [A B]. apply IZR_le in A, B. push_IZR A. push_IZR B. lra. }
  set (X := IZR fw * (5404319552844595 / 4503599627370496)) in *.
  assert (HX : 0 <= X <= IZR k + 8 / 10) by (unfold X; lra).
  pose proof (rounds_to_upper _ _ Rl ltac:(lra)) as [H0 Hup].
  split; [split; [exact H0|nra]|]. split.
  - intros ->. assert (X = 0) by (unfold X; lra). rewrite H in Rl.
    apply rounds_to_zero. exact Rl.
  - intros Hpos. assert (1 <= IZR fw) by (apply IZR_le; lia).
    apply (rounds_to_ge_int X (B2R limit) 1 Rl); [unfold X; lra|lia].
Qed.

Lemma cap_arith (L W p k e : R) :
  e = / 9007199254740992 -> 0 <= L < k + 9 / 10 -> 0 <= k <= 33554432 ->
  W <= L * (1 + e) -> p <= W * (1 + e) + e -> p < k + 1.
Proof.
  intros -> HL Hk HW Hp.
  assert (W * (1 + / 9007199254740992)
          <= L * (1 + / 9007199254740992) * (1 + / 9007199254740992)) by nra.
  assert (L * / 9007199254740992 <= / 1000) by lra.
  nra.
Qed.

(** X5.  In slotted mode the size a glyph is resized to is never wider
    than six fifths of the slot, rounded down ([field_width * 1.2]). *)
Theorem scaled_size_width_cap (field_width : Z) (mask_cropped : image)
    (scale_factor u : float) (new_width new_height : Z) :
  (0 <= field_width < 2 ^ 24)%Z -> (0 < width mask_cropped < 2 ^ 24)%Z ->
  Price.scaled_size field_width mask_cropped scale_factor u
  = Ret (new_width, new_height) ->
  (new_width <= 6 * field_width / 5)%Z.
Proof.
  intros Hfw Hw H. unfold Price.scaled_size in H.
  destruct (F64.int_mul (width mask_cropped) _) as [p0|]; cbn [obind] in H;
    [|discriminate].
  destruct (F64.int p0) as [nw0|]; cbn [obind] in H; [|discriminate].
  destruct (F64.int_mul (height mask_cropped) _) as [q0|]; cbn [obind] in H;
    [|discriminate].
  destruct (F64.int q0) as [nh0|]; cbn [obind] in H; [|discriminate].
  destruct (slot_limit field_width Hfw) as (limit & El & Fl & Bl & Hz & Hp).
  rewrite El in H. cbn [obind] in H.
  set (k := (6 * field_width / 5)%Z) in *.
  assert (Hk0 : (0 <= k < 2 ^ 25)%Z).
  { unfold k. split; [apply Z.div_pos; lia|apply Z.div_lt_upper_bound; lia]. }
  assert (Bk : 0 <= IZR k <= 33554432) by (split; apply IZR_le; lia).
  destruct (F64.int_gt nw0 limit) eqn:G.
  - (* the width is capped *)
    set (w := width mask_cropped) in *.
    assert (Bw : 1 <= IZR w <= 16777216) by (split; apply IZR_le; lia).
    assert (Iw : / 16777216 <= / IZR w <= 1).
    { split; [apply Rinv_le_contravar; lra|].
      rewrite <- Rinv_1. apply Rinv_le_contravar; lra. }
    assert (P60lt : p2 60 < p2 1023) by (apply p2_lt; lia).
    assert (P60 : p2 60 = 1152921504606846976) by (rewrite p2_IZR by lia; reflexivity).
    assert (Pm1021 : p2 (-1021) <= p2 (-60)) by (apply p2_le; lia).
    assert (Pm60 : p2 (-60) = / 1152921504606846976).
    { replace (p2 (-60)) with (/ p2 60) by (symmetry; apply (p2_neg 60)).
      rewrite P60. reflexivity. }
    assert (Hrange : B2R limit = 0 \/
                     p2 (-1021) <= Rabs (B2R limit / IZR w) < p2 1023).
    { destruct (Z.eq_dec field_width 0) as [Hz0|Hnz]; [left; auto|right].
      specialize (Hp ltac:(lia)).
      unfold Rdiv. rewrite Rabs_pos_eq by nra. split; nra. }
    destruct (div_int_rounds limit w Fl ltac:(lia) Hrange) as (s1 & Es & Fs & Rs).
    rewrite Es in H. cbn [obind] in H.
    set (Y := B2R limit / IZR w) in *.
    assert (EY : Y * IZR w = B2R limit) by (unfold Y; field; lra).
    assert (HY : 0 <= Y) by (unfold Y, Rdiv; nra).
    pose proof (rounds_to_upper _ _ Rs HY) as [Hs0 Hsup].
    assert (Hs1 : B2R s1 <= 67108864).
    { assert (Y <= 33554433) by (unfold Y, Rdiv; nra). nra. }
    assert (Hb : Rabs (IZR w * B2R s1) < p2 1023).
    { rewrite Rabs_pos_eq by nra. nra. }
    destruct (int_mul_rounds w s1 ltac:(lia) Fs Hb) as (p1 & Ep & Fp & Rp).
    rewrite Ep in H. cbn [obind] in H.
    destruct (F64.int p1) as [nw1|] eqn:En; cbn [obind] in H; [|discriminate].
    destruct (F64.int_mul (height mask_cropped) s1) as [q1|]; cbn [obind] in H;
      [|discriminate].
    destruct (F64.int q1) as [nh1|]; cbn [obind] in H; [|discriminate].
    injection H as <- <-.
    assert (HX : 0 <= IZR w * B2R s1) by nra.
    pose proof (rounds_to_upper _ _ Rp HX) as [Hp0 Hpup].
    destruct (int_spec _ _ En) as (_ & Hpos & _).
    destruct (Hpos Hp0) as [_ [Hn _]].
    (* w * s1 is the limit up to the roundings *)
    destruct (Z.eq_dec field_width 0) as [Hz0|Hnz].
    + specialize (Hz Hz0). assert (Y = 0) by (unfold Y; rewrite Hz; lra).
      rewrite H in Rs. apply rounds_to_zero in Rs. rewrite Rs in *.
      assert (IZR nw1 < IZR (k + 1)) by (rewrite plus_IZR; nra).
      apply lt_IZR in H0. lia.
    + specialize (Hp ltac:(lia)).
      assert (HYlo : / 1152921504606846976 <= Y) by (unfold Y, Rdiv; nra).
      pose proof (rounds_to_rel_pos _ _ Rs HYlo) as [_ Hsrel].
      set (e := / 9007199254740992) in *.
      assert (He : e = / 9007199254740992) by reflexivity.
      assert (Hws : IZR w * B2R s1 <= B2R limit * (1 + e)).
      { rewrite <- EY. nra. }
      assert (IZR nw1 < IZR (k + 1)).
      { rewrite plus_IZR. apply Rle_lt_trans with (B2R p1); [exact Hn|].
        apply (cap_arith (B2R limit) (IZR w * B2R s1) (B2R p1) (IZR k) e He);
          [lra|lra|exact Hws|exact Hpup]. }
      apply lt_IZR in H. lia.
  - (* the width is within the limit as it is *)
    injection H as <- <-.
    assert (Hle : IZR nw0 <= B2R limit).
    { destruct (Rle_lt_dec (IZR nw0) (B2R limit)) as [|Hlt]; [assumption|].
      apply (int_gt_real nw0 limit Fl) in Hlt. congruence. }
    assert (IZR nw0 < IZR (k + 1)) by (rewrite plus_IZR; lra).
    apply lt_IZR in H. lia.
Qed.

Lemma scaled_size_width_cap_witness :
  Price.scaled_size 36 (mkImage 100 30 (fun _ _ => 255%Z)) 1.5 1.0
  = Ret (43, 12)%Z /\ (43 <= 6 * 36 / 5)%Z.
Proof.
  split; [vm_compute; reflexivity|].
  apply (scaled_size_width_cap 36 (mkImage 100 30 (fun _ _ => 255%Z)) 1.5 1.0 43 12).
  - lia.
  - cbn. lia.
  - vm_compute. reflexivity.
Defined.

End SlotScaleFacts.

(** ** Rules for the assertions *)

Module HoareFacts.

Import Hoare PILFacts ExtractionFacts.

Lemma returns_ret {A} (a : A) (P : A -> Prop) : P a -> returns (ret a) P.
Proof. intros H g b [= <-]. exact H. Qed.

Lemma returns_raise {A} (e : exn) (P : A -> Prop) : returns (raise e) P.
Proof. intros g b H. discriminate H. Qed.

Lemma returns_lift {A} (o : outcome A) (P : A -> Prop) :
  (forall a, o = Ret a -> P a) -> returns (lift o) P.
Proof. intros H g b E. apply H. exact E. Qed.

Lemma returns_bind {A B} (m : M A) (k : A -> M B) (Q : A -> Prop)
    (P : B -> Prop) :
  returns m Q -> (forall a, Q a -> returns (k a) P) -> returns (bind m k) P.
Proof.
  intros Hm Hk g b H. unfold bind in H.
  destruct (m g) as [[a|e] g1] eqn:E; [|discriminate H].
  apply (Hk a (Hm g a ltac:(rewrite E; reflexivity)) g1 b H).
Qed.

Lemma returns_try {A} (m h : M A) (P : A -> Prop) :
  returns m P -> returns h P -> returns (try_except m h) P.
Proof.
  intros Hm Hh g b H. unfold try_except in H.
  destruct (m g) as [[a|e] g1] eqn:E.
  - apply (Hm g b). rewrite E. exact H.
  - apply (Hh g1 b H).
Qed.


Lemma returns_any {A} (m : M A) : returns m (fun _ => True).
Proof. intros g a _. exact I. Qed.

Lemma returns_randint (a b : Z) : returns (randint a b) (fun v => a <= v <= b).
Proof.
  intros g v H. unfold randint in H.
  destruct (Z.ltb_spec b a) as [|Hle]; [discriminate H|].
  injection H as <-. apply randint_value_bounds. exact Hle.
Qed.

Lemma returns_choice {A} (l : list A) : returns (choice l) (fun a => In a l).
Proof.
  intros g a H. destruct (choice l g) as [[x|e] g1] eqn:E; [|discriminate H].
  injection H as <-. apply choice_In in E. tauto.
Qed.

Lemma never_raises_ret {A} (a : A) : never_raises (ret a).
Proof. intros g. exists a. reflexivity. Qed.

Lemma never_raises_try {A} (m h : M A) :
  never_raises h -> never_raises (try_except m h).
Proof.
  intros Hh g. unfold try_except.
  destruct (m g) as [[a|e] g1]; [exists a; reflexivity|apply Hh].
Qed.

Lemma never_raises_bind {A B} (m : M A) (k : A -> M B) (Q : A -> Prop) :
  never_raises m -> returns m Q -> (forall a, Q a -> never_raises (k a)) ->
  never_raises (bind m k).
Proof.
  intros Hm HQ Hk g. unfold bind.
  destruct (Hm g) as [a Ea].
  destruct (m g) as [[a'|e] g1] eqn:E; [|discriminate Ea].
  injection Ea as ->.
  apply (Hk a (HQ g a ltac:(rewrite E; reflexivity)) g1).
Qed.

Lemma never_raises_choice {A} (a : A) (l : list A) : never_raises (choice (a :: l)).
Proof.
  intros g. unfold choice.
  destruct (nth_error (a :: l) _) as [x|] eqn:E; [exists x; reflexivity|].
  apply nth_error_None in E.
  pose proof (Z.mod_pos_bound (rng_head g) (Z.of_nat (List.length (a :: l)))
                ltac:(cbn [List.length]; lia)). lia.
Qed.

End HoareFacts.

(** ** Pasting one glyph into a slot *)

Module SlotPasteFacts.

Import Hoare Shapes HoareFacts PILFacts ExtractionFacts.

Lemma has_foreground_size (m : image) :
  has_foreground m -> 1 <= width m /\ 1 <= height m.
Proof. intros (x & y & Hx & Hy & _). lia. Qed.

Lemma price_crop_and_rotate_size (E : env) (mask : image) :
  returns (Price.crop_and_rotate E mask)
          (fun r => forall m, r = Some m -> 1 <= width m /\ 1 <= height m).
Proof.
  unfold Price.crop_and_rotate.
  eapply returns_bind; [apply returns_any|]. intros r _.
  destruct (getbbox _) as [b|]; [|apply returns_ret; discriminate].
  eapply returns_bind; [apply returns_any|]. intros angle _.
  destruct (getbbox (rotate E angle _)) as [b2|] eqn:Hb;
    apply returns_ret; [|discriminate].
  intros m [= <-]. apply has_foreground_size, getbbox_crop_foreground, Hb.
Qed.

Lemma resize_size (E : env) (im out : image) (w h : Z) :
  resize E im w h = Ret out -> width out = w /\ height out = h.
Proof.
  unfold resize.
  destruct (Z.eqb_spec w (width im)) as [->|]; cbn [andb].
  - destruct (Z.eqb_spec h (height im)) as [->|].
    + intros [= <-]. auto.
    + destruct (_ || _); [discriminate|]. intros [= <-]. auto.
  - destruct (_ || _); [discriminate|]. intros [= <-]. auto.
Qed.

Lemma resize_positive (E : env) (im out : image) (w h : Z) :
  1 <= width im -> 1 <= height im ->
  resize E im w h = Ret out -> 1 <= w /\ 1 <= h.
Proof.
  unfold resize. intros Hw Hh.
  destruct (Z.eqb_spec w (width im)) as [->|]; cbn [andb].
  - destruct (Z.eqb_spec h (height im)) as [->|]; [lia|].
    destruct (Z.ltb_spec (width im) 1); cbn [orb]; [discriminate|].
    destruct (Z.ltb_spec h 1); [discriminate|]. lia.
  - destruct (Z.ltb_spec w 1); cbn [orb]; [discriminate|].
    destruct (Z.ltb_spec h 1); [discriminate|]. lia.
Qed.

Lemma paste_from_effect (E : env) (cv : canvas) (img_path : string)
    (bbox : box) (text_color : color) :
  returns (Price.paste_from E cv img_path bbox text_color)
          (paste_effect cv bbox text_color).
Proof.
  unfold Price.paste_from, paste_effect.
  destruct bbox as [[[x0 y0] x1] y1].
  destruct (open_gray E img_path) as [img_gray|]; [|apply returns_raise].
  eapply returns_bind; [apply price_crop_and_rotate_size|].
  intros [mask|] Hsize; [|apply returns_ret; reflexivity].
  destruct (Hsize mask eq_refl) as [Hw Hh].
  eapply returns_bind; [apply returns_any|]. intros u1 _.
  eapply returns_bind; [apply returns_any|]. intros scale _.
  eapply returns_bind; [apply returns_any|]. intros u2 _.
  eapply returns_bind; [apply returns_any|]. intros [nw nh] _.
  destruct (_ || _); [apply returns_ret; reflexivity|].
  eapply returns_bind; [apply returns_lift; intros a Ha; exact Ha|].
  intros scaled Hres. cbv beta in Hres.
  destruct (resize_size _ _ _ _ _ Hres) as [Ew Eh].
  destruct (resize_positive _ _ _ _ _ Hw Hh Hres) as [Pw Ph].
  eapply returns_bind; [apply returns_randint|]. intros jx Hjx.
  eapply returns_bind; [apply returns_randint|]. intros jy Hjy.
  eapply returns_bind; [apply returns_lift; intros a Ha; exact Ha|].
  intros cv' Hp. cbv beta in Hp. unfold paste in Hp.
  destruct (paste_fits _ _ _); [|discriminate]. injection Hp as <-.
  apply returns_ret. cbn [fst snd]. cbv beta in Hjx, Hjy.
  exists scaled, jx, jy. rewrite Ew, Eh.
  split; [reflexivity|]. repeat split; lia.
Qed.

(** X6.  [_paste_single_char] with an index that is a [defaultdict]: it never
    raises; when it returns [False] the canvas is as it was, and when it
    returns [True] exactly one glyph was pasted, at least one pixel each
    way, at the centre offset of the slot plus the jitters. *)
Theorem paste_single_char_effect (E : env) (cv : canvas) (cm : char_map)
    (char_to_draw : str) (bbox : box) (text_color : color) (g : rng) :
  is_defaultdict cm = true ->
  exists r,
    fst (Price._paste_single_char E cv cm char_to_draw bbox text_color g) = Ret r /\
    paste_effect cv bbox text_color r.
Proof.
  intros Hdd.
  assert (Hret : returns (Price._paste_single_char E cv cm char_to_draw bbox text_color)
                         (paste_effect cv bbox text_color)).
  { unfold Price._paste_single_char.
    destruct (getitem char_to_draw cm) as [[|p ps]|e].
    - apply returns_ret. unfold paste_effect.
      destruct bbox as [[[x0 y0] x1] y1]. reflexivity.
    - eapply returns_bind; [apply returns_any|]. intros img_path _.
      apply returns_try; [apply paste_from_effect|].
      apply returns_ret. unfold paste_effect.
      destruct bbox as [[[x0 y0] x1] y1]. reflexivity.
    - apply returns_raise. }
  assert (Hnr : never_raises (Price._paste_single_char E cv cm char_to_draw bbox text_color)).
  { unfold Price._paste_single_char, getitem.
    destruct (lookup char_to_draw cm) as [[|p ps]|].
    - apply never_raises_ret.
    - eapply never_raises_bind with (Q := fun _ => True);
        [apply never_raises_choice|apply returns_any|].
      intros img_path _. apply never_raises_try, never_raises_ret.
    - rewrite Hdd. apply never_raises_ret. }
  destruct (Hnr g) as [r Er]. exists r. split; [exact Er|].
  exact (Hret g r Er).
Qed.

Lemma paste_single_char_effect_witness :
  exists r,
    fst (Price._paste_single_char Examples.E_id
           (mkCanvas "invoice.png" 800 600 []) Examples.index_one
           Examples.one (141, 493, 182, 532) (20, 20, 20) Examples.g_mixed)
    = Ret r /\
    paste_effect (mkCanvas "invoice.png" 800 600 []) (141, 493, 182, 532)
                 (20, 20, 20) r.
Proof.
  apply (paste_single_char_effect Examples.E_id
           (mkCanvas "invoice.png" 800 600 []) Examples.index_one
           Examples.one (141, 493, 182, 532) (20, 20, 20) Examples.g_mixed).
  reflexivity.
Defined.

End SlotPasteFacts.

(** ** What is drawn on the sheet *)

Module SheetFacts.

Import Hoare Shapes HoareFacts PILFacts ExtractionFacts SlotPasteFacts.

Lemma drawn_on_refl (cv : canvas) : drawn_on 0 cv cv.
Proof.
  unfold drawn_on. repeat split. exists []. rewrite app_nil_r. split; [reflexivity|cbn; lia].
Qed.

Lemma drawn_on_trans (n m : nat) (a b c : canvas) :
  drawn_on n a b -> drawn_on m b c -> drawn_on (n + m) a c.
Proof.
  unfold drawn_on.
  intros (S1 & W1 & H1 & m1 & P1 & L1) (S2 & W2 & H2 & m2 & P2 & L2).
  repeat split; try congruence.
  exists (m1 ++ m2). rewrite P2, P1, <- app_assoc, length_app. split; [reflexivity|lia].
Qed.


Lemma pasted_apply (o : op) (cv : canvas) :
  pasted (apply o cv)
  = pasted cv ++ match o with Paste g _ _ _ => [g] | _ => [] end.
Proof. unfold pasted, apply. cbn [ops]. rewrite flat_map_app. cbn. rewrite app_nil_r. reflexivity. Qed.

Lemma drawn_on_apply (o : op) (cv : canvas) :
  drawn_on (match o with Paste _ _ _ _ => 1 | _ => 0 end) cv (apply o cv).
Proof.
  unfold drawn_on. rewrite pasted_apply. cbn [source cwidth cheight apply].
  repeat split. eexists. split; [reflexivity|]. destruct o; cbn; lia.
Qed.

Lemma ccrop_ret (l u r d : Z) (cv out : canvas) :
  ccrop (l, u, r, d) cv = Ret out ->
  out = mkCanvas (source cv) (r - l) (d - u) (ops cv ++ [Crop (l, u, r, d)]) /\
  pasted out = pasted cv /\ l <= r /\ u <= d.
Proof.
  unfold ccrop. destruct (_ || _) eqn:Hc; [discriminate|].
  intros [= <-]. apply orb_false_iff in Hc. destruct Hc as [Hr Hd].
  apply Z.ltb_ge in Hr, Hd.
  repeat split; try assumption.
  unfold pasted. cbn [ops].
  rewrite flat_map_app. cbn. rewrite app_nil_r. reflexivity.
Qed.

Lemma load_background_returns (E : env) (p : string) (lo hi : float) :
  returns (Company.load_background E p lo hi)
          (fun cv => source cv = p /\ pasted cv = [] /\
                     open_rgb E p = Some (cwidth cv, cheight cv)).
Proof.
  unfold Company.load_background.
  destruct (open_rgb E p) as [[w h]|] eqn:Ho; [|apply returns_raise].
  eapply returns_bind; [apply returns_any|]. intros r _.
  destruct (r <? 0.85)%float; [|apply returns_ret; auto].
  eapply returns_bind; [apply returns_any|]. intros r_tint _.
  eapply returns_bind; [apply returns_any|]. intros g_tint _.
  eapply returns_bind; [apply returns_any|]. intros b_tint _.
  eapply returns_bind; [apply returns_any|]. intros alpha _.
  apply returns_ret. auto.
Qed.

Lemma post_process_returns (p lo hi : float) (cv : canvas) :
  returns (Company.post_process p lo hi cv) (drawn_on 0 cv).
Proof.
  unfold Company.post_process.
  eapply returns_bind; [apply returns_any|]. intros r _.
  eapply returns_bind with (Q := drawn_on 0 cv).
  - destruct (r <? p)%float; [|apply returns_ret, drawn_on_refl].
    eapply returns_bind; [apply returns_any|]. intros radius _.
    apply returns_ret. apply (drawn_on_apply (GaussianBlur radius)).
  - intros cv1 H1.
    eapply returns_bind; [apply returns_any|]. intros r2 _.
    destruct (r2 <? 0.3)%float; [|apply returns_ret; exact H1].
    eapply returns_bind; [apply returns_any|]. intros b _.
    eapply returns_bind; [apply returns_any|]. intros c _.
    apply returns_ret.
    apply (drawn_on_trans 0 0 _ _ _ H1).
    apply (drawn_on_trans 0 0 _ (apply (Brightness b) cv1)).
    + apply (drawn_on_apply (Brightness b)).
    + apply (drawn_on_apply (Contrast c)).
Qed.






End SheetFacts.

(** ** The result of the flowing generator *)

Module FlowingFacts.

Import Hoare Shapes HoareFacts PILFacts ExtractionFacts SlotPasteFacts SheetFacts.

Lemma get_masks_length (E : env) (cm : char_map) (cs : list str) :
  returns (Company.get_masks E cm cs)
          (fun r => forall ms, r = Some ms -> List.length ms = List.length cs).
Proof.
  induction cs as [|c cs IH]; cbn [Company.get_masks].
  - apply returns_ret. intros ms [= <-]. reflexivity.
  - eapply returns_bind; [apply returns_any|]. intros [m|] _.
    + eapply returns_bind; [apply IH|]. intros rest Hrest.
      apply returns_ret. intros ms H. destruct rest as [ms'|]; [|discriminate].
      injection H as <-. cbn [List.length]. f_equal. apply Hrest. reflexivity.
    + apply returns_ret. discriminate.
Qed.

Lemma normalize_length (E : env) (max_h : Z) (masks : list image) :
  forall out, Company.normalize E max_h masks = Ret out ->
              (List.length out <= List.length masks)%nat.
Proof.
  induction masks as [|m rest IH]; intros out H; cbn [Company.normalize] in H.
  - injection H as <-. cbn. lia.
  - destruct (Company.normalized_size max_h (width m) (height m)) as [[[w h]|]|];
      cbn [obind] in H; try discriminate.
    + destruct (resize E m w h) as [m'|]; cbn [obind] in H; [|discriminate].
      destruct (Company.normalize E max_h rest) as [ms|]; cbn [obind] in H;
        [|discriminate].
      injection H as <-. specialize (IH ms eq_refl). cbn [List.length]. lia.
    + specialize (IH out H). cbn [List.length]. lia.
Qed.

Lemma scale_masks_length (E : env) (scale : float) (masks : list image) :
  forall data, Company.scale_masks E scale masks = Ret data ->
               (List.length data <= List.length masks)%nat.
Proof.
  induction masks as [|m rest IH]; intros data H; cbn [Company.scale_masks] in H.
  - injection H as <-. cbn. lia.
  - destruct (F64.int_mul (width m) scale) as [fw|]; cbn [obind] in H; [|discriminate].
    destruct (F64.int fw) as [nw|]; cbn [obind] in H; [|discriminate].
    destruct (F64.int_mul (height m) scale) as [fh|]; cbn [obind] in H; [|discriminate].
    destruct (F64.int fh) as [nh|]; cbn [obind] in H; [|discriminate].
    destruct (_ || _).
    + specialize (IH data H). cbn [List.length]. lia.
    + destruct (resize E m nw nh) as [m'|]; cbn [obind] in H; [|discriminate].
      destruct (Company.scale_masks E scale rest) as [ms|]; cbn [obind] in H;
        [|discriminate].
      injection H as <-. specialize (IH ms eq_refl). cbn [List.length]. lia.
Qed.

Lemma paste_all_pasted (cy jit : Z) (col : color) (data : list (image * Z * Z)) :
  forall sp cv x lo hi,
    let cv' := fst (fst (fst (Company.paste_all cy jit col data sp cv x lo hi))) in
    source cv' = source cv /\
    pasted cv' = pasted cv ++ map (fun d => fst (fst d)) data.
Proof.
  induction data as [|[[m w] h] rest IH]; intros sp cv x lo hi;
    cbn [Company.paste_all].
  - cbn. rewrite app_nil_r. auto.
  - destruct sp as [|s sp'].
    + specialize (IH [] (apply (Paste m x (cy - h / 2 + jit) col) cv) (x + w)
                     (Z.min lo (cy - h / 2 + jit))
                     (Z.max hi (cy - h / 2 + jit + h))).
      cbv zeta in IH |- *. destruct IH as [IH1 IH2].
      rewrite IH1, IH2, pasted_apply. cbn [map fst snd source apply].
      rewrite <- app_assoc. auto.
    + specialize (IH sp' (apply (Paste m x (cy - h / 2 + jit) col) cv) (x + w + s)
                     (Z.min lo (cy - h / 2 + jit))
                     (Z.max hi (cy - h / 2 + jit + h))).
      cbv zeta in IH |- *. destruct IH as [IH1 IH2].
      rewrite IH1, IH2, pasted_apply. cbn [map fst snd source apply].
      rewrite <- app_assoc. auto.
Qed.

(** X8.  The flowing generator returns the no-result pair, or an image cut
    from the given background together with the input string as its
    label; before the crop at least one glyph and at most one per
    character of the label was pasted on the canvas.  The pastes are
    counted wherever they land: for a field outside the background none of
    them need lie inside the crop. *)
Theorem flowing_result_shape (E : env) (cm : char_map) (bg : string)
    (bbox : box) (company_name : str) (g : rng)
    (r : option canvas * option str) :
  fst (Company.generate_synthetic_image E cm bg bbox company_name g) = Ret r ->
  r = Company.no_result \/
  exists img,
    r = (Some img, Some company_name) /\ source img = bg /\
    (1 <= List.length (pasted img) <= List.length company_name)%nat.
Proof.
  revert g r.
  change (returns (Company.generate_synthetic_image E cm bg bbox company_name)
    (fun r => r = Company.no_result \/
       exists img,
         r = (Some img, Some company_name) /\ source img = bg /\
         (1 <= List.length (pasted img) <= List.length company_name)%nat)).
  unfold Company.generate_synthetic_image.
  destruct bbox as [[[xmin ymin] xmax] ymax].
  destruct (negb _); [apply returns_ret; left; reflexivity|].
  eapply returns_bind; [apply get_masks_length|].
  intros [[|m0 ms]|] Hlen; try (apply returns_ret; left; reflexivity).
  specialize (Hlen _ eq_refl). rewrite length_map in Hlen.
  destruct (_ =? 0); [apply returns_ret; left; reflexivity|].
  eapply returns_bind; [apply returns_lift; intros a Ha; exact Ha|].
  intros processed Hnorm. cbv beta in Hnorm. apply normalize_length in Hnorm.
  destruct processed as [|p0 ps]; [apply returns_ret; left; reflexivity|].
  eapply returns_bind; [apply returns_any|]. intros spacings _.
  cbv zeta.
  destruct (_ =? 0); [apply returns_ret; left; reflexivity|].
  eapply returns_bind; [apply returns_any|]. intros u _.
  eapply returns_bind; [apply returns_any|]. intros scale _.
  eapply returns_bind; [apply returns_lift; intros a Ha; exact Ha|].
  intros data Hdata. cbv beta in Hdata. apply scale_masks_length in Hdata.
  destruct data as [|d0 ds]; [apply returns_ret; left; reflexivity|].
  eapply returns_bind with
    (Q := fun loaded => forall cv, loaded = Some cv ->
            source cv = bg /\ pasted cv = [] /\
            open_rgb E bg = Some (cwidth cv, cheight cv)).
  { apply returns_try; [|apply returns_ret; discriminate].
    eapply returns_bind; [apply load_background_returns|].
    intros cv H. apply returns_ret. intros cv' [= <-]. exact H. }
  intros [base|] Hload; [|apply returns_ret; left; reflexivity].
  destruct (Hload base eq_refl) as (Hsrc & Hp & _).
  eapply returns_bind; [apply returns_any|]. intros scaled_spacings _.
  eapply returns_bind; [apply returns_any|]. intros offset _.
  eapply returns_bind; [apply returns_any|]. intros jitter _.
  eapply returns_bind; [apply returns_any|]. intros text_color _.
  match goal with
  | |- context [Company.paste_all ?cy ?j ?c ?d ?s ?cv ?x ?lo ?hi] =>
      pose proof (paste_all_pasted cy j c d s cv x lo hi) as Hpaste;
      destruct (Company.paste_all cy j c d s cv x lo hi) as [[[cv1 cx] mn] mx]
  end.
  cbv zeta in Hpaste. cbn [fst] in Hpaste. destruct Hpaste as [S1 P1].
  destruct (negb (forallb fits (ops cv1))); [apply returns_raise|].
  eapply returns_bind; [apply returns_lift; intros a Ha; exact Ha|].
  intros cropped Hc. cbv beta in Hc. apply ccrop_ret in Hc.
  destruct Hc as (-> & Pc & _ & _).
  eapply returns_bind; [apply post_process_returns|].
  intros img (S2 & _ & _ & m2 & P2 & L2). rewrite Pc in P2.
  apply returns_ret. right. exists img.
  split; [reflexivity|].
  assert (S2' : source img = source cv1) by exact S2.
  split; [congruence|].
  rewrite P1, Hp in P2. cbn [app] in P2.
  destruct m2; [|cbn [List.length] in L2; lia].
  rewrite app_nil_r in P2. rewrite P2, length_map.
  cbn [List.length] in Hdata, Hnorm, Hlen |- *. lia.
Qed.

End FlowingFacts.

(** ** Runs of the generators *)

Module RunFacts.

Import Hoare Shapes.

Lemma flowing_result_shape_witness :
  exists r,
    fst (Company.generate_synthetic_image Examples.E_id Examples.index_one
           "invoice.png" (147, 58, 628, 101) (Examples.one ++ Examples.one)
           Examples.g_mixed) = Ret r /\
    (r = Company.no_result \/
     exists img,
       r = (Some img, Some (Examples.one ++ Examples.one)) /\
       source img = "invoice.png"%string /\
       (1 <= List.length (pasted img)
        <= List.length (Examples.one ++ Examples.one))%nat).
Proof.
  eexists. split; [vm_compute; reflexivity|].
  apply (FlowingFacts.flowing_result_shape Examples.E_id Examples.index_one
           "invoice.png" (147, 58, 628, 101) (Examples.one ++ Examples.one)
           Examples.g_mixed).
  vm_compute. reflexivity.
Defined.


End RunFacts.

(** ** The paste loop *)

Module PasteLoopFacts.

Import Hoare Shapes.

(** X9.  The paste loop draws every glyph between the start and the final
    cursor, and between the least and greatest y it reports; it only adds
    paste operations, one per glyph and in order. *)
Theorem paste_all_within (cy jit : Z) (col : color)
    (data : list (image * Z * Z)) :
  forall (sp : list Z) (cv : canvas) (x lo hi : Z),
    Forall (fun d => 0 <= snd (fst d)) data -> Forall (fun s => 0 <= s) sp ->
    exists new cx lo' hi',
      Company.paste_all cy jit col data sp cv x lo hi
      = (mkCanvas (source cv) (cwidth cv) (cheight cv) (ops cv ++ new),
         cx, lo', hi') /\
      x <= cx /\ lo' <= lo /\ hi <= hi' /\
      Forall2 (fun o d =>
                 exists px py,
                   o = Paste (fst (fst d)) px py col /\
                   x <= px /\ px + snd (fst d) <= cx /\
                   lo' <= py /\ py + snd d <= hi')
              new data.
Proof.
  induction data as [|[[m w] h] rest IH]; intros sp cv x lo hi Hd Hs.
  - exists [], x, lo, hi. cbn [Company.paste_all]. rewrite app_nil_r.
    destruct cv; cbn. repeat split; try lia. constructor.
  - inversion Hd as [|? ? Hw Hrest]; subst. cbn [fst snd] in Hw.
    cbn [Company.paste_all].
    set (y := cy - h / 2 + jit).
    assert (Hstep : forall sp' x',
               x + w <= x' -> Forall (fun s => 0 <= s) sp' ->
               exists new cx lo' hi',
                 Company.paste_all cy jit col rest sp'
                   (apply (Paste m x y col) cv) x' (Z.min lo y) (Z.max hi (y + h))
                 = (mkCanvas (source cv) (cwidth cv) (cheight cv) (ops cv ++ new),
                    cx, lo', hi') /\
                 x <= cx /\ lo' <= lo /\ hi <= hi' /\
                 Forall2 (fun o d =>
                            exists px py,
                              o = Paste (fst (fst d)) px py col /\
                              x <= px /\ px + snd (fst d) <= cx /\
                              lo' <= py /\ py + snd d <= hi')
                         new ((m, w, h) :: rest)).
    { intros sp' x' Hx' Hs'.
      destruct (IH sp' (apply (Paste m x y col) cv) x' (Z.min lo y)
                   (Z.max hi (y + h)) Hrest Hs')
        as (new & cx & lo' & hi' & E & Hcx & Hlo & Hhi & Hall).
      exists (Paste m x y col :: new), cx, lo', hi'.
      rewrite E. cbn [apply source cwidth cheight ops].
      rewrite <- app_assoc. cbn [app].
      split; [reflexivity|]. repeat split; try lia.
      constructor.
      - exists x, y. cbn [fst snd]. repeat split; lia.
      - eapply Forall2_impl; [|exact Hall].
        intros o d (px & py & -> & B1 & B2 & B3 & B4).
        exists px, py. repeat split; lia. }
    destruct sp as [|s sp'].
    + apply Hstep; [lia|constructor].
    + inversion Hs as [|? ? Hs0 Hs']; subst. apply Hstep; [lia|exact Hs'].
Qed.

Lemma paste_all_within_witness :
  exists new cx lo' hi',
    Company.paste_all 79 0 (20, 20, 20)
      [(Examples.sample_blank, 4, 4); (Examples.sample_blank, 4, 4)] [3]
      (mkCanvas "invoice.png" 800 600 []) 150 600 0
    = (mkCanvas "invoice.png" 800 600 ([] ++ new), cx, lo', hi') /\
    150 <= cx /\ lo' <= 600 /\ 0 <= hi' /\
    Forall2 (fun o d =>
               exists px py,
                 o = Paste (fst (fst d)) px py (20, 20, 20) /\
                 150 <= px /\ px + snd (fst d) <= cx /\
                 lo' <= py /\ py + snd d <= hi')
            new [(Examples.sample_blank, 4, 4); (Examples.sample_blank, 4, 4)].
Proof.
  apply (paste_all_within 79 0 (20, 20, 20)
           [(Examples.sample_blank, 4, 4); (Examples.sample_blank, 4, 4)] [3]
           (mkCanvas "invoice.png" 800 600 []) 150 600 0).
  - repeat constructor; cbn; lia.
  - repeat constructor; lia.
Defined.

End PasteLoopFacts.

(** ** Glyph sizes through the flowing pipeline *)

Module GlyphSizeFacts.

Import Hoare Shapes HoareFacts PILFacts ExtractionFacts SlotPasteFacts.

(** X10.  Normalisation keeps glyphs visible: from masks of at least one
    pixel each way it returns, when it returns, masks of at least one pixel
    each way, no more of them than it was given. *)
Theorem normalize_sizes (E : env) (max_h : Z) (masks out : list image) :
  Forall (fun m => 1 <= width m /\ 1 <= height m) masks ->
  Company.normalize E max_h masks = Ret out ->
  Forall (fun m => 1 <= width m /\ 1 <= height m) out /\
  (List.length out <= List.length masks)%nat.
Proof.
  intros Hall. revert out.
  induction Hall as [|m rest [Hw Hh] _ IH]; intros out H;
    cbn [Company.normalize] in H.
  - injection H as <-. split; [constructor|cbn; lia].
  - destruct (Company.normalized_size max_h (width m) (height m)) as [[[w h]|]|];
      cbn [obind] in H; try discriminate.
    + destruct (resize E m w h) as [m'|] eqn:Er; cbn [obind] in H; [|discriminate].
      destruct (Company.normalize E max_h rest) as [ms|]; cbn [obind] in H;
        [|discriminate].
      injection H as <-. destruct (IH ms eq_refl) as [IH1 IH2].
      destruct (resize_size _ _ _ _ _ Er) as [Ew Eh].
      destruct (resize_positive _ _ _ _ _ Hw Hh Er) as [Pw Ph].
      split; [constructor; [lia|exact IH1]|cbn [List.length]; lia].
    + destruct (IH out H) as [IH1 IH2]. split; [exact IH1|cbn [List.length]; lia].
Qed.

Lemma normalize_sizes_witness :
  Forall (fun m => 1 <= width m /\ 1 <= height m)
         [mkImage 61 20 (fun _ _ => 255); mkImage 3 1 (fun _ _ => 255)] /\
  exists out,
    Company.normalize Examples.E_id 20
      [mkImage 61 20 (fun _ _ => 255); mkImage 3 1 (fun _ _ => 255)] = Ret out /\
    Forall (fun m => 1 <= width m /\ 1 <= height m) out /\
    (List.length out <= 2)%nat.
Proof.
  assert (H : Forall (fun m => 1 <= width m /\ 1 <= height m)
                     [mkImage 61 20 (fun _ _ => 255); mkImage 3 1 (fun _ _ => 255)])
    by (repeat constructor; cbn; lia).
  split; [exact H|]. eexists. split; [vm_compute; reflexivity|].
  apply (normalize_sizes Examples.E_id 20
           [mkImage 61 20 (fun _ _ => 255); mkImage 3 1 (fun _ _ => 255)] _ H).
  vm_compute. reflexivity.
Defined.

(** X11.  The scaling loop records with every glyph its real size: each
    entry [(mask, w, h)] it returns has a mask [w] wide and [h] high, both
    at least one pixel, so that the paste loop pastes images and masks of
    equal size. *)
Theorem scale_masks_sizes (E : env) (scale : float) (masks : list image)
    (data : list (image * Z * Z)) :
  Forall (fun m => 1 <= width m /\ 1 <= height m) masks ->
  Company.scale_masks E scale masks = Ret data ->
  Forall (fun d => width (fst (fst d)) = snd (fst d) /\
                   height (fst (fst d)) = snd d /\
                   1 <= snd (fst d) /\ 1 <= snd d) data.
Proof.
  intros Hall. revert data.
  induction Hall as [|m rest [Hw Hh] _ IH]; intros data H;
    cbn [Company.scale_masks] in H.
  - injection H as <-. constructor.
  - destruct (F64.int_mul (width m) scale) as [fw|]; cbn [obind] in H; [|discriminate].
    destruct (F64.int fw) as [nw|]; cbn [obind] in H; [|discriminate].
    destruct (F64.int_mul (height m) scale) as [fh|]; cbn [obind] in H; [|discriminate].
    destruct (F64.int fh) as [nh|]; cbn [obind] in H; [|discriminate].
    destruct (_ || _); [exact (IH data H)|].
    destruct (resize E m nw nh) as [m'|] eqn:Er; cbn [obind] in H; [|discriminate].
    destruct (Company.scale_masks E scale rest) as [ms|]; cbn [obind] in H;
      [|discriminate].
    injection H as <-.
    destruct (resize_size _ _ _ _ _ Er) as [Ew Eh].
    destruct (resize_positive _ _ _ _ _ Hw Hh Er) as [Pw Ph].
    constructor; [cbn [fst snd]; repeat split; assumption|exact (IH ms eq_refl)].
Qed.

Lemma scale_masks_sizes_witness :
  exists data,
    Company.scale_masks Examples.E_id 2.5
      [mkImage 3 2 (fun _ _ => 255); mkImage 1 1 (fun _ _ => 255)] = Ret data /\
    List.length data = 2%nat /\
    Forall (fun d => width (fst (fst d)) = snd (fst d) /\
                     height (fst (fst d)) = snd d /\
                     1 <= snd (fst d) /\ 1 <= snd d) data.
Proof.
  eexists. split; [vm_compute; reflexivity|]. split; [reflexivity|].
  apply (scale_masks_sizes Examples.E_id 2.5
           [mkImage 3 2 (fun _ _ => 255); mkImage 1 1 (fun _ _ => 255)]).
  - repeat constructor; cbn; lia.
  - vm_compute. reflexivity.
Defined.

Lemma get_char_mask_some (E : env) (c : str) (cm : char_map) (g g' : rng)
    (m : image) :
  Company._get_char_mask E c cm g = (Ret (Some m), g') -> has_foreground m.
Proof.
  unfold Company._get_char_mask, contains, getitem.
  destruct (lookup c cm) as [paths|]; simpl; [|discriminate].
  unfold bind, lift, try_except.
  destruct (choice paths g) as [[img_path|e] g1]; [|discriminate].
  destruct (open_gray E img_path) as [img_gray|]; [|discriminate].
  destruct (Company.crop_and_rotate E (Company.binarize img_gray) g1)
    as [[[m'|]|e] g2] eqn:Hc; try discriminate.
  intros [= <- <-]. eapply company_crop_and_rotate_some. exact Hc.
Qed.

(** X12.  The mask loop returns, when it returns masks, one per character, and each
    of them has a foreground pixel. *)
Theorem get_masks_all_visible (E : env) (cm : char_map) (cs : list str)
    (g : rng) (ms : list image) :
  fst (Company.get_masks E cm cs g) = Ret (Some ms) ->
  List.length ms = List.length cs /\ Forall has_foreground ms.
Proof.
  revert g ms. induction cs as [|c cs IH]; intros g ms H;
    cbn [Company.get_masks] in H.
  - injection H as <-. split; [reflexivity|constructor].
  - unfold bind at 1 in H.
    destruct (Company._get_char_mask E c cm g) as [[[m|]|e] g1] eqn:Hm;
      try discriminate H.
    unfold bind in H.
    destruct (Company.get_masks E cm cs g1) as [[[ms'|]|e] g2] eqn:Hrest;
      try discriminate H.
    cbn in H. injection H as <-.
    destruct (IH g1 ms' ltac:(rewrite Hrest; reflexivity)) as [IH1 IH2].
    split; [cbn [List.length]; congruence|].
    constructor; [|exact IH2].
    exact (get_char_mask_some E c cm g g1 m Hm).
Qed.

Lemma get_masks_all_visible_witness :
  exists ms,
    fst (Company.get_masks Examples.E_id Examples.index_one
           [Examples.one; Examples.one] Examples.g_zero) = Ret (Some ms) /\
    List.length ms = 2%nat /\ Forall has_foreground ms.
Proof.
  eexists. split; [vm_compute; reflexivity|].
  apply (get_masks_all_visible Examples.E_id Examples.index_one
           [Examples.one; Examples.one] Examples.g_zero).
  vm_compute. reflexivity.
Defined.

End GlyphSizeFacts.

(** ** Runs that end early *)

Module FailFastFacts.

Import GenerationFacts.

(** X13, at a run: with a blank sample for the first of two characters the
    mask loop ends after one draw, and the second character is not sampled. *)
Lemma get_masks_stops_witness :
  Company.get_masks Examples.E_id Examples.index_blank
    ([] ++ Examples.one :: [Examples.one]) Examples.g_zero
  = (Ret None, rng_tail Examples.g_zero).
Proof.
  apply (get_masks_stops Examples.E_id Examples.index_blank [] [Examples.one]
           Examples.one Examples.g_zero [] Examples.g_zero
           (rng_tail Examples.g_zero)).
  - reflexivity.
  - reflexivity.
Defined.

End FailFastFacts.
